(** * sixletters: the game state (gamestate.js) and the multiplayer client
      (dist/multiplayer.js), embedded and verified.

    JavaScript strings are modelled as [string] over 8-bit code units, arrays
    as lists, the [UI] collaborator and the socket as logs of the calls made to
    them, and [Math.random] as explicit draws handed to the functions that
    consume them. *)

From Stdlib Require Import ZArith Ascii String List Permutation Sorted.
From stdpp Require Import gmap strings list sorting.

Local Open Scope string_scope.
Local Open Scope nat_scope.
Local Open Scope list_scope.

(** ** JavaScript string primitives used by the two files *)

Module JS.

(** [String.prototype.toLowerCase] on one code unit below 256: the letters
    A-Z and the Latin-1 capitals U+00C0..U+00DE (the sign U+00D7 apart) move
    up by 32, every other unit is kept. *)
Definition lower_unit (c : ascii) : ascii :=
  let n := N_of_ascii c in
  if ((65 <=? n) && (n <=? 90) ||
      (192 <=? n) && (n <=? 222) && negb (n =? 215))%N
  then ascii_of_N (n + 32) else c.

Fixpoint toLowerCase (s : string) : string :=
  match s with
  | EmptyString => EmptyString
  | String c s' => String (lower_unit c) (toLowerCase s')
  end.

(** [s.split("")]: one string per code unit. *)
Fixpoint split_units (s : string) : list string :=
  match s with
  | EmptyString => []
  | String c s' => String c EmptyString :: split_units s'
  end.

(** [a.join(sep)]. *)
Definition join (sep : string) (a : list string) : string :=
  String.concat sep a.

(** [s.split(" ")]: the pieces between spaces; never an empty array. *)
Fixpoint split_space (s : string) : list string :=
  match s with
  | EmptyString => [EmptyString]
  | String c s' =>
      if Ascii.eqb c " " then EmptyString :: split_space s'
      else match split_space s' with
           | [] => [String c EmptyString]
           | piece :: pieces => String c piece :: pieces
           end
  end.

(** [s.endsWith("_")]. *)
Fixpoint endsWith_underscore (s : string) : bool :=
  match s with
  | EmptyString => false
  | String c EmptyString => Ascii.eqb c "_"
  | String _ s' => endsWith_underscore s'
  end.

(** [s.substring(0, s.length - 1)]. *)
Fixpoint drop_last (s : string) : string :=
  match s with
  | EmptyString => EmptyString
  | String _ EmptyString => EmptyString
  | String c s' => String c (drop_last s')
  end.

(** Truthiness of a string value: every string but the empty one. *)
Definition truthy (s : string) : bool :=
  match s with EmptyString => false | String _ _ => true end.

End JS.

(** ** Word Set Generator: permute, uniq_fast, getUniqPermutations *)

Section Permute.
Context {A : Type}.

(** The recursive closure [main] of [permute].  [input] and [usedChars] are
    the two arrays the closure mutates; every iteration restores them
    ([input.splice(i, 0, ch)], [usedChars.pop()]) before the next one, so
    each iteration starts from the same pair.  The value is the list of
    arrays pushed on [permArr] by this call, in order.  The recursion goes
    as deep as [input] is long: [n] bounds that depth ([permute] starts it at
    [length input], see [permute_main_depth]). *)
Fixpoint permute_main (n : nat) (input usedChars : list A) : list (list A) :=
  match n with
  | 0 => []
  | S n' =>
      flat_map
        (fun i =>
           match input !! i with
           | None => []
           | Some ch =>
               let input' := delete i input in
               let usedChars' := usedChars ++ [ch] in
               (if Nat.eqb (length input') 0 then [usedChars'] else [])
                 ++ permute_main n' input' usedChars'
           end)
        (seq 0 (length input))
  end.

Definition permute (input : list A) : list (list A) :=
  permute_main (length input) input [].

(** [uniq_fast]: [seen] holds the own properties of the object [seen], and
    [toString] is the coercion of an item to a property key.  Assigning [1]
    to the key [__proto__] of an object literal stores nothing, so that one
    key is never recorded; no inherited property holds [1]. *)
Context (toString : A -> string).

Definition seen_set (key : string) (seen : gmap string Z) : gmap string Z :=
  if decide (key = "__proto__") then seen else <[ key := 1%Z ]> seen.

Fixpoint uniq_fast_from (seen : gmap string Z) (a : list A) : list A :=
  match a with
  | [] => []
  | item :: rest =>
      if decide (seen !! toString item = Some 1%Z)
      then uniq_fast_from seen rest
      else item :: uniq_fast_from (seen_set (toString item) seen) rest
  end.

Definition uniq_fast (a : list A) : list A := uniq_fast_from ∅ a.
End Permute.

(** An array of strings used as a property key: [Array.prototype.toString],
    the elements joined by commas. *)
Definition array_toString (l : list string) : string := JS.join "," l.

Definition getUniqPermutations (chars : list string) (maxLen : nat)
  : list (list string) :=
  uniq_fast array_toString (map (take maxLen) (permute chars)).

(** The default [Array.prototype.sort] orders strings by code units; the
    sorted array is the one ascending arrangement of its elements, whatever
    algorithm the engine runs. *)
Definition js_sort (l : list string) : list string := merge_sort String.le l.

(** The four word groups computed by the loop [for (i = 3; i <= 6; i++)] of
    [createGame], from the lower-cased dictionary and the split base word. *)
Definition word_group (dictionary baseWord : list string) (i : nat)
  : list string :=
  js_sort (filter (fun s => s ∈ dictionary)
             (map (JS.join "") (getUniqPermutations baseWord i))).

Definition gamewords_of (dictionary baseWord : list string)
  : list (list string) :=
  map (word_group dictionary baseWord) [3; 4; 5; 6].

(** ** Values held by the game state *)

(** The second argument of [onWordGuess] as its comment documents it: [true]
    for the local player outside multiplayer, [1] for a word that was given
    up on, or the name of a player.  An answer pair holds [false] ([None])
    until one of these is stored in it. *)
Inductive player :=
| Local                     (* true *)
| System                    (* 1 *)
| Named (name : string).

Global Instance player_eq_dec : EqDecision player.
Proof. solve_decision. Defined.

(** Truthiness of the second component of an answer pair, as tested by
    [if (a[2])]: [false] and the empty string are falsy. *)
Definition claimed (c : option player) : bool :=
  match c with
  | None => false
  | Some Local | Some System => true
  | Some (Named name) => JS.truthy name
  end.

(** A piece of a string built by [+]: the text of a number, of [NaN], of
    [undefined], or of a member of [Object.prototype] (the source text of a
    built-in function; ["[object Object]"] for [__proto__]).  None of these
    texts is empty. *)
Inductive piece :=
| digits (z : Z)
| text_NaN
| text_undefined
| text_of_member (name : string).

Global Instance piece_eq_dec : EqDecision piece.
Proof. solve_decision. Defined.

(** Scores.  Numbers are integers here (exact in a double below 2^53);
    [NaN] and [undefined] are kept because [pointvalues] has only four keys;
    [Str pieces] is the string made of the texts of [pieces], which [+=]
    produces once an operand is not a number. *)
Inductive value :=
| Num (z : Z)
| NaN
| Undefined
| Str (pieces : list piece).

Global Instance value_eq_dec : EqDecision value.
Proof. solve_decision. Defined.

Definition pointvalues (len : nat) : value :=
  match len with
  | 3 => Num 90
  | 4 => Num 160
  | 5 => Num 250
  | 6 => Num 360
  | _ => Undefined
  end.

(** [String(v)], as pieces. *)
Definition pieces_of (v : value) : list piece :=
  match v with
  | Num z => [digits z]
  | NaN => [text_NaN]
  | Undefined => [text_undefined]
  | Str pieces => pieces
  end.

(** [a + b] on these values ([+=]): the sum of two numbers, the
    concatenation of the two texts when one operand is a string, [NaN]
    otherwise. *)
Definition js_add (a b : value) : value :=
  match a, b with
  | Num x, Num y => Num (x + y)
  | Str _, _ | _, Str _ => Str (pieces_of a ++ pieces_of b)
  | _, _ => NaN
  end.

Definition value_truthy (v : value) : bool :=
  match v with
  | Num z => negb (z =? 0)%Z
  | Str pieces => negb (bool_decide (pieces = []))
  | NaN | Undefined => false
  end.

(** The members of [Object.prototype], which every object literal inherits:
    those of the standard and of its annex B. *)
Definition object_prototype : list string :=
  ["constructor"; "hasOwnProperty"; "isPrototypeOf"; "propertyIsEnumerable";
   "toLocaleString"; "toString"; "valueOf"; "__proto__";
   "__defineGetter__"; "__defineSetter__";
   "__lookupGetter__"; "__lookupSetter__"].

(** What the read [mp_scores[name]] gives: a number or string, or a member
    inherited from [Object.prototype] (an object: a built-in function, for
    [__proto__] the prototype itself). *)
Inductive property :=
| Primitive (v : value)
| Inherited (name : string).

Definition property_truthy (p : property) : bool :=
  match p with
  | Primitive v => value_truthy v
  | Inherited _ => true
  end.

(** [p + points], for [mp_scores[name] += points]: an object operand is
    converted to its text. *)
Definition property_add (p : property) (points : value) : value :=
  match p with
  | Primitive v => js_add v points
  | Inherited name => Str (text_of_member name :: pieces_of points)
  end.

(** [mp_scores[name]] on the object literal [mp_scores], whose own
    properties are the map [scores]: an own property first, then the
    members of [Object.prototype], then [undefined].  [__proto__] is an
    accessor of the prototype and always gives the prototype. *)
Definition mp_scores_get (scores : gmap string value) (name : string)
  : property :=
  if decide (name = "__proto__") then Inherited name
  else match scores !! name with
       | Some v => Primitive v
       | None =>
           if decide (name ∈ object_prototype) then Inherited name
           else Primitive Undefined
       end.

(** [mp_scores[name] = v] for a number or string [v]: an own property is
    written, except under [__proto__], whose setter ignores a value that is
    not an object. *)
Definition mp_scores_put (name : string) (v : value)
    (scores : gmap string value) : gmap string value :=
  if decide (name = "__proto__") then scores else <[ name := v ]> scores.

(** ** The collaborators: calls made to [UI], messages sent on the socket *)

Module UI.
Inductive call :=
| setScore (score : value)
| setPlayerScore (score : property) (name : string)
| initChoices (letters : list string)
| constructGame (gamewords : list (list string))
| revealWord (word : string) (group position : nat) (who : player)
| backspaceChar
| addToChoices (c : string)
| enterChar (c : string)
| removeLetterAtIndex (index : Z)
| show_mp_menu (n : Z)
| onGiveUpVote (on : bool) (name : option string)
| display_gamename (lobbyname : string)
| onNameTaken
| onPlayerQuit (name : string)
| onPlayerJoin (name : string)
| noLobbyError
| onDisconnect
| onGameMake.
End UI.

(** Which function is installed as [sock.onmessage]. *)
Inductive handler :=
| NoSocket
| HostAwaitLobby (name : string)
| Joining (state : nat) (gamename : string)
| onServerMsg_installed.

(** ** The state of the two modules *)

(** An answer pair [[a, b]]. *)
Abbreviation entry := (string * option player)%type.

Record world := World {
  (* GAMESTATE *)
  answers : list (list entry);
  avail_letters : list string;
  (* the property "-1" of the array [avail_letters], written by
     [backspaceChar] when no slot is empty *)
  avail_letters_neg1 : option string;
  input_box : list string;
  gaveup : bool;
  score : value;
  mp_scores : gmap string value;
  (* MULTIPLAYER *)
  onmessage : handler;
  playername : option string;
  lobby : option string;
  players : list string;
  (* collaborators *)
  ui : list UI.call;            (* calls made to UI, oldest first *)
  sent : list string            (* messages passed to sock.send, oldest first *)
}.

Definition set_answers v w := World v (avail_letters w) (avail_letters_neg1 w)
  (input_box w) (gaveup w) (score w) (mp_scores w) (onmessage w)
  (playername w) (lobby w) (players w) (ui w) (sent w).
Definition set_avail_letters v w := World (answers w) v (avail_letters_neg1 w)
  (input_box w) (gaveup w) (score w) (mp_scores w) (onmessage w)
  (playername w) (lobby w) (players w) (ui w) (sent w).
Definition set_avail_letters_neg1 v w := World (answers w) (avail_letters w) v
  (input_box w) (gaveup w) (score w) (mp_scores w) (onmessage w)
  (playername w) (lobby w) (players w) (ui w) (sent w).
Definition set_input_box v w := World (answers w) (avail_letters w)
  (avail_letters_neg1 w) v (gaveup w) (score w) (mp_scores w) (onmessage w)
  (playername w) (lobby w) (players w) (ui w) (sent w).
Definition set_gaveup v w := World (answers w) (avail_letters w)
  (avail_letters_neg1 w) (input_box w) v (score w) (mp_scores w) (onmessage w)
  (playername w) (lobby w) (players w) (ui w) (sent w).
Definition set_score v w := World (answers w) (avail_letters w)
  (avail_letters_neg1 w) (input_box w) (gaveup w) v (mp_scores w) (onmessage w)
  (playername w) (lobby w) (players w) (ui w) (sent w).
Definition set_mp_scores v w := World (answers w) (avail_letters w)
  (avail_letters_neg1 w) (input_box w) (gaveup w) (score w) v (onmessage w)
  (playername w) (lobby w) (players w) (ui w) (sent w).
Definition set_onmessage v w := World (answers w) (avail_letters w)
  (avail_letters_neg1 w) (input_box w) (gaveup w) (score w) (mp_scores w) v
  (playername w) (lobby w) (players w) (ui w) (sent w).
Definition set_playername v w := World (answers w) (avail_letters w)
  (avail_letters_neg1 w) (input_box w) (gaveup w) (score w) (mp_scores w)
  (onmessage w) v (lobby w) (players w) (ui w) (sent w).
Definition set_lobby v w := World (answers w) (avail_letters w)
  (avail_letters_neg1 w) (input_box w) (gaveup w) (score w) (mp_scores w)
  (onmessage w) (playername w) v (players w) (ui w) (sent w).
Definition set_players v w := World (answers w) (avail_letters w)
  (avail_letters_neg1 w) (input_box w) (gaveup w) (score w) (mp_scores w)
  (onmessage w) (playername w) (lobby w) v (ui w) (sent w).

(** One call to a [UI] function, appended to the log. *)
Definition call_ui (c : UI.call) (w : world) : world :=
  World (answers w) (avail_letters w) (avail_letters_neg1 w) (input_box w)
    (gaveup w) (score w) (mp_scores w) (onmessage w) (playername w) (lobby w)
    (players w) (ui w ++ [c]) (sent w).

(** [sock.send(msg)]. *)
Definition sock_send (msg : string) (w : world) : world :=
  World (answers w) (avail_letters w) (avail_letters_neg1 w) (input_box w)
    (gaveup w) (score w) (mp_scores w) (onmessage w) (playername w) (lobby w)
    (players w) (ui w) (sent w ++ [msg]).

(** ** gamestate.js *)

(** [Math.floor(Math.random() * n)]: a number below [n] when [n] is
    positive, obtained here from a raw sample, and [0] when [n] is [0]. *)
Definition random_below (sample n : nat) : nat :=
  match n with
  | 0 => 0
  | S _ => sample mod n
  end.

(** The three assignments that exchange [array[i]] and [array[j]]. *)
Definition swap_at {A} (i j : nat) (array : list A) : list A :=
  match array !! i, array !! j with
  | Some temp, Some aj => <[ j := temp ]> (<[ i := aj ]> array)
  | _, _ => array
  end.

(** The loop of [shuffle] from index [i] down to 1; [draw i] is the sample
    taken at index [i]. *)
Fixpoint shuffle_from {A} (draw : nat -> nat) (i : nat) (array : list A)
  : list A :=
  match i with
  | 0 => array
  | S i' => shuffle_from draw i' (swap_at i (random_below (draw i) (i + 1)) array)
  end.

Definition shuffle {A} (draw : nat -> nat) (array : list A) : list A :=
  shuffle_from draw (length array - 1) array.

Definition addScore (points : value) (w : world) : world :=
  let w := set_score (js_add (score w) points) w in
  call_ui (UI.setScore (score w)) w.

(** [mp_scores] holds the own properties of the object; the reads go through
    [Object.prototype] ([mp_scores_get]). *)
Definition addPlayerScore (points : value) (playername : string) (w : world)
  : world :=
  let w :=
    if property_truthy (mp_scores_get (mp_scores w) playername)
    then set_mp_scores
           (mp_scores_put playername
              (property_add (mp_scores_get (mp_scores w) playername) points)
              (mp_scores w)) w
    else set_mp_scores (mp_scores_put playername points (mp_scores w)) w in
  call_ui (UI.setPlayerScore (mp_scores_get (mp_scores w) playername)
             playername) w.

Definition shuffleLetters (draw : nat -> nat) (w : world) : world :=
  let w := set_avail_letters (shuffle draw (avail_letters w)) w in
  call_ui (UI.initChoices (avail_letters w)) w.

(** [createGame]: [pick] is the sample that chooses the base word and [draw]
    the samples of the shuffle.  [None] is the TypeError raised by
    [undefined.split] when the dictionary has no word of length 6; nothing has
    been assigned at that point. *)
Definition createGame (dictionary : list string) (pick : nat)
    (draw : nat -> nat) (w : world) : option world :=
  let dictionary := map JS.toLowerCase dictionary in
  let possibilities := filter (fun s => String.length s = 6) dictionary in
  match possibilities !! random_below pick (length possibilities) with
  | None => None
  | Some chosen =>
      let baseWord := JS.split_units chosen in
      let gamewords := gamewords_of dictionary baseWord in
      let w := call_ui (UI.constructGame gamewords) w in
      let w := set_answers (map (map (fun b => (b, None))) gamewords) w in
      let w := set_avail_letters_neg1 None (set_avail_letters baseWord w) in
      let w := shuffleLetters draw w in
      let w := set_input_box [] w in
      Some (set_gaveup false w)
  end.

(** The array [possibilities] of [createGame], and the base word picked from
    it, split into letters. *)
Definition possibilities (dictionary : list string) : list string :=
  filter (fun s => String.length s = 6) (map JS.toLowerCase dictionary).

Definition baseWord_of (dictionary : list string) (pick : nat)
  : option (list string) :=
  JS.split_units
    <$> possibilities dictionary
          !! random_below pick (length (possibilities dictionary)).

(** The inner loop of [checkWord] over one group, from position [j]. *)
Fixpoint checkWord_group (word : string) (group : list entry) (j : nat)
  : option (nat * option player) :=
  match group with
  | [] => None
  | (a, b) :: group' =>
      if decide (a = word) then Some (j, b)
      else checkWord_group word group' (S j)
  end.

(** The outer loop, from group [i]. *)
Fixpoint checkWord_from (word : string) (groups : list (list entry)) (i : nat)
  : option (nat * nat * option player) :=
  match groups with
  | [] => None
  | group :: groups' =>
      match checkWord_group word group 0 with
      | Some (j, b) => Some (i, j, b)
      | None => checkWord_from word groups' (S i)
      end
  end.

Definition checkWord (word : string) (w : world)
  : option (nat * nat * option player) :=
  checkWord_from word (answers w) 0.

Definition onWordGuess (word : string) (playername : player) (w : world)
  : world :=
  match checkWord word w with
  | Some (a0, a1, a2) =>
      if claimed a2 then w
      else
        let w := call_ui (UI.revealWord word a0 a1 playername) w in
        let w := set_answers
                   (alter (alter (fun e : entry => (e.1, Some playername)) a1)
                      a0 (answers w)) w in
        if negb (gaveup w) then
          if decide (playername ≠ System) then
            let w := addScore (pointvalues (String.length word)) w in
            match playername with
            | Named name =>
                (* playername !== true: it is a name *)
                addPlayerScore (pointvalues (String.length word)) name w
            | _ => w
            end
          else w
        else w
  | None => w
  end.

(** [a.lastIndexOf(x)]; [None] stands for -1. *)
Fixpoint lastIndexOf (x : string) (a : list string) : option nat :=
  match a with
  | [] => None
  | y :: a' =>
      match lastIndexOf x a' with
      | Some k => Some (S k)
      | None => if decide (y = x) then Some 0 else None
      end
  end.

(** [backspaceChar(index)]; [None] is the omitted argument. *)
Definition backspaceChar (index : option Z) (w : world) : bool * world :=
  if (0 <? length (input_box w))
     && match index with
        | None => true
        | Some k => (Z.of_nat (length (input_box w)) =? k + 1)%Z
        end
  then
    match last (input_box w) with
    | Some c =>
        let w := set_input_box (removelast (input_box w)) w in
        let w := call_ui UI.backspaceChar w in
        let w := match lastIndexOf "" (avail_letters w) with
                 | Some k => set_avail_letters (<[ k := c ]> (avail_letters w)) w
                 | None => set_avail_letters_neg1 (Some c) w
                 end in
        (true, call_ui (UI.addToChoices c) w)
    | None => (false, w)
    end
  else (false, w).

Definition getPlayername (w : world) : option string := playername w.

(** [sock] is set once [hostGame] or [joinGame] has run. *)
Definition has_sock (w : world) : bool :=
  match onmessage w with NoSocket => false | _ => true end.

Definition announceWordGuess (word : string) (w : world) : world :=
  if has_sock w && JS.truthy word
  then sock_send (":attempt " +:+ JS.toLowerCase word) w
  else w.

Definition voteGiveUp (on : bool) (w : world) : world :=
  if has_sock w
  then sock_send (if on then ":giveup" else ":ungiveup") w
  else w.

(** [while (m.backspaceChar());] with at most [n] calls. *)
Fixpoint backspace_while (n : nat) (w : world) : world :=
  match n with
  | 0 => w
  | S n' =>
      let '(more, w') := backspaceChar None w in
      if more then backspace_while n' w' else w'
  end.

(** [submitWord]: the loop makes one call per letter of [input_box] and a
    last one that fails (see [backspace_while_empties] and
    [backspace_while_bound]). *)
Definition submitWord (w : world) : world :=
  let word := JS.join "" (input_box w) in
  let playername :=
    match getPlayername w with
    | Some name => if JS.truthy name then Named name else Local
    | None => Local
    end in
  let w := onWordGuess word playername w in
  let w := announceWordGuess word w in
  backspace_while (S (length (input_box w))) w.

(** The calls [revealAll] makes, group after group. *)
Definition reveal_calls (groups : list (list entry)) : list UI.call :=
  concat (imap (fun i group =>
                  imap (fun j (e : entry) => UI.revealWord e.1 i j System) group)
            groups).

Definition revealAll (w : world) : world :=
  fold_left (fun w c => call_ui c w) (reveal_calls (answers w)) w.

Definition giveUp (on : bool) (w : world) : world :=
  match getPlayername w, on with
  | None, true =>
      let w := call_ui (UI.show_mp_menu (-1)) w in
      let w := revealAll w in
      set_gaveup true w
  | playername, _ =>
      let w := voteGiveUp on w in
      call_ui (UI.onGiveUpVote on playername) w
  end.

(** [avail_letters[index]] for a number [index]; [None] is [undefined]. *)
Definition avail_at (index : Z) (w : world) : option string :=
  if (index =? -1)%Z then avail_letters_neg1 w
  else if (index <? 0)%Z then None
  else avail_letters w !! Z.to_nat index.

Definition enterChar (index : Z) (w : world) : bool * world :=
  match avail_at index w with
  | Some c =>
      if JS.truthy c then
        let w := set_input_box (input_box w ++ [c]) w in
        let w := call_ui (UI.enterChar c) w in
        let w := if (index =? -1)%Z then set_avail_letters_neg1 (Some "") w
                 else set_avail_letters
                        (<[ Z.to_nat index := "" ]> (avail_letters w)) w in
        (true, call_ui (UI.removeLetterAtIndex index) w)
      else (false, w)
  | None => (false, w)
  end.

(** The callbacks built by [mp_callbacks] that are not plain [UI] functions.
    [onGameMake] is the empty default for a host and the caller's function for
    a joiner; that call is logged as [UI.onGameMake]. *)
Definition cb_onLobbyCreate (lobbyname : string) (w : world) : world :=
  let w := call_ui (UI.display_gamename lobbyname) w in
  call_ui (UI.show_mp_menu 2) w.

Definition cb_onPlayerJoin (name : string) (w : world) : world :=
  let w := call_ui (UI.onPlayerJoin name) w in
  if decide (Some name = getPlayername w) then
    let w := set_mp_scores (mp_scores_put name (score w) (mp_scores w)) w in
    call_ui (UI.setPlayerScore (Primitive (score w)) name) w
  else w.

Definition cb_makeGame (gamewords : list string) (pick : nat)
    (draw : nat -> nat) (w : world) : option world :=
  match createGame gamewords pick draw w with
  | Some w =>
      let w := call_ui (UI.show_mp_menu 2) w in
      Some (call_ui UI.onGameMake w)
  | None => None
  end.

(** ** dist/multiplayer.js *)

(** [s.substring(n)]. *)
Fixpoint substring_from (n : nat) (s : string) : string :=
  match n, s with
  | 0, _ => s
  | S _, EmptyString => EmptyString
  | S n', String _ s' => substring_from n' s'
  end.

(** The helper [split(s, " ", limit)]: the first [limit] pieces and, as a
    last element, what follows them in [s]. *)
Definition split_limit (s : string) (limit : nat) : list string :=
  let arr := take limit (JS.split_space s) in
  let left := substring_from (String.length (JS.join " " arr) + 1) s in
  arr ++ [left].

(** [a.indexOf(x)]; [None] stands for -1. *)
Fixpoint indexOf (x : string) (a : list string) : option nat :=
  match a with
  | [] => None
  | y :: a' => if decide (y = x) then Some 0 else S <$> indexOf x a'
  end.

Definition onPlayerJoin (name : string) (w : world) : world :=
  let w := cb_onPlayerJoin name w in
  set_players (players w ++ [name]) w.

(** [players.splice(players.indexOf(name), 1)]: a start of -1 removes the
    last element. *)
Definition onPlayerQuit (name : string) (w : world) : world :=
  let w := call_ui (UI.onPlayerQuit name) w in
  match indexOf name (players w) with
  | Some k => set_players (delete k (players w)) w
  | None => set_players (removelast (players w)) w
  end.

Definition onServerMsg (data : string) (w : world) : world :=
  if String.prefix ":attempt " data then
    let sdata := split_limit data 2 in
    let word := nth 1 sdata "" in
    let who := nth 2 sdata "" in
    onWordGuess word (if decide (who = "_") then System else Named who) w
  else if decide (data = ":allgiveup") then revealAll w
  else
    let sdata := split_limit data 1 in
    let cmd := nth 0 sdata "" in
    let arg := nth 1 sdata "" in
    if decide (cmd = ":join") then onPlayerJoin arg w
    else if decide (cmd = ":quit") then onPlayerQuit arg w
    else if decide (cmd = ":giveup") then call_ui (UI.onGiveUpVote true (Some arg)) w
    else if decide (cmd = ":ungiveup") then call_ui (UI.onGiveUpVote false (Some arg)) w
    else w.

(** The message [hostGame] sends when the socket opens: every word of
    [answers], followed by an underscore when it has been guessed. *)
Definition is_space (c : ascii) : bool :=
  let n := N_of_ascii c in
  ((9 <=? n) && (n <=? 13) || (n =? 32) || (n =? 160))%N.

Fixpoint trim_start (s : string) : string :=
  match s with
  | String c s' => if is_space c then trim_start s' else s
  | EmptyString => EmptyString
  end.

Fixpoint trim_end (s : string) : string :=
  match s with
  | EmptyString => EmptyString
  | String c s' =>
      match trim_end s' with
      | EmptyString => if is_space c then EmptyString else String c EmptyString
      | rest => String c rest
      end
  end.

Definition host_snapshot (answers : list (list entry)) : string :=
  trim_end (trim_start
    (fold_left
       (fun words (e : entry) =>
          words +:+ e.1 +:+ (if claimed e.2 then "_ " else " "))
       (concat answers) "")).

Definition hostGame (name : string) (w : world) : world :=
  set_onmessage (HostAwaitLobby name) (set_playername (Some name) w).

Definition sendName (name : string) (w : world) : world :=
  sock_send name (set_playername (Some name) w).

Definition joinGame (gamename : string) (w : world) : world :=
  set_onmessage (Joining 0 gamename) w.

(** One token of the roster message, in the loop of state 2. *)
Definition roster_token (w : world) (n : string) : world :=
  if JS.endsWith_underscore n then
    let n := JS.drop_last n in
    onPlayerQuit n (onPlayerJoin n w)
  else onPlayerJoin n w.

(** The function [joinGame] installs as [sock.onmessage]; [state] is its
    closure variable.  The first conditional may move [state] to 1 or 2, the
    second one then runs on the same [event.data].  [None] is the TypeError
    [createGame] can raise in state 3. *)
Definition join_onmessage (state : nat) (gamename data : string)
    (pick : nat) (draw : nat -> nat) (w : world) : option world :=
  let '(state, w) :=
    if state =? 0 then
      if decide (data = ":noexist") then (state, call_ui UI.noLobbyError w)
      else if decide (data = ":ok") then (1, w)
      else (state, w)
    else if state =? 1 then
      if decide (data = ":badname") then (state, w)
      else if decide (data = ":taken") then (state, call_ui UI.onNameTaken w)
      else (2, w)
    else (state, w) in
  if state =? 2 then
    let w := fold_left roster_token (JS.split_space data) w in
    Some (set_onmessage (Joining 3 gamename) w)
  else if state =? 3 then
    match cb_makeGame (JS.split_space data) pick draw w with
    | Some w => Some (set_onmessage onServerMsg_installed
                        (set_lobby (Some gamename) w))
    | None => None
    end
  else Some (set_onmessage (Joining state gamename) w).

(** [sock.onmessage(event)], whichever function is installed. *)
Definition receive (data : string) (pick : nat) (draw : nat -> nat)
    (w : world) : option world :=
  match onmessage w with
  | NoSocket => Some w
  | HostAwaitLobby name =>
      let w := cb_onLobbyCreate ("c" +:+ data) w in
      let w := onPlayerJoin name w in
      Some (set_onmessage onServerMsg_installed w)
  | Joining state gamename => join_onmessage state gamename data pick draw w
  | onServerMsg_installed => Some (onServerMsg data w)
  end.

(** ** Notions used to state the properties *)

(** A string of exactly one code unit, as [split("")] produces them. *)
Definition unit_string (s : string) : Prop := String.length s = 1.

(** [word] can be formed from some of the letters of [baseWord], each used
    at most as often as it occurs there. *)
Definition formable (word baseWord : string) : Prop :=
  ∃ rest, JS.split_units word ++ rest ≡ₚ JS.split_units baseWord.

(** The first two statements of [onWordGuess] for a word that is revealed:
    the call to [UI.revealWord] and the assignment to the pair. *)
Definition revealed (word : string) (who : player) (a0 a1 : nat) (w : world)
  : world :=
  set_answers
    (alter (alter (fun e : entry => (e.1, Some who)) a1) a0 (answers w))
    (call_ui (UI.revealWord word a0 a1 who) w).

(** The individual score shown for a player: the number stored under the
    name, 0 when there is none. *)
Definition individual_score (name : string) (w : world) : Z :=
  match mp_scores w !! name with
  | Some (Num z) => z
  | _ => 0%Z
  end.

(** The page as loaded: no socket, score 0.  The variables [createGame]
    assigns ([answers], [avail_letters], [input_box], [gaveup]) are undefined
    until it runs; they are given empty values here. *)
Definition initial_world : world :=
  World [] [] None [] false (Num 0) ∅ NoSocket None None [] [] [].

(** A small dictionary and the game [createGame] builds from it when every
    sample is 0. *)
Definition garden_dictionary : list string :=
  ["den"; "Dare"; "rang"; "GARDEN"; "danger"; "end"; "cat"].

Definition garden_game : world :=
  default initial_world
    (createGame garden_dictionary 0 (fun _ => 0) initial_world).


(** ** Sessions *)

(** The calls a page makes on [GAMESTATE] during a game, [createGame] and the
    multiplayer entry points apart. *)
Inductive action :=
| Guess (word : string) (who : player)      (* onWordGuess(word, who) *)
| Enter (index : Z)                         (* enterChar(index) *)
| Backspace (index : option Z)              (* backspaceChar(index) *)
| Submit                                    (* submitWord() *)
| GiveUp (on : bool)                        (* giveUp(on) *)
| Shuffle (draw : nat -> nat).              (* shuffleLetters() *)

Definition perform (w : world) (a : action) : world :=
  match a with
  | Guess word who => onWordGuess word who w
  | Enter index => (enterChar index w).2
  | Backspace index => (backspaceChar index w).2
  | Submit => submitWord w
  | GiveUp on => giveUp on w
  | Shuffle draw => shuffleLetters draw w
  end.

Definition perform_all (w : world) (actions : list action) : world :=
  fold_left perform actions w.

(** The slots of the letter pool that hold a letter. *)
Definition occupied (slots : list string) : nat :=
  length (filter (fun c => JS.truthy c = true) slots).
Global Arguments occupied : simpl never.

(** The pool and the input box of a game on a base word of [n] letters. *)
Definition pool_invariant (n : nat) (w : world) : Prop :=
  length (avail_letters w) = n
  ∧ length (input_box w) + occupied (avail_letters w) = n
  ∧ Forall (fun c => JS.truthy c = true) (input_box w)
  ∧ avail_letters_neg1 w = None.

(** The game of the garden dictionary after its first two letters were
    entered. *)
Definition garden_two_entered : world :=
  (enterChar 1 (enterChar 0 garden_game).2).2.


(** A joiner of lobby "g1" named carol, after the server has answered
    [":ok"] and then, to the name, the roster ["alice bob_"]. *)
Definition joiner_named : world :=
  sendName "carol"
    (default initial_world
       (receive ":ok" 0 (fun _ => 0) (joinGame "g1" initial_world))).

Definition joiner_after_roster : world :=
  default initial_world (receive "alice bob_" 0 (fun _ => 0) joiner_named).

(** The same joiner after the word list ["den dare_ garden"]. *)
Definition joiner_after_words : world :=
  default initial_world
    (receive "den dare_ garden" 0 (fun _ => 0) joiner_after_roster).


(** The same joiner after a word list without underscores instead. *)
Definition joiner_after_plain_words : world :=
  default initial_world
    (receive "den cat garden end" 0 (fun _ => 0) joiner_after_roster).


(** A string without white space. *)
Fixpoint spaceless (s : string) : bool :=
  match s with
  | EmptyString => true
  | String c s' => negb (is_space c) && spaceless s'
  end.

(** The words of a ledger, in the order of [hostGame]'s loops. *)
Definition ledger_words (groups : list (list entry)) : list string :=
  (concat groups).*1.


(** [indexOfLetter(c)]: the first slot that holds the lower-cased [c];
    [None] stands for -1. *)
Definition indexOfLetter (c : string) (w : world) : option nat :=
  indexOf (JS.toLowerCase c) (avail_letters w).

(** [onServerClose]: the socket was closed. *)
Definition onServerClose (w : world) : world := call_ui UI.onDisconnect w.


(** The letters of a game: those typed so far and those left in the pool. *)
Definition letters_in_play (w : world) : list string :=
  input_box w ++ filter (fun c => JS.truthy c = true) (avail_letters w).


(** ** Points held in the ledger *)

(** The number [pointvalues] holds for a length, 0 when it holds none. *)
Definition points_of (len : nat) : Z :=
  match pointvalues len with
  | Num z => z
  | _ => 0%Z
  end.

(** The points a pair stands for: those of its word when it holds the local
    player or a named player, none when it holds no claimant or the system. *)
Definition credited (e : entry) : Z :=
  match e.2 with
  | Some Local | Some (Named _) =>
      if claimed e.2 then points_of (String.length e.1) else 0%Z
  | Some System | None => 0%Z
  end.

Definition group_points (group : list entry) : Z :=
  foldr (fun e acc => (credited e + acc)%Z) 0%Z group.

Definition ledger_points (groups : list (list entry)) : Z :=
  foldr (fun group acc => (group_points group + acc)%Z) 0%Z groups.

(** A call of the session whose claimant, if it is a guess, is one the
    ledger can record (not the empty name). *)
Definition recordable (a : action) : Prop :=
  match a with
  | Guess _ who => claimed (Some who) = true
  | _ => True
  end.

(** The words of the ledger, group by group, without the claimants. *)
Definition ledger_shape (w : world) : list (list string) :=
  map (map fst) (answers w).

(** Every word of the ledger has one of the four lengths of [pointvalues]. *)
Definition scorable (w : world) : Prop :=
  Forall (Forall (fun s => 3 ≤ String.length s ≤ 6)) (ledger_shape w).


(** The token [hostGame] writes for a pair of the ledger: the word, followed
    by an underscore when the pair holds a claimant. *)
Definition snapshot_token (e : entry) : string :=
  if claimed e.2 then e.1 +:+ "_" else e.1.


(** The points a pair stands for in the individual score of [name]. *)
Definition credited_to (name : string) (e : entry) : Z :=
  match e.2 with
  | Some (Named n) =>
      if decide (n = name) then points_of (String.length e.1) else 0%Z
  | _ => 0%Z
  end.

Definition player_points (name : string) (groups : list (list entry)) : Z :=
  foldr (fun group acc =>
           (foldr (fun e acc => (credited_to name e + acc)%Z) 0%Z group + acc)%Z)
    0%Z groups.


(** What happens to a page during a multiplayer game: a call made by the
    page, or a message of the server handled by [onServerMsg]. *)
Inductive event :=
| Call (a : action)
| Message (data : string).

Definition handle (w : world) (e : event) : world :=
  match e with
  | Call a => perform w a
  | Message data => onServerMsg data w
  end.

Definition handle_all (w : world) (events : list event) : world :=
  fold_left handle events w.

(** The function [hostGame] installs as [sock.onopen]: it sends the word
    list.  The closure reads the array [answers] that was passed to
    [hostGame], which is the ledger of the game as long as [createGame] has
    not run again. *)
Definition host_onopen (w : world) : world :=
  sock_send (host_snapshot (answers w)) w.


(** The messages of the game protocol a page sends: a vote, the withdrawal of
    a vote, or the attempt of a non-empty lower-cased word. *)
Definition game_message (m : string) : Prop :=
  m = ":giveup" ∨ m = ":ungiveup"
  ∨ ∃ word, word ≠ "" ∧ m = ":attempt " +:+ JS.toLowerCase word.


(** A name under which [mp_scores] works as a map from names to numbers:
    the name is not a member of [Object.prototype] and the entry under it,
    if there is one, is not a string (under such a name it never is: the
    program only stores there the score and what [+=] makes of numbers). *)
Definition numeric_entry (name : string) (scores : gmap string value) : Prop :=
  (name ∉ object_prototype) ∧ ∀ pieces, scores !! name ≠ Some (Str pieces).


(** * Verification *)

(** ** Running the model on small inputs *)

Example permute_abc :
  permute ["a"; "b"; "c"] =
  [["a";"b";"c"]; ["a";"c";"b"]; ["b";"a";"c"]; ["b";"c";"a"];
   ["c";"a";"b"]; ["c";"b";"a"]].
Proof. reflexivity. Qed.

Example garden_words :
  gamewords_of ["den"; "dare"; "rang"; "garden"; "danger"; "end"]
    (JS.split_units "garden")
  = [["den"; "end"]; ["dare"; "rang"]; []; ["danger"; "garden"]].
Proof. vm_compute. reflexivity. Qed.

Example split_space_ex :
  JS.split_space "den dare_ garden" = ["den"; "dare_"; "garden"]
  /\ JS.split_space "" = [""] /\ JS.split_space "a  b" = ["a"; ""; "b"].
Proof. repeat split; reflexivity. Qed.

Example split_limit_ex :
  split_limit ":attempt den alice b" 2 = [":attempt"; "den"; "alice b"]
  /\ split_limit ":join" 1 = [":join"; ""].
Proof. split; reflexivity. Qed.

Example host_snapshot_ex :
  host_snapshot [[("den", None)]; [("dare", Some Local)]; []; [("garden", None)]]
  = "den dare_ garden".
Proof. reflexivity. Qed.

(** ** Properties of the Word Set Generator *)

Section PermuteFacts.
Context {A : Type}.
Implicit Types input usedChars p : list A.

(** Every array [permute] collects is an arrangement of the letters. *)
Lemma permute_main_Permutation n input usedChars p :
  p ∈ permute_main n input usedChars → p ≡ₚ usedChars ++ input.
Proof.
  revert input usedChars.
  induction n as [|n IH]; intros input usedChars; simpl.
  - intros H. inversion H.
  - rewrite list_elem_of_In, in_flat_map.
    intros (i & _ & Hi).
    destruct (input !! i) as [ch|] eqn:Hch; [|destruct Hi].
    apply in_app_or in Hi.
    assert (Hperm : (usedChars ++ [ch]) ++ delete i input ≡ₚ usedChars ++ input).
    { rewrite <- app_assoc. simpl. apply Permutation_app_head.
      symmetry. by apply delete_Permutation. }
    destruct Hi as [Hi|Hi].
    + destruct (Nat.eqb_spec (length (delete i input)) 0) as [Hlen|];
        [|destruct Hi].
      destruct Hi as [<-|[]].
      apply nil_length_inv in Hlen.
      rewrite Hlen, app_nil_r in Hperm. done.
    + apply list_elem_of_In, IH in Hi. by rewrite Hi.
Qed.

(** Conversely every arrangement of a non-empty [input] is collected. *)
Lemma permute_main_complete n input usedChars p :
  length input ≤ n → input ≠ [] → p ≡ₚ input →
  usedChars ++ p ∈ permute_main n input usedChars.
Proof.
  revert input usedChars p.
  induction n as [|n IH]; intros input usedChars p Hn Hne Hp.
  - destruct input; [done | simpl in Hn; lia].
  - destruct p as [|ch p'].
    { apply Permutation_nil in Hp. done. }
    assert (Hin : ch ∈ input) by (rewrite <- Hp; left).
    apply list_elem_of_lookup in Hin as [i Hi].
    simpl. rewrite list_elem_of_In, in_flat_map.
    exists i. split.
    { apply in_seq. apply lookup_lt_Some in Hi. lia. }
    rewrite Hi. apply in_or_app.
    assert (Hp' : p' ≡ₚ delete i input).
    { apply (Permutation_cons_inv (a := ch)).
      rewrite Hp. by apply delete_Permutation. }
    replace (usedChars ++ ch :: p') with ((usedChars ++ [ch]) ++ p')
      by (by rewrite <- app_assoc).
    destruct (Nat.eqb_spec (length (delete i input)) 0) as [Hlen|Hlen].
    + left. apply nil_length_inv in Hlen. rewrite Hlen in Hp'.
      symmetry in Hp'. apply Permutation_nil in Hp'. subst p'. rewrite app_nil_r. by left.
    + right. apply list_elem_of_In, IH; [| |done].
      * rewrite length_delete by eauto. apply lookup_lt_Some in Hi. lia.
      * intros E. by rewrite E in Hlen.
Qed.

(** The bound on the depth is not felt from [length input] on. *)
Lemma permute_main_depth n input usedChars :
  length input ≤ n →
  permute_main n input usedChars
  = permute_main (length input) input usedChars.
Proof.
  revert input usedChars.
  induction n as [|n IH]; intros input usedChars Hn.
  - by destruct input; [|simpl in Hn; lia].
  - destruct input as [|a input]; [done|].
    change (length (a :: input)) with (S (length input)).
    cbn [permute_main]. apply flat_map_ext. intros i.
    destruct ((a :: input) !! i) as [ch|] eqn:Hch; [|done].
    f_equal.
    assert (Hlen : length (delete i (a :: input)) = length input).
    { rewrite length_delete by eauto. simpl. lia. }
    rewrite (IH (delete i (a :: input))) by (simpl in Hn; lia).
    by rewrite Hlen.
Qed.

Lemma permute_Permutation input p : p ∈ permute input → p ≡ₚ input.
Proof. apply permute_main_Permutation. Qed.

Lemma permute_complete input p :
  input ≠ [] → p ≡ₚ input → p ∈ permute input.
Proof. intros. by apply (permute_main_complete _ _ []). Qed.

Context (toString : A → string).
Implicit Types seen : gmap string Z.

(** What [uniq_fast] keeps comes from its argument, and a key already
    recorded is not kept again. *)
Lemma uniq_fast_from_elem seen a x :
  x ∈ uniq_fast_from toString seen a →
  x ∈ a ∧ seen !! toString x ≠ Some 1%Z.
Proof.
  revert seen. induction a as [|item rest IH]; intros seen; simpl.
  - intros H. inversion H.
  - destruct (decide (seen !! toString item = Some 1%Z)) as [Hs|Hs].
    + intros [? ?]%IH. split; [by right | done].
    + intros [->|Hx]%elem_of_cons; [split; [by left | done]|].
      apply IH in Hx as [? Hx]. split; [by right|].
      intros Hk. apply Hx. unfold seen_set.
      destruct (decide (toString item = "__proto__")); [done|].
      destruct (decide (toString item = toString x)) as [->|].
      * by rewrite lookup_insert_eq.
      * by rewrite lookup_insert_ne.
Qed.

(** No two kept items have the same key, as long as no key is
    [__proto__]. *)
Lemma uniq_fast_from_NoDup seen a :
  Forall (fun x => toString x ≠ "__proto__") a →
  NoDup (toString <$> uniq_fast_from toString seen a).
Proof.
  revert seen. induction a as [|item rest IH]; intros seen Hk; simpl.
  - constructor.
  - apply Forall_cons in Hk as [Hitem Hk].
    destruct (decide (seen !! toString item = Some 1%Z)); [by apply IH|].
    rewrite fmap_cons. constructor; [|by apply IH].
    intros (x & Hx & Hin)%list_elem_of_fmap.
    apply uniq_fast_from_elem in Hin as [_ Hin].
    apply Hin. unfold seen_set.
    destruct (decide (toString item = "__proto__")); [done|].
    by rewrite Hx, lookup_insert_eq.
Qed.

(** Every item of the argument has its key among the kept ones, unless the
    key was recorded beforehand. *)
Lemma uniq_fast_from_complete seen a x :
  x ∈ a → seen !! toString x ≠ Some 1%Z →
  ∃ y, y ∈ uniq_fast_from toString seen a ∧ toString y = toString x.
Proof.
  revert seen. induction a as [|item rest IH]; intros seen Hx Hs; simpl.
  - inversion Hx.
  - apply elem_of_cons in Hx as [->|Hx].
    + destruct (decide (seen !! toString item = Some 1%Z)); [done|].
      exists item. split; [by left | done].
    + destruct (decide (seen !! toString item = Some 1%Z)); [by apply IH|].
      destruct (decide (toString item = toString x)) as [E|E].
      * exists item. split; [by left | done].
      * destruct (IH (seen_set (toString item) seen) Hx) as (y & Hy & Hyx).
        { unfold seen_set. destruct (decide (toString item = "__proto__"));
            [done|]. by rewrite lookup_insert_ne. }
        exists y. split; [by right | done].
Qed.
End PermuteFacts.

(** ** Arrays of one-unit strings *)

Lemma unit_string_inv s : unit_string s → ∃ c, s = String c EmptyString.
Proof.
  destruct s as [|c [|]]; unfold unit_string; simpl; intros; try lia.
  by exists c.
Qed.

Lemma unit_string_truthy s : unit_string s → JS.truthy s = true.
Proof. by intros [c ->]%unit_string_inv. Qed.

Lemma split_units_unit s : Forall unit_string (JS.split_units s).
Proof. induction s; simpl; constructor; done. Qed.

Lemma length_split_units s : length (JS.split_units s) = String.length s.
Proof. induction s; simpl; congruence. Qed.

Lemma join_cons_unit c l : JS.join "" (String c "" :: l) = String c (JS.join "" l).
Proof. by destruct l. Qed.

Lemma split_units_join l :
  Forall unit_string l → JS.split_units (JS.join "" l) = l.
Proof.
  induction 1 as [|s l [c ->]%unit_string_inv _ IH]; [done|].
  rewrite join_cons_unit. simpl. by rewrite IH.
Qed.

Lemma length_join_units l :
  Forall unit_string l → String.length (JS.join "" l) = length l.
Proof.
  intros Hl. rewrite <- (split_units_join l) at 2 by done.
  by rewrite length_split_units.
Qed.

Lemma array_toString_cons c l :
  array_toString (String c "" :: l)
  = match l with
    | [] => String c ""
    | _ :: _ => String c (String "," (array_toString l))
    end.
Proof. by destruct l. Qed.

Lemma array_toString_inj l1 l2 :
  Forall unit_string l1 → Forall unit_string l2 →
  array_toString l1 = array_toString l2 → l1 = l2.
Proof.
  intros H1. revert l2.
  induction H1 as [|s1 l1 [c1 ->]%unit_string_inv H1 IH]; intros l2 H2.
  - destruct H2 as [|s2 l2 [c2 ->]%unit_string_inv]; [done|].
    rewrite array_toString_cons. by destruct l2.
  - destruct H2 as [|s2 l2 [c2 ->]%unit_string_inv H2].
    { rewrite array_toString_cons. by destruct l1. }
    rewrite !array_toString_cons. intros E.
    destruct l1 as [|x1 l1], l2 as [|x2 l2]; try done.
    + by inversion E.
    + inversion E as [[Hc Hk]]. f_equal. by apply IH.
Qed.

Lemma array_toString_not_proto l :
  Forall unit_string l → array_toString l ≠ "__proto__".
Proof.
  destruct 1 as [|s l [c ->]%unit_string_inv _]; [done|].
  rewrite array_toString_cons. by destruct l.
Qed.

(** The members of [getUniqPermutations baseWord i]: the distinct prefixes of
    length [i] of the arrangements of [baseWord]. *)
Lemma getUniqPermutations_elem chars i l :
  l ∈ getUniqPermutations chars i → ∃ p, p ≡ₚ chars ∧ l = take i p.
Proof.
  unfold getUniqPermutations, uniq_fast.
  intros [Hl _]%uniq_fast_from_elem.
  apply list_elem_of_fmap in Hl as (p & -> & Hp).
  exists p. split; [by apply permute_Permutation | done].
Qed.

Lemma getUniqPermutations_unit chars i :
  Forall unit_string chars →
  Forall (Forall unit_string) (getUniqPermutations chars i).
Proof.
  intros Hc. apply Forall_forall. intros l (p & Hp & ->)%getUniqPermutations_elem.
  apply Forall_take. by rewrite Hp.
Qed.

Lemma getUniqPermutations_NoDup chars i :
  Forall unit_string chars → NoDup (getUniqPermutations chars i).
Proof.
  intros Hc. apply (NoDup_fmap_1 array_toString).
  apply uniq_fast_from_NoDup.
  apply Forall_forall. intros l (p & -> & Hp)%list_elem_of_fmap.
  apply array_toString_not_proto, Forall_take.
  apply permute_Permutation in Hp. by rewrite Hp.
Qed.

Lemma getUniqPermutations_complete chars i p :
  Forall unit_string chars → chars ≠ [] → p ≡ₚ chars →
  take i p ∈ getUniqPermutations chars i.
Proof.
  intros Hc Hne Hp.
  destruct (uniq_fast_from_complete array_toString ∅
              (map (take i) (permute chars)) (take i p)) as (y & Hy & Hk).
  - apply list_elem_of_fmap. exists p. split; [done|].
    by apply permute_complete.
  - by rewrite lookup_empty.
  - assert (y = take i p) as <-; [|done].
    apply array_toString_inj; [| |done].
    + pose proof (getUniqPermutations_unit chars i Hc) as Hall.
      rewrite Forall_forall in Hall. by apply Hall.
    + apply Forall_take. by rewrite Hp.
Qed.

Lemma join_split_units s : JS.join "" (JS.split_units s) = s.
Proof.
  induction s as [|c s IH]; [done|].
  simpl JS.split_units. by rewrite join_cons_unit, IH.
Qed.

(** The group of length [i]: exactly the dictionary words of that length
    that the letters of the base word can form. *)
Lemma word_group_elem dictionary chosen i word :
  chosen ≠ "" → i ≤ String.length chosen →
  word ∈ word_group dictionary (JS.split_units chosen) i
  ↔ word ∈ dictionary ∧ String.length word = i ∧ formable word chosen.
Proof.
  intros Hne Hi. unfold word_group, js_sort.
  rewrite merge_sort_Permutation, list_elem_of_filter, list_elem_of_fmap.
  pose proof (split_units_unit chosen) as Hunit.
  split.
  - intros [Hdict (l & -> & Hl)]. split; [done|].
    apply getUniqPermutations_elem in Hl as (p & Hp & ->).
    assert (Hu : Forall unit_string (take i p)).
    { apply Forall_take. by rewrite Hp. }
    split.
    + rewrite length_join_units, length_take by done.
      rewrite Hp, length_split_units. lia.
    + exists (drop i p). by rewrite split_units_join, take_drop.
  - intros (Hdict & Hlen & rest & Hrest). split; [done|].
    exists (JS.split_units word). split; [by rewrite join_split_units|].
    assert (JS.split_units word = take i (JS.split_units word ++ rest)) as ->.
    { rewrite take_app_le by (rewrite length_split_units; lia).
      rewrite take_ge by (rewrite length_split_units; lia). done. }
    apply getUniqPermutations_complete; [done| |done].
    destruct chosen; done.
Qed.

Lemma word_group_NoDup dictionary chosen i :
  NoDup (word_group dictionary (JS.split_units chosen) i).
Proof.
  unfold word_group, js_sort. rewrite merge_sort_Permutation.
  apply NoDup_filter.
  pose proof (getUniqPermutations_unit _ i (split_units_unit chosen)) as Hu.
  rewrite Forall_forall in Hu.
  apply NoDup_fmap_2_strong.
  - intros l1 l2 H1 H2 E.
    rewrite <- (split_units_join l1), <- (split_units_join l2) by auto.
    by rewrite E.
  - apply getUniqPermutations_NoDup, split_units_unit.
Qed.

Lemma word_group_sorted dictionary baseWord i :
  StronglySorted String.le (word_group dictionary baseWord i).
Proof. apply StronglySorted_merge_sort; apply _. Qed.

Lemma fst_unclaimed (group : list string) :
  (map (fun b => (b, @None player)) group).*1 = group.
Proof. induction group as [|a group IH]; [done|]. cbn. f_equal. exact IH. Qed.

(** [createGame] returns as soon as there is a word of six units to pick. *)
Lemma random_below_lt sample n : 0 < n → random_below sample n < n.
Proof. destruct n; [lia|]. intros _. apply Nat.mod_upper_bound. lia. Qed.

Lemma createGame_returns dictionary pick draw w :
  possibilities dictionary ≠ [] ↔ is_Some (createGame dictionary pick draw w).
Proof.
  unfold createGame. fold (possibilities dictionary). split.
  - intros Hne.
    destruct (lookup_lt_is_Some_2 (possibilities dictionary)
                (random_below pick (length (possibilities dictionary))))
      as [chosen ->]; [|done].
    apply random_below_lt. destruct (possibilities dictionary); [done|simpl; lia].
  - destruct (possibilities dictionary); [|done].
    by intros [? ?].
Qed.

(** The ledger [createGame] assigns. *)
Lemma createGame_answers dictionary pick draw w w' :
  createGame dictionary pick draw w = Some w' →
  ∃ chosen,
    baseWord_of dictionary pick = Some (JS.split_units chosen)
    ∧ chosen ∈ map JS.toLowerCase dictionary
    ∧ String.length chosen = 6
    ∧ answers w'
      = map (map (fun b => (b, None)))
          (gamewords_of (map JS.toLowerCase dictionary) (JS.split_units chosen))
    ∧ onmessage w' = onmessage w ∧ lobby w' = lobby w.
Proof.
  unfold createGame, baseWord_of, possibilities.
  destruct (filter _ _ !! _) as [chosen|] eqn:Hpick; [|done].
  intros [= <-]. exists chosen.
  apply list_elem_of_lookup_2, list_elem_of_filter in Hpick as [Hlen Hin].
  by split_and!.
Qed.

Lemma unclaimed_elem (group : list string) word (claimant : option player) :
  (word, claimant) ∈ map (fun b => (b, None)) group
  ↔ claimant = None ∧ word ∈ group.
Proof.
  rewrite list_elem_of_fmap. split.
  - intros (b & [= -> ->] & Hb). done.
  - intros [-> Hw]. by exists word.
Qed.

(** The groups of a created game, one for each length from 3 to 6. *)
Lemma gamewords_of_lookup dictionary baseWord k (group : list entry) :
  map (map (fun b => (b, None))) (gamewords_of dictionary baseWord) !! k
  = Some group →
  k < 4 ∧ group = map (fun b => (b, None)) (word_group dictionary baseWord (3 + k)).
Proof.
  unfold gamewords_of. intros Hk.
  do 4 (destruct k as [|k]; [injection Hk as <-; split; [lia | reflexivity]|]).
  done.
Qed.

(** C1. For every dictionary with a word of six units and every base word
    [createGame] picks from it, the game is created and its ledger has one
    group for each length 3, 4, 5, 6; the words of a group are pairwise
    distinct and in ascending order, and each of them is a word of the
    lower-cased dictionary, has exactly the length of its group, and is formed
    from letters of the base word, none used more often than it occurs
    there. *)
Theorem createGame_word_groups dictionary pick draw w :
  possibilities dictionary ≠ [] →
  ∃ w' chosen,
    createGame dictionary pick draw w = Some w'
    ∧ baseWord_of dictionary pick = Some (JS.split_units chosen)
    ∧ chosen ∈ map JS.toLowerCase dictionary
    ∧ String.length chosen = 6
    ∧ length (answers w') = 4
    ∧ ∀ k group, answers w' !! k = Some group →
        NoDup group.*1
        ∧ StronglySorted String.le group.*1
        ∧ ∀ word, word ∈ group.*1 →
            word ∈ map JS.toLowerCase dictionary
            ∧ String.length word = 3 + k
            ∧ formable word chosen.
Proof.
  intros Hne.
  destruct (proj1 (createGame_returns dictionary pick draw w) Hne) as [w' Hw'].
  destruct (createGame_answers _ _ _ _ _ Hw')
    as (chosen & Hbase & Hin & Hlen & Hans & _).
  exists w', chosen. rewrite Hans. split_and!; [done..|].
  intros k group [Hk ->]%gamewords_of_lookup. rewrite fst_unclaimed.
  split; [apply word_group_NoDup|].
  split; [apply word_group_sorted|].
  intros word Hword. apply word_group_elem in Hword; [done| |lia].
  by destruct chosen.
Qed.

Lemma createGame_word_groups_witness :
  ∃ w' chosen,
    createGame garden_dictionary 0 (fun _ => 0) initial_world = Some w'
    ∧ baseWord_of garden_dictionary 0 = Some (JS.split_units chosen)
    ∧ chosen ∈ map JS.toLowerCase garden_dictionary
    ∧ String.length chosen = 6
    ∧ length (answers w') = 4
    ∧ ∀ k group, answers w' !! k = Some group →
        NoDup group.*1
        ∧ StronglySorted String.le group.*1
        ∧ ∀ word, word ∈ group.*1 →
            word ∈ map JS.toLowerCase garden_dictionary
            ∧ String.length word = 3 + k
            ∧ formable word chosen.
Proof.
  apply (createGame_word_groups garden_dictionary 0 (fun _ => 0) initial_world).
  vm_compute. discriminate.
Defined.

Example garden_game_created :
  createGame garden_dictionary 0 (fun _ => 0) initial_world = Some garden_game
  ∧ baseWord_of garden_dictionary 0 = Some (JS.split_units "garden").
Proof. vm_compute. done. Qed.

(** ** The ledger: checkWord and onWordGuess *)

Lemma checkWord_group_Some word group j j' b :
  checkWord_group word group j = Some (j', b)
  ↔ ∃ k, j' = j + k ∧ group !! k = Some (word, b)
         ∧ ∀ k' e, k' < k → group !! k' = Some e → e.1 ≠ word.
Proof.
  revert j. induction group as [|[a c] group IH]; intros j; simpl.
  - split; [done|]. by intros (k & _ & ? & _).
  - destruct (decide (a = word)) as [->|Hne].
    + split.
      * intros [= <- <-]. exists 0. split_and!; [lia | done | lia].
      * intros (k & -> & Hk & Hfirst). destruct k as [|k].
        { injection Hk as <-. do 2 f_equal. lia. }
        destruct (Hfirst 0 (word, c)); [lia | done | done].
    + rewrite IH. split.
      * intros (k & -> & Hk & Hfirst). exists (S k).
        split_and!; [lia | done |].
        intros [|k'] e ? He; [by injection He as <- | apply (Hfirst k'); [lia | done]].
      * intros (k & -> & Hk & Hfirst). destruct k as [|k].
        { by injection Hk as ->. }
        exists k. split_and!; [lia | done |].
        intros k' e ? He. apply (Hfirst (S k')); [lia | done].
Qed.

Lemma checkWord_group_None word group j :
  checkWord_group word group j = None ↔ ∀ e, e ∈ group → e.1 ≠ word.
Proof.
  revert j. induction group as [|[a c] group IH]; intros j; simpl.
  - split; [|done]. intros _ e He. inversion He.
  - destruct (decide (a = word)) as [->|Hne].
    + split; [done|]. intros H. destruct (H (word, c)); [left | done].
    + rewrite IH. split.
      * intros H e [->|He]%elem_of_cons; [done | by apply H].
      * intros H e He. apply H. by right.
Qed.

Lemma checkWord_from_Some word groups i a0 a1 b :
  checkWord_from word groups i = Some (a0, a1, b)
  ↔ ∃ k group, a0 = i + k ∧ groups !! k = Some group
       ∧ checkWord_group word group 0 = Some (a1, b)
       ∧ ∀ k' g, k' < k → groups !! k' = Some g →
           checkWord_group word g 0 = None.
Proof.
  revert i. induction groups as [|g0 groups IH]; intros i; simpl.
  - split; [done|]. by intros (k & g & _ & ? & _).
  - destruct (checkWord_group word g0 0) as [[j c]|] eqn:Hg0.
    + split.
      * intros [= <- <- <-]. exists 0, g0. split_and!; [lia | done | done | lia].
      * intros (k & g & -> & Hk & Hg & Hfirst). destruct k as [|k].
        { injection Hk as <-. rewrite Hg0 in Hg. injection Hg as <- <-.
          do 3 f_equal. lia. }
        rewrite (Hfirst 0 g0) in Hg0; [done | lia | done].
    + rewrite IH. split.
      * intros (k & g & -> & Hk & Hg & Hfirst). exists (S k), g.
        split_and!; [lia | done | done |].
        intros [|k'] g' ? Hg'; [by injection Hg' as <- |].
        apply (Hfirst k'); [lia | done].
      * intros (k & g & -> & Hk & Hg & Hfirst). destruct k as [|k].
        { injection Hk as <-. by rewrite Hg0 in Hg. }
        exists k, g. split_and!; [lia | done | done |].
        intros k' g' ? Hg'. apply (Hfirst (S k')); [lia | done].
Qed.

Lemma checkWord_from_None word groups i :
  checkWord_from word groups i = None
  ↔ ∀ g, g ∈ groups → checkWord_group word g 0 = None.
Proof.
  revert i. induction groups as [|g0 groups IH]; intros i; simpl.
  - split; [|done]. intros _ g Hg. inversion Hg.
  - destruct (checkWord_group word g0 0) as [[j c]|] eqn:Hg0.
    + split; [done|]. intros H. rewrite H in Hg0; [done | left].
    + rewrite IH. split.
      * intros H g [->|Hg]%elem_of_cons; [done | by apply H].
      * intros H g Hg. apply H. by right.
Qed.

(** Storing a claimant in the pair that was found does not move any word:
    the same pair is found again, now with that claimant. *)
Lemma checkWord_from_claim word p groups a0 a1 b :
  checkWord_from word groups 0 = Some (a0, a1, b) →
  checkWord_from word
    (alter (alter (fun e : entry => (e.1, Some p)) a1) a0 groups) 0
  = Some (a0, a1, Some p).
Proof.
  rewrite !checkWord_from_Some.
  intros (k & group & -> & Hk & Hg & Hfirst). simpl in *.
  exists k, (alter (fun e : entry => (e.1, Some p)) a1 group).
  split_and!; [done | by rewrite list_lookup_alter_eq, Hk | |].
  - apply checkWord_group_Some in Hg as (j & -> & Hj & Hjfirst). simpl in *.
    apply checkWord_group_Some. exists j.
    split_and!; [done | by rewrite list_lookup_alter_eq, Hj |].
    intros k' e Hlt. rewrite list_lookup_alter_ne by lia. by apply Hjfirst.
  - intros k' g Hlt. rewrite list_lookup_alter_ne by lia. by apply Hfirst.
Qed.

Lemma onWordGuess_unknown word who w :
  checkWord word w = None → onWordGuess word who w = w.
Proof. unfold onWordGuess. by intros ->. Qed.

Lemma onWordGuess_claimed word who w a0 a1 b :
  checkWord word w = Some (a0, a1, b) → claimed b = true →
  onWordGuess word who w = w.
Proof. unfold onWordGuess. by intros -> ->. Qed.

Lemma onWordGuess_reveals word who w a0 a1 b :
  checkWord word w = Some (a0, a1, b) → claimed b = false →
  onWordGuess word who w
  = let w' := revealed word who a0 a1 w in
    if gaveup w then w'
    else match who with
         | System => w'
         | Local => addScore (pointvalues (String.length word)) w'
         | Named name =>
             addPlayerScore (pointvalues (String.length word)) name
               (addScore (pointvalues (String.length word)) w')
         end.
Proof.
  unfold onWordGuess. intros -> ->. cbn [revealed set_answers call_ui gaveup].
  destruct (gaveup w); [done|]. by destruct who.
Qed.

(** C6 (as the code has it). [checkWord] compares with [===]: it returns the
    group index, the position and the claimant of the first pair, in group
    order, whose word is exactly the string asked for, and [null] exactly when
    no pair holds that very string.  Letter case is not folded. *)
Theorem checkWord_exact_match word w :
  (checkWord word w = None
   ↔ ∀ group e, group ∈ answers w → e ∈ group → e.1 ≠ word)
  ∧ ∀ a0 a1 b,
      checkWord word w = Some (a0, a1, b)
      ↔ ∃ group,
          answers w !! a0 = Some group
          ∧ group !! a1 = Some (word, b)
          ∧ (∀ j e, j < a1 → group !! j = Some e → e.1 ≠ word)
          ∧ ∀ i g e, i < a0 → answers w !! i = Some g → e ∈ g → e.1 ≠ word.
Proof.
  unfold checkWord. split.
  - rewrite checkWord_from_None. split.
    + intros H group e Hg. by apply (checkWord_group_None word group 0), H.
    + intros H g Hg. apply checkWord_group_None. intros e. by apply H.
  - intros a0 a1 b. rewrite checkWord_from_Some. split.
    + intros (k & group & -> & Hk & Hg & Hfirst). exists group.
      apply checkWord_group_Some in Hg as (j & -> & Hj & Hjfirst).
      split_and!; [done..|].
      intros i g e Hi Hg.
      by apply (checkWord_group_None word g 0), (Hfirst i).
    + intros (group & Hk & Hj & Hjfirst & Hfirst). exists a0, group.
      split_and!; [done..| |].
      * apply checkWord_group_Some. by exists a1.
      * intros i g Hi Hg. apply checkWord_group_None. intros e.
        by apply (Hfirst i).
Qed.

(** C6, the claim as stated fails: in the game built from the garden
    dictionary, "den" is found at group 0, position 0, and its upper-case
    variant is not found at all. *)
Lemma checkWord_case_variant_counterexample :
  JS.toLowerCase "DEN" = JS.toLowerCase "den"
  ∧ checkWord "den" garden_game = Some (0, 0, None)
  ∧ checkWord "DEN" garden_game = None
  ∧ ¬ (∀ w word word',
         JS.toLowerCase word = JS.toLowerCase word' →
         checkWord word w = checkWord word' w).
Proof.
  split_and!; [vm_compute; reflexivity..|].
  intros H. specialize (H garden_game "DEN" "den" eq_refl).
  vm_compute in H. discriminate.
Qed.

Lemma proto_in_object_prototype : "__proto__" ∈ object_prototype.
Proof. apply list_elem_of_In. simpl. tauto. Qed.

Lemma mp_scores_get_numeric name scores :
  numeric_entry name scores →
  mp_scores_get scores name = Primitive (default Undefined (scores !! name))
  ∧ ∀ v, mp_scores_put name v scores = <[ name := v ]> scores.
Proof.
  intros (Hname & Hstr).
  assert (name ≠ "__proto__") as Hproto.
  { intros ->. apply Hname, proto_in_object_prototype. }
  unfold mp_scores_get, mp_scores_put. split.
  - rewrite decide_False by done. destruct (scores !! name); [done|].
    by rewrite decide_False.
  - intros v. by rewrite decide_False.
Qed.

Lemma addPlayerScore_numeric pts name w :
  numeric_entry name (mp_scores w) →
  mp_scores (addPlayerScore (Num pts) name w)
  = <[ name := Num (individual_score name w + pts) ]> (mp_scores w).
Proof.
  intros Hentry.
  destruct (mp_scores_get_numeric _ _ Hentry) as (Hget & Hput).
  destruct Hentry as (_ & Hstr).
  unfold addPlayerScore, individual_score. rewrite Hget.
  destruct (mp_scores w !! name) as [[z| | |pieces]|] eqn:E;
    cbn [default from_option id property_truthy value_truthy property_add
         js_add].
  - destruct (Z.eqb_spec z 0) as [->|];
      cbn [negb mp_scores call_ui set_mp_scores]; by rewrite Hput.
  - cbn [mp_scores call_ui set_mp_scores]. by rewrite Hput.
  - cbn [mp_scores call_ui set_mp_scores]. by rewrite Hput.
  - by destruct (Hstr pieces).
  - cbn [mp_scores call_ui set_mp_scores]. by rewrite Hput.
Qed.

Lemma addPlayerScore_frame points name w :
  let w' := addPlayerScore points name w in
  answers w' = answers w ∧ score w' = score w ∧ gaveup w' = gaveup w
  ∧ avail_letters w' = avail_letters w ∧ input_box w' = input_box w
  ∧ avail_letters_neg1 w' = avail_letters_neg1 w
  ∧ playername w' = playername w ∧ onmessage w' = onmessage w
  ∧ lobby w' = lobby w ∧ players w' = players w ∧ sent w' = sent w.
Proof. unfold addPlayerScore. by destruct (property_truthy _). Qed.

(** C4. The claim fails in the code for a player whose name is a member of
    [Object.prototype].  In the garden game the first guess of ["den"] by the
    player named ["constructor"] reveals the word and adds 90 to the total
    score, but the player's own score does not grow by 90:
    [mp_scores["constructor"]] reads the built-in function, which is truthy,
    so [+=] stores the text of that function followed by ["90"], and this
    string is what [UI.setPlayerScore] is given.  Under the name
    ["__proto__"] nothing is stored at all. *)
Theorem onWordGuess_scoring_prototype_name :
  let w := garden_game in
  let w' := onWordGuess "den" (Named "constructor") w in
  (checkWord "den" w = Some (0, 0, None) ∧ gaveup w = false
   ∧ pointvalues (String.length "den") = Num 90)
  ∧ score w' = Num 90
  ∧ mp_scores w' !! "constructor"
    = Some (Str [text_of_member "constructor"; digits 90])
  ∧ individual_score "constructor" w'
    ≠ (individual_score "constructor" w + 90)%Z
  ∧ last (ui w')
    = Some (UI.setPlayerScore
              (Primitive (Str [text_of_member "constructor"; digits 90]))
              "constructor")
  ∧ mp_scores (onWordGuess "den" (Named "__proto__") w) = mp_scores w.
Proof. vm_compute. split_and!; done. Qed.

(** X28. Scoring of a revealed word for the names under which [mp_scores]
    works as a map of numbers.  When [onWordGuess] reveals a word that had no
    claimant and the game has not been given up, with [pts] the points for
    the length of the word (90, 160, 250, 360 for 3, 4, 5, 6): a guess
    credited to the system changes no score; any other guess adds [pts] to
    the total score; a guess by a named player, whose name is not a member of
    [Object.prototype] and holds no string, also adds [pts] to that player's
    own score and leaves the other players' scores alone; a guess by the
    local solo player leaves the per-player scores alone. *)
Theorem onWordGuess_scoring word who w a0 a1 b pts :
  checkWord word w = Some (a0, a1, b) →
  claimed b = false →
  gaveup w = false →
  pointvalues (String.length word) = Num pts →
  (∀ name, who = Named name → numeric_entry name (mp_scores w)) →
  let w' := onWordGuess word who w in
  (pointvalues 3 = Num 90 ∧ pointvalues 4 = Num 160
   ∧ pointvalues 5 = Num 250 ∧ pointvalues 6 = Num 360)
  ∧ match who with
    | System => score w' = score w ∧ mp_scores w' = mp_scores w
    | Local =>
        score w' = js_add (score w) (Num pts) ∧ mp_scores w' = mp_scores w
    | Named name =>
        score w' = js_add (score w) (Num pts)
        ∧ individual_score name w' = (individual_score name w + pts)%Z
        ∧ mp_scores w' !! name = Some (Num (individual_score name w + pts))
        ∧ ∀ other, other ≠ name → mp_scores w' !! other = mp_scores w !! other
    end.
Proof.
  intros Hfound Hb Hgave Hpts Hentry w'. split; [done|].
  subst w'. rewrite (onWordGuess_reveals _ _ _ _ _ _ Hfound Hb), Hgave, Hpts.
  destruct who as [| |name]; [by split..|].
  cbv zeta.
  assert (Hmp : mp_scores (addPlayerScore (Num pts) name
                             (addScore (Num pts) (revealed word (Named name) a0 a1 w)))
                = <[name := Num (individual_score name w + pts)]> (mp_scores w)).
  { by rewrite addPlayerScore_numeric by (by apply Hentry). }
  split_and!.
  - by pose proof (addPlayerScore_frame (Num pts) name
                     (addScore (Num pts) (revealed word (Named name) a0 a1 w)))
      as (_ & -> & _).
  - unfold individual_score at 1. by rewrite Hmp, lookup_insert_eq.
  - by rewrite Hmp, lookup_insert_eq.
  - intros other Hne. by rewrite Hmp, lookup_insert_ne.
Qed.

Lemma onWordGuess_scoring_witness :
  let w' := onWordGuess "den" (Named "alice") garden_game in
  (pointvalues 3 = Num 90 ∧ pointvalues 4 = Num 160
   ∧ pointvalues 5 = Num 250 ∧ pointvalues 6 = Num 360)
  ∧ score w' = js_add (score garden_game) (Num 90)
  ∧ individual_score "alice" w' = (individual_score "alice" garden_game + 90)%Z
  ∧ mp_scores w' !! "alice"
    = Some (Num (individual_score "alice" garden_game + 90))
  ∧ ∀ other, other ≠ "alice" →
      mp_scores w' !! other = mp_scores garden_game !! other.
Proof.
  apply (onWordGuess_scoring "den" (Named "alice") garden_game 0 0 None 90);
    try (vm_compute; reflexivity).
  intros name [= <-]. split.
  - intros Hin%list_elem_of_In. vm_compute in Hin. intuition discriminate.
  - intros pieces. vm_compute. discriminate.
Defined.

Example den_solo_scores_90 :
  score (onWordGuess "den" Local garden_game) = Num 90
  ∧ mp_scores (onWordGuess "den" Local garden_game) = ∅.
Proof. vm_compute. done. Qed.

Lemma onWordGuess_answers word who w a0 a1 b :
  checkWord word w = Some (a0, a1, b) → claimed b = false →
  answers (onWordGuess word who w)
  = alter (alter (fun e : entry => (e.1, Some who)) a1) a0 (answers w).
Proof.
  intros Hfound Hb. rewrite (onWordGuess_reveals _ _ _ _ _ _ Hfound Hb).
  cbv zeta. destruct (gaveup w); [done|].
  destruct who; [done..|]. unfold addPlayerScore.
  by destruct (property_truthy _).
Qed.

Lemma checkWord_found word w a0 a1 b :
  checkWord word w = Some (a0, a1, b) →
  ∃ group, answers w !! a0 = Some group ∧ group !! a1 = Some (word, b).
Proof.
  unfold checkWord. rewrite checkWord_from_Some.
  intros (k & group & -> & Hk & Hg & _).
  apply checkWord_group_Some in Hg as (j & -> & Hj & _). eauto.
Qed.

(** C5. The claim fails in the code when the first claimant is the empty
    name.  The message [":attempt den"], which carries no name, makes
    [onServerMsg] call [onWordGuess("den", "")]: the word is revealed and 90
    points are added, but the pair then holds the empty string, which
    [if (a[2])] reads as no claimant.  A second guess of the same word by the
    local player therefore replaces the claimant and is paid again: the pair
    holds the local player and the score is 180. *)
Theorem onWordGuess_empty_name_claimed_twice :
  let w1 := onServerMsg ":attempt den" garden_game in
  let w2 := onWordGuess "den" Local w1 in
  w1 = onWordGuess "den" (Named "") garden_game
  ∧ checkWord "den" garden_game = Some (0, 0, None)
  ∧ checkWord "den" w1 = Some (0, 0, Some (Named ""))
  ∧ score w1 = Num 90
  ∧ checkWord "den" w2 = Some (0, 0, Some Local)
  ∧ score w2 = Num 180.
Proof. vm_compute. split_and!; reflexivity. Qed.

(** X29. The first claim stands.  For every word and claimants [p1], [p2],
    where [p1] is the local player, the system, or a player with a name that
    is not the empty string: once [onWordGuess word p1] has revealed the
    word, the pair holds [p1], and [onWordGuess word p2] changes nothing at
    all, neither the claimant nor a score.  More generally a guess never
    changes a pair that already holds a claimant, and a guess of a word that
    is not in the ledger changes nothing. *)
Theorem onWordGuess_first_claim_stands :
  (∀ word p1 p2 w a0 a1 b,
     checkWord word w = Some (a0, a1, b) → claimed b = false →
     claimed (Some p1) = true →
     let w1 := onWordGuess word p1 w in
     checkWord word w1 = Some (a0, a1, Some p1)
     ∧ onWordGuess word p2 w1 = w1)
  ∧ (∀ word who w i j group e,
       answers w !! i = Some group → group !! j = Some e →
       claimed e.2 = true →
       ∃ group', answers (onWordGuess word who w) !! i = Some group'
                 ∧ group' !! j = Some e)
  ∧ (∀ word who w, checkWord word w = None → onWordGuess word who w = w).
Proof.
  split_and!.
  - intros word p1 p2 w a0 a1 b Hfound Hb Hp1 w1.
    assert (Hw1 : checkWord word w1 = Some (a0, a1, Some p1)).
    { unfold checkWord, w1. rewrite (onWordGuess_answers _ _ _ _ _ _ Hfound Hb).
      by apply checkWord_from_claim with b. }
    split; [done|]. by apply onWordGuess_claimed with a0 a1 (Some p1).
  - intros word who w i j group e Hi Hj He.
    destruct (checkWord word w) as [[[a0 a1] b]|] eqn:Hfound.
    2: { rewrite onWordGuess_unknown by done. eauto. }
    destruct (claimed b) eqn:Hb.
    { rewrite (onWordGuess_claimed _ _ _ _ _ _ Hfound Hb). eauto. }
    rewrite (onWordGuess_answers _ _ _ _ _ _ Hfound Hb).
    destruct (decide (a0 = i)) as [->|Hne].
    2: { exists group. by rewrite list_lookup_alter_ne. }
    rewrite list_lookup_alter_eq, Hi. simpl. eexists. split; [done|].
    destruct (decide (a1 = j)) as [->|Hne].
    2: { by rewrite list_lookup_alter_ne. }
    (* the pair found by checkWord holds no claimant, [e] does *)
    apply checkWord_found in Hfound as (g & Hg & Hgj).
    rewrite Hi in Hg. injection Hg as <-. rewrite Hj in Hgj.
    injection Hgj as ->. simpl in He. congruence.
  - intros. by apply onWordGuess_unknown.
Qed.

Lemma onWordGuess_first_claim_stands_witness :
  let w1 := onWordGuess "den" (Named "alice") garden_game in
  checkWord "den" w1 = Some (0, 0, Some (Named "alice"))
  ∧ onWordGuess "den" Local w1 = w1.
Proof.
  apply (proj1 onWordGuess_first_claim_stands
           "den" (Named "alice") Local garden_game 0 0 None);
    vm_compute; reflexivity.
Defined.

(** The empty string stored in a pair reads as [false], so the pair still
    counts as holding no claimant. *)
Remark empty_name_is_no_claimant :
  let w1 := onWordGuess "den" (Named "") garden_game in
  checkWord "den" w1 = Some (0, 0, Some (Named ""))
  ∧ claimed (Some (Named "")) = false
  ∧ checkWord "den" (onWordGuess "den" Local w1) = Some (0, 0, Some Local).
Proof. vm_compute. done. Qed.

(** ** Giving up *)

Lemma fold_call_ui calls w :
  fold_left (fun w c => call_ui c w) calls w
  = World (answers w) (avail_letters w) (avail_letters_neg1 w) (input_box w)
      (gaveup w) (score w) (mp_scores w) (onmessage w) (playername w)
      (lobby w) (players w) (ui w ++ calls) (sent w).
Proof.
  revert w. induction calls as [|c calls IH]; intros w; simpl.
  - rewrite app_nil_r. by destruct w.
  - rewrite IH. simpl. by rewrite <- app_assoc.
Qed.

Lemma reveal_calls_elem groups a0 a1 group (e : entry) :
  groups !! a0 = Some group → group !! a1 = Some e →
  UI.revealWord e.1 a0 a1 System ∈ reveal_calls groups.
Proof.
  intros H0 H1. unfold reveal_calls.
  apply list_elem_of_In, in_concat.
  exists (imap (fun j (e : entry) => UI.revealWord e.1 a0 j System) group).
  split; apply list_elem_of_In.
  - apply elem_of_lookup_imap. exists a0, group. eauto.
  - apply elem_of_lookup_imap. eauto.
Qed.

(** What each call leaves alone. *)
Lemma backspaceChar_keeps index w :
  let w' := (backspaceChar index w).2 in
  gaveup w' = gaveup w ∧ score w' = score w ∧ mp_scores w' = mp_scores w
  ∧ answers w' = answers w ∧ playername w' = playername w
  ∧ onmessage w' = onmessage w.
Proof.
  unfold backspaceChar.
  destruct (_ && _); [|done].
  destruct (last _); [|done]. cbn.
  by destruct (lastIndexOf _ _).
Qed.

Lemma enterChar_keeps index w :
  let w' := (enterChar index w).2 in
  gaveup w' = gaveup w ∧ score w' = score w ∧ mp_scores w' = mp_scores w
  ∧ answers w' = answers w ∧ playername w' = playername w
  ∧ onmessage w' = onmessage w.
Proof.
  unfold enterChar.
  destruct (avail_at _ _) as [c|]; [|done].
  destruct (JS.truthy c); [|done]. cbn.
  by destruct (index =? -1)%Z.
Qed.

Lemma onWordGuess_keeps word who w :
  let w' := onWordGuess word who w in
  gaveup w' = gaveup w ∧ playername w' = playername w
  ∧ onmessage w' = onmessage w
  ∧ avail_letters w' = avail_letters w ∧ input_box w' = input_box w
  ∧ avail_letters_neg1 w' = avail_letters_neg1 w
  ∧ (gaveup w = true → score w' = score w ∧ mp_scores w' = mp_scores w).
Proof.
  destruct (checkWord word w) as [[[a0 a1] b]|] eqn:Hfound.
  2: { by rewrite onWordGuess_unknown. }
  destruct (claimed b) eqn:Hb.
  { by rewrite (onWordGuess_claimed _ _ _ _ _ _ Hfound Hb). }
  rewrite (onWordGuess_reveals _ _ _ _ _ _ Hfound Hb). cbv zeta.
  destruct (gaveup w) eqn:Hg; [done|].
  destruct who; [done..|].
  unfold addPlayerScore. by destruct (property_truthy _).
Qed.

Lemma backspace_while_keeps n w :
  let w' := backspace_while n w in
  gaveup w' = gaveup w ∧ score w' = score w ∧ mp_scores w' = mp_scores w
  ∧ answers w' = answers w ∧ playername w' = playername w
  ∧ onmessage w' = onmessage w.
Proof.
  revert w. induction n as [|n IH]; intros w; [done|]. simpl.
  pose proof (backspaceChar_keeps None w) as Hb.
  destruct (backspaceChar None w) as [[] w1]; simpl in Hb; [|done].
  specialize (IH w1). simpl in IH.
  destruct IH as (-> & -> & -> & -> & -> & ->). exact Hb.
Qed.

Lemma giveUp_keeps on w :
  let w' := giveUp on w in
  score w' = score w ∧ mp_scores w' = mp_scores w ∧ answers w' = answers w
  ∧ (gaveup w = true → gaveup w' = true).
Proof.
  unfold giveUp, getPlayername, voteGiveUp, revealAll.
  destruct (playername w), on; cbn; rewrite ?fold_call_ui; cbn;
    try destruct (has_sock w); done.
Qed.

Lemma submitWord_keeps w :
  let w' := submitWord w in
  gaveup w' = gaveup w
  ∧ (gaveup w = true → score w' = score w ∧ mp_scores w' = mp_scores w).
Proof.
  unfold submitWord. cbv zeta.
  set (word := JS.join "" (input_box w)).
  set (who := match getPlayername w with
              | Some name => if JS.truthy name then Named name else Local
              | None => Local
              end).
  pose proof (onWordGuess_keeps word who w) as (Hg & _ & _ & _ & _ & _ & Hs).
  set (w1 := onWordGuess word who w) in *.
  assert (Ha : gaveup (announceWordGuess word w1) = gaveup w1
               ∧ score (announceWordGuess word w1) = score w1
               ∧ mp_scores (announceWordGuess word w1) = mp_scores w1).
  { unfold announceWordGuess. by destruct (_ && _). }
  set (w2 := announceWordGuess word w1) in *.
  pose proof (backspace_while_keeps (S (length (input_box w2))) w2)
    as (-> & -> & -> & _).
  destruct Ha as (-> & -> & ->). split; [done|]. exact Hs.
Qed.

Lemma perform_keeps_gaveup w a :
  gaveup w = true →
  gaveup (perform w a) = true
  ∧ score (perform w a) = score w
  ∧ mp_scores (perform w a) = mp_scores w.
Proof.
  intros Hg. destruct a as [word who|index|index| |on|draw]; simpl.
  - pose proof (onWordGuess_keeps word who w) as (-> & _ & _ & _ & _ & _ & Hs).
    split; [done|]. by apply Hs.
  - by pose proof (enterChar_keeps index w) as (-> & -> & -> & _).
  - by pose proof (backspaceChar_keeps index w) as (-> & -> & -> & _).
  - pose proof (submitWord_keeps w) as (-> & Hs). split; [done|]. by apply Hs.
  - pose proof (giveUp_keeps on w) as (-> & -> & _ & H). split; [by apply H | done].
  - done.
Qed.

Lemma perform_all_keeps_gaveup actions w :
  gaveup w = true →
  gaveup (perform_all w actions) = true
  ∧ score (perform_all w actions) = score w
  ∧ mp_scores (perform_all w actions) = mp_scores w.
Proof.
  revert w. induction actions as [|a actions IH]; intros w Hg; [done|].
  simpl. destruct (perform_keeps_gaveup w a Hg) as (Hg' & <- & <-).
  by apply IH.
Qed.

(** C3 (as the code has it). [giveUp(true)], called while no multiplayer
    name is set, calls [UI.revealWord] with the system claimant for every
    pair of the ledger, whether it holds a claimant or not, and sets
    [gaveup]; the ledger itself is left as it was, so a pair that held no
    claimant still holds none.  The scores are unchanged by the call, and no
    call made afterwards in the session changes them. *)
Theorem giveUp_local w :
  getPlayername w = None →
  let w' := giveUp true w in
  answers w' = answers w
  ∧ ui w' = ui w ++ UI.show_mp_menu (-1) :: reveal_calls (answers w)
  ∧ (∀ a0 a1 group (e : entry),
       answers w !! a0 = Some group → group !! a1 = Some e →
       UI.revealWord e.1 a0 a1 System ∈ ui w')
  ∧ score w' = score w
  ∧ mp_scores w' = mp_scores w
  ∧ gaveup w' = true
  ∧ ∀ actions,
      gaveup (perform_all w' actions) = true
      ∧ score (perform_all w' actions) = score w
      ∧ mp_scores (perform_all w' actions) = mp_scores w.
Proof.
  intros Hname w'. unfold getPlayername in Hname.
  assert (Hw' : w' = set_gaveup true
                       (revealAll (call_ui (UI.show_mp_menu (-1)) w))).
  { unfold w', giveUp, getPlayername. by rewrite Hname. }
  assert (Hui : ui w' = ui w ++ UI.show_mp_menu (-1) :: reveal_calls (answers w)).
  { rewrite Hw'. unfold revealAll. rewrite fold_call_ui. cbn.
    by rewrite <- app_assoc. }
  assert (Hrest : answers w' = answers w ∧ score w' = score w
                  ∧ mp_scores w' = mp_scores w ∧ gaveup w' = true).
  { rewrite Hw'. unfold revealAll. rewrite fold_call_ui. done. }
  destruct Hrest as (Ha & Hs & Hm & Hg).
  split_and!; [done | done | | done | done | done |].
  - intros a0 a1 group e H0 H1. rewrite Hui.
    apply elem_of_app. right. right. by apply reveal_calls_elem with group.
  - intros actions. rewrite <- Hs, <- Hm. by apply perform_all_keeps_gaveup.
Qed.

Lemma giveUp_local_witness :
  let w' := giveUp true garden_game in
  answers w' = answers garden_game
  ∧ ui w' = ui garden_game
            ++ UI.show_mp_menu (-1) :: reveal_calls (answers garden_game)
  ∧ (∀ a0 a1 group (e : entry),
       answers garden_game !! a0 = Some group → group !! a1 = Some e →
       UI.revealWord e.1 a0 a1 System ∈ ui w')
  ∧ score w' = score garden_game
  ∧ mp_scores w' = mp_scores garden_game
  ∧ gaveup w' = true
  ∧ ∀ actions,
      gaveup (perform_all w' actions) = true
      ∧ score (perform_all w' actions) = score garden_game
      ∧ mp_scores (perform_all w' actions) = mp_scores garden_game.
Proof. apply (giveUp_local garden_game). reflexivity. Defined.

(** C3, the claim as stated fails: "den" holds no claimant in the garden
    game, and still holds none after the local give-up; a later guess by the
    local player is then recorded in the pair. *)
Lemma giveUp_ledger_counterexample :
  getPlayername garden_game = None
  ∧ checkWord "den" garden_game = Some (0, 0, None)
  ∧ checkWord "den" (giveUp true garden_game) = Some (0, 0, None)
  ∧ checkWord "den" (giveUp true garden_game) ≠ Some (0, 0, Some System)
  ∧ checkWord "den" (onWordGuess "den" Local (giveUp true garden_game))
    = Some (0, 0, Some Local).
Proof. vm_compute. split_and!; done. Qed.

(** ** The letter pool and the input box *)

Lemma lastIndexOf_None x a : lastIndexOf x a = None ↔ x ∉ a.
Proof.
  induction a as [|y a IH]; simpl.
  - split; [|done]. intros _ H. inversion H.
  - destruct (lastIndexOf x a) eqn:E.
    + split; [done|]. intros Hn.
      assert (Ha : x ∉ a) by (intros ?; apply Hn; by right).
      by apply IH in Ha.
    + destruct (decide (y = x)) as [->|Hne].
      * split; [done|]. intros Hn. destruct Hn. left.
      * split; [|done]. intros _ [->|Hin]%elem_of_cons; [done|].
        by apply (proj1 IH).
Qed.

Lemma lastIndexOf_Some x a k :
  lastIndexOf x a = Some k
  ↔ a !! k = Some x ∧ ∀ k', k < k' → a !! k' ≠ Some x.
Proof.
  revert k. induction a as [|y a IH]; intros k; simpl.
  - split; [done | by intros [? _]].
  - destruct (lastIndexOf x a) as [k0|] eqn:Hlast.
    + pose proof (proj1 (IH k0) eq_refl) as [Hk0 Hlater].
      split.
      * intros [= <-]. split; [done|].
        intros [|k'] ?; [lia|]. simpl. apply Hlater. lia.
      * intros [Hk Hnone]. f_equal.
        destruct (Nat.lt_trichotomy k (S k0)) as [Hlt|[->|Hgt]]; [|done|].
        -- destruct (Hnone (S k0)); [lia | done].
        -- destruct k as [|k]; [lia|]. simpl in Hk.
           destruct (Hlater k); [lia | done].
    + assert (Hnone : ∀ k', a !! k' ≠ Some x).
      { intros k' Hk'. apply lastIndexOf_None in Hlast.
        by apply Hlast, list_elem_of_lookup_2 with k'. }
      destruct (decide (y = x)) as [->|Hne].
      * split.
        -- intros [= <-]. split; [done|]. intros [|k'] ?; [lia | apply Hnone].
        -- intros [Hk _]. destruct k as [|k]; [done|]. by destruct (Hnone k).
      * split; [done|]. intros [Hk _].
        destruct k as [|k]; [simpl in Hk; congruence | by destruct (Hnone k)].
Qed.

(** Writing [x] over the slot that held [old] changes the number of occupied
    slots accordingly. *)
Lemma occupied_insert slots i x old :
  slots !! i = Some old →
  occupied (<[ i := x ]> slots) + (if JS.truthy old then 1 else 0)
  = occupied slots + (if JS.truthy x then 1 else 0).
Proof.
  unfold occupied. revert i.
  induction slots as [|y slots IH]; intros i Hi; [done|].
  destruct i as [|i]; simpl in Hi.
  - injection Hi as ->. simpl. rewrite !filter_cons.
    destruct (JS.truthy old), (JS.truthy x); simpl; repeat case_decide; simpl;
      try done; lia.
  - specialize (IH i Hi). simpl. rewrite !filter_cons.
    case_decide; simpl; lia.
Qed.

Lemma occupied_le slots : occupied slots ≤ length slots.
Proof. unfold occupied. apply length_filter. Qed.

(** When every slot is occupied, none is the empty string, and conversely. *)
Lemma occupied_all slots :
  occupied slots = length slots ↔ "" ∉ slots.
Proof.
  unfold occupied. induction slots as [|y slots IH]; simpl.
  - split; [|done]. intros _ H. inversion H.
  - rewrite filter_cons. pose proof (length_filter (fun c => JS.truthy c = true) slots).
    case_decide as Hy; simpl.
    + split.
      * intros Hlen [<-|Hin]%elem_of_cons; [done|].
        apply IH in Hin; [done | lia].
      * intros Hn. f_equal. apply IH. intros ?. apply Hn. by right.
    + split; [lia|]. intros Hn. destruct Hn. destruct y; [left | done].
Qed.

Lemma occupied_units slots :
  Forall unit_string slots → occupied slots = length slots.
Proof.
  intros Hu. apply occupied_all. intros Hin.
  rewrite Forall_forall in Hu. by specialize (Hu _ Hin).
Qed.

(** The shuffle rearranges the array. *)
Lemma insert_head_Permutation {A} (l : list A) j a y :
  l !! j = Some y → y :: <[ j := a ]> l ≡ₚ a :: l.
Proof.
  revert j. induction l as [|b l IH]; intros j Hj; [done|].
  destruct j as [|j]; simpl in *.
  - injection Hj as ->. apply perm_swap.
  - rewrite perm_swap, (IH j Hj). apply perm_swap.
Qed.

Lemma swap_at_Permutation {A} i j (array : list A) :
  swap_at i j array ≡ₚ array.
Proof.
  unfold swap_at.
  destruct (array !! i) as [x|] eqn:Hi; [|done].
  destruct (array !! j) as [y|] eqn:Hj; [|done].
  revert i j Hi Hj. induction array as [|a array IH]; intros i j Hi Hj; [done|].
  destruct i as [|i], j as [|j]; simpl in *.
  - by simplify_eq.
  - injection Hi as ->. by apply insert_head_Permutation.
  - injection Hj as ->. by apply insert_head_Permutation.
  - by rewrite IH.
Qed.

Lemma shuffle_Permutation {A} draw (array : list A) :
  shuffle draw array ≡ₚ array.
Proof.
  unfold shuffle. generalize (length array - 1). intros i. revert array.
  induction i as [|i IH]; intros array; [done|].
  simpl. by rewrite IH, swap_at_Permutation.
Qed.

Lemma occupied_Permutation slots slots' :
  slots ≡ₚ slots' → occupied slots = occupied slots'.
Proof. unfold occupied. by intros ->. Qed.

(** The guard of [backspaceChar]. *)
Lemma backspaceChar_guard index (box : list string) :
  (0 <? length box)
  && match index with
     | None => true
     | Some k => (Z.of_nat (length box) =? k + 1)%Z
     end = true
  ↔ box ≠ []
    ∧ (index = None ∨ index = Some (Z.of_nat (length box) - 1)%Z).
Proof.
  rewrite andb_true_iff, Nat.ltb_lt. split.
  - intros [Hlen Hidx]. split; [by destruct box; [simpl in Hlen; lia|]|].
    destruct index as [k|]; [right | by left].
    apply Z.eqb_eq in Hidx. f_equal. lia.
  - intros [Hne Hidx]. split; [destruct box; [done | simpl; lia]|].
    destruct Hidx as [-> | ->]; [done|]. apply Z.eqb_eq. lia.
Qed.

Lemma backspaceChar_fails index w :
  ¬ (input_box w ≠ []
     ∧ (index = None
        ∨ index = Some (Z.of_nat (length (input_box w)) - 1)%Z)) →
  backspaceChar index w = (false, w).
Proof.
  intros Hno. unfold backspaceChar.
  destruct (_ && _) eqn:Hguard; [|done].
  by apply backspaceChar_guard in Hguard.
Qed.

Lemma backspaceChar_succeeds index w :
  input_box w ≠ [] →
  index = None ∨ index = Some (Z.of_nat (length (input_box w)) - 1)%Z →
  ∃ c, input_box w = removelast (input_box w) ++ [c]
       ∧ backspaceChar index w
         = (true,
            call_ui (UI.addToChoices c)
              (match lastIndexOf "" (avail_letters w) with
               | Some k =>
                   set_avail_letters (<[ k := c ]> (avail_letters w))
               | None => set_avail_letters_neg1 (Some c)
               end (call_ui UI.backspaceChar
                      (set_input_box (removelast (input_box w)) w)))).
Proof.
  intros Hne Hidx. unfold backspaceChar.
  rewrite (proj2 (backspaceChar_guard index (input_box w))) by done.
  destruct (last (input_box w)) as [c|] eqn:Hlast.
  2: { by apply last_None in Hlast. }
  exists c. split.
  - apply last_Some in Hlast as [l' Hl']. rewrite Hl' at 1.
    by rewrite Hl', removelast_last.
  - cbn. by destruct (lastIndexOf _ _).
Qed.

(** C7 (as the code has it). [backspaceChar(index)] returns [true] exactly
    when [input_box] is not empty and [index] is omitted or is the position
    of its last letter.  It then removes that last letter from [input_box]
    and writes it into the empty slot of [avail_letters] with the highest
    index ([lastIndexOf("")]).  Otherwise it returns [false] and changes
    nothing. *)
Theorem backspaceChar_tail_only index w :
  let ok := input_box w ≠ []
            ∧ (index = None
               ∨ index = Some (Z.of_nat (length (input_box w)) - 1)%Z) in
  let w' := (backspaceChar index w).2 in
  ((backspaceChar index w).1 = true ↔ ok)
  ∧ (ok →
     ∃ c, input_box w = input_box w' ++ [c]
          ∧ input_box w' = removelast (input_box w)
          ∧ ∀ k, avail_letters w !! k = Some "" →
                 (∀ k', k < k' → avail_letters w !! k' ≠ Some "") →
                 avail_letters w' = <[ k := c ]> (avail_letters w))
  ∧ (¬ ok → backspaceChar index w = (false, w)).
Proof.
  intros ok w'. split_and!.
  - split.
    + intros Hr. destruct (decide ok) as [|Hno]; [done|].
      apply backspaceChar_fails in Hno. by rewrite Hno in Hr.
    + intros [Hne Hidx].
      destruct (backspaceChar_succeeds index w Hne Hidx) as (c & _ & ->). done.
  - intros [Hne Hidx].
    destruct (backspaceChar_succeeds index w Hne Hidx) as (c & Hbox & Hw').
    exists c. subst w'. rewrite Hw'. cbn [snd].
    split_and!.
    + destruct (lastIndexOf _ _); exact Hbox.
    + by destruct (lastIndexOf _ _).
    + intros k Hk Hlater.
      rewrite (proj2 (lastIndexOf_Some "" (avail_letters w) k)); done.
  - apply backspaceChar_fails.
Qed.

Lemma backspaceChar_tail_only_witness :
  let w := garden_two_entered in
  let w' := (backspaceChar (Some 1%Z) w).2 in
  ∃ c, input_box w = input_box w' ++ [c]
       ∧ input_box w' = removelast (input_box w)
       ∧ ∀ k, avail_letters w !! k = Some "" →
              (∀ k', k < k' → avail_letters w !! k' ≠ Some "") →
              avail_letters w' = <[ k := c ]> (avail_letters w).
Proof.
  apply (proj1 (proj2 (backspaceChar_tail_only (Some 1%Z) garden_two_entered))).
  split; [vm_compute; discriminate | right; vm_compute; reflexivity].
Defined.

(** C7, the claim as stated fails: with slots 0 and 1 empty, the letter
    taken back goes to slot 1, and slot 0, the empty slot with the lowest
    index, stays empty. *)
Lemma backspaceChar_lowest_slot_counterexample :
  let w := garden_two_entered in
  let w' := (backspaceChar None w).2 in
  input_box w = ["a"; "r"]
  ∧ avail_letters w = [""; ""; "d"; "e"; "n"; "g"]
  ∧ indexOf "" (avail_letters w) = Some 0
  ∧ (backspaceChar None w).1 = true
  ∧ input_box w' = ["a"]
  ∧ avail_letters w' = [""; "r"; "d"; "e"; "n"; "g"]
  ∧ avail_letters w' ≠ <[ 0 := "r" ]> (avail_letters w).
Proof. vm_compute. split_and!; done. Qed.

(** [enterChar] and [backspaceChar] move one letter between the pool and the
    input box. *)
Lemma enterChar_pool n index w :
  pool_invariant n w → pool_invariant n (enterChar index w).2.
Proof.
  intros (Hlen & Hsum & Hbox & Hneg). unfold enterChar, avail_at.
  rewrite Hneg.
  destruct (index =? -1)%Z eqn:Hm1; [done|].
  destruct (index <? 0)%Z; [done|].
  destruct (avail_letters w !! Z.to_nat index) as [c|] eqn:Hc; [|done].
  destruct (JS.truthy c) eqn:Htruthy; [|done].
  cbn. unfold pool_invariant. cbn.
  pose proof (occupied_insert _ _ "" _ Hc) as Hocc.
  rewrite Htruthy in Hocc. simpl in Hocc.
  split_and!.
  - by rewrite length_insert.
  - rewrite length_app. simpl. unfold occupied in *. lia.
  - apply Forall_app. split; [done|]. by constructor.
  - done.
Qed.

Lemma backspaceChar_pool n index w :
  pool_invariant n w → pool_invariant n (backspaceChar index w).2.
Proof.
  intros Hinv.
  destruct (decide (input_box w ≠ []
                    ∧ (index = None
                       ∨ index = Some (Z.of_nat (length (input_box w)) - 1)%Z)))
    as [[Hne Hidx]|Hno].
  2: { by rewrite backspaceChar_fails. }
  destruct (backspaceChar_succeeds index w Hne Hidx) as (c & Hbox & ->).
  destruct Hinv as (Hlen & Hsum & Hall & Hneg).
  assert (Hc : JS.truthy c = true).
  { rewrite Hbox in Hall. apply Forall_app in Hall as [_ Hc].
    by inversion Hc. }
  assert (Hrest : Forall (fun c => JS.truthy c = true) (removelast (input_box w))).
  { rewrite Hbox in Hall. by apply Forall_app in Hall as [? _]. }
  assert (Hboxlen : length (input_box w) = S (length (removelast (input_box w)))).
  { rewrite Hbox at 1. rewrite length_app. simpl. lia. }
  destruct (lastIndexOf "" (avail_letters w)) as [k|] eqn:Hlast.
  - apply lastIndexOf_Some in Hlast as [Hk _].
    pose proof (occupied_insert _ _ c _ Hk) as Hocc.
    rewrite Hc in Hocc. simpl in Hocc.
    unfold pool_invariant. cbn.
    split_and!; [by rewrite length_insert | unfold occupied in *; lia | done | done].
  - apply lastIndexOf_None, occupied_all in Hlast. lia.
Qed.

Lemma backspace_while_pool n k w :
  pool_invariant n w → pool_invariant n (backspace_while k w).
Proof.
  revert w. induction k as [|k IH]; intros w Hinv; [done|]. simpl.
  pose proof (backspaceChar_pool n None w Hinv) as Hb.
  destruct (backspaceChar None w) as [[] w1]; simpl in Hb; [by apply IH | done].
Qed.

(** The loop of [submitWord] stops on a failing call, with the input box
    empty. *)
Lemma backspace_while_empties k w :
  length (input_box w) < k → input_box (backspace_while k w) = [].
Proof.
  revert w. induction k as [|k IH]; intros w Hk; [lia|]. simpl.
  destruct (decide (input_box w = [])) as [Hempty|Hne].
  - rewrite backspaceChar_fails by (by intros [? _]). done.
  - destruct (backspaceChar_succeeds None w Hne) as (c & Hbox & ->); [by left|].
    apply IH. rewrite Hbox in Hk. rewrite length_app in Hk. simpl in Hk.
    destruct (lastIndexOf _ _); cbn; lia.
Qed.

(** More calls than that are never made: the bound on the loop is not
    felt. *)
Lemma backspace_while_bound k w :
  length (input_box w) < k → backspace_while (S k) w = backspace_while k w.
Proof.
  revert w. induction k as [|k IH]; intros w Hk; [lia|].
  change (backspace_while (S (S k)) w)
    with (let '(more, w') := backspaceChar None w in
          if more then backspace_while (S k) w' else w').
  change (backspace_while (S k) w)
    with (let '(more, w') := backspaceChar None w in
          if more then backspace_while k w' else w').
  destruct (decide (input_box w = [])) as [Hempty|Hne].
  - rewrite backspaceChar_fails by (by intros [? _]). done.
  - destruct (backspaceChar_succeeds None w Hne) as (c & Hbox & ->); [by left|].
    apply IH. rewrite Hbox in Hk. rewrite length_app in Hk. simpl in Hk.
    destruct (lastIndexOf _ _); cbn; lia.
Qed.

Lemma perform_pool n w a :
  pool_invariant n w → pool_invariant n (perform w a).
Proof.
  intros Hinv. destruct a as [word who|index|index| |on|draw]; simpl.
  - pose proof (onWordGuess_keeps word who w) as (_ & _ & _ & Ha & Hb & Hn & _).
    unfold pool_invariant. by rewrite Ha, Hb, Hn.
  - by apply enterChar_pool.
  - by apply backspaceChar_pool.
  - unfold submitWord. cbv zeta. apply backspace_while_pool.
    match goal with |- context [onWordGuess ?word ?who w] =>
      pose proof (onWordGuess_keeps word who w) as (_ & _ & _ & Ha & Hb & Hn & _);
      set (w1 := onWordGuess word who w) in *
    end.
    unfold announceWordGuess, pool_invariant.
    destruct (_ && _); cbn; by rewrite Ha, Hb, Hn.
  - unfold giveUp, getPlayername, voteGiveUp, revealAll.
    destruct (playername w), on; cbn; rewrite ?fold_call_ui;
      try destruct (has_sock w); done.
  - destruct Hinv as (Hlen & Hsum & Hall & Hneg).
    unfold shuffleLetters, pool_invariant. cbn -[shuffle].
    pose proof (shuffle_Permutation draw (avail_letters w)) as Hperm.
    rewrite (occupied_Permutation _ _ Hperm), Hperm. done.
Qed.

Lemma perform_all_pool n actions w :
  pool_invariant n w → pool_invariant n (perform_all w actions).
Proof.
  revert w. induction actions as [|a actions IH]; intros w Hinv; [done|].
  simpl. by apply IH, perform_pool.
Qed.

Lemma createGame_pool dictionary pick draw w0 w baseWord :
  createGame dictionary pick draw w0 = Some w →
  baseWord_of dictionary pick = Some baseWord →
  length baseWord = 6 ∧ pool_invariant (length baseWord) w.
Proof.
  unfold createGame, baseWord_of, possibilities.
  destruct (filter _ _ !! _) as [chosen|] eqn:Hpick; [|done].
  intros [= <-] [= <-].
  apply list_elem_of_lookup_2, list_elem_of_filter in Hpick as [Hlen _].
  rewrite length_split_units. split; [done|].
  unfold pool_invariant. cbn -[shuffle].
  pose proof (shuffle_Permutation draw (JS.split_units chosen)) as Hperm.
  rewrite (occupied_Permutation _ _ Hperm), Hperm.
  rewrite occupied_units by apply split_units_unit.
  by rewrite length_split_units.
Qed.

(** C8. From a game just created by [createGame], after any sequence of
    calls to [enterChar] and [backspaceChar] (with any arguments, succeeding
    or not; calls to [onWordGuess], [submitWord], [giveUp] and
    [shuffleLetters] may be mixed in), the letters of [input_box] and the
    occupied slots of [avail_letters] number as many as the letters of the
    base word together. *)
Theorem pool_and_input_box_balance dictionary pick draw w0 w baseWord actions :
  createGame dictionary pick draw w0 = Some w →
  baseWord_of dictionary pick = Some baseWord →
  length (input_box (perform_all w actions))
  + occupied (avail_letters (perform_all w actions))
  = length baseWord.
Proof.
  intros Hgame Hbase.
  destruct (createGame_pool _ _ _ _ _ _ Hgame Hbase) as [_ Hinv].
  by destruct (perform_all_pool _ actions _ Hinv) as (_ & ? & _).
Qed.

Lemma pool_and_input_box_balance_witness :
  let actions := [Enter 0; Enter 5; Enter 0; Backspace (Some 0%Z);
                  Backspace None; Enter 9; Backspace (Some 0%Z)] in
  length (input_box (perform_all garden_game actions))
  + occupied (avail_letters (perform_all garden_game actions))
  = length (JS.split_units "garden").
Proof.
  apply (pool_and_input_box_balance garden_dictionary 0 (fun _ => 0)
           initial_world garden_game);
    vm_compute; reflexivity.
Defined.

(** ** The joiner's handshake *)

Lemma endsWith_underscore_drop_last n :
  JS.endsWith_underscore n = true → n = JS.drop_last n +:+ "_".
Proof.
  induction n as [|c n IH]; [done|]. simpl.
  destruct n as [|c' n'].
  - intros ->%Ascii.eqb_eq. done.
  - intros H.
    change (String c (String c' n')
            = String c (JS.drop_last (String c' n') +:+ "_")).
    f_equal. by apply IH.
Qed.

(** Joins and quits neither read nor write which handler is installed. *)
Lemma onPlayerJoin_set_onmessage h name w :
  onPlayerJoin name (set_onmessage h w) = set_onmessage h (onPlayerJoin name w).
Proof.
  unfold onPlayerJoin, cb_onPlayerJoin, getPlayername. cbn.
  by case_decide.
Qed.

Lemma onPlayerQuit_set_onmessage h name w :
  onPlayerQuit name (set_onmessage h w) = set_onmessage h (onPlayerQuit name w).
Proof. unfold onPlayerQuit. cbn. by destruct (indexOf _ _). Qed.

Lemma roster_set_onmessage h tokens w :
  fold_left roster_token tokens (set_onmessage h w)
  = set_onmessage h (fold_left roster_token tokens w).
Proof.
  revert w. induction tokens as [|n tokens IH]; intros w; [done|].
  simpl. rewrite <- IH. f_equal. unfold roster_token.
  destruct (JS.endsWith_underscore n).
  - by rewrite onPlayerJoin_set_onmessage, onPlayerQuit_set_onmessage.
  - by rewrite onPlayerJoin_set_onmessage.
Qed.

(** C9. While the joiner's handler is in state 1 (the name has not been
    acknowledged), a message other than [":badname"] and [":taken"] moves it
    to state 2 and the very same message is read as the roster within the same
    call: the outcome is that of a handler already in state 2, and it ends in
    state 3.  In the roster every token that ends in an underscore is a join
    followed at once by a quit of the name without the underscore, and every
    other token is a plain join. *)
Theorem join_name_ack_runs_roster gamename data pick draw w :
  onmessage w = Joining 1 gamename →
  data ≠ ":badname" → data ≠ ":taken" →
  receive data pick draw w
  = Some (set_onmessage (Joining 3 gamename)
            (fold_left roster_token (JS.split_space data) w))
  ∧ receive data pick draw w
    = receive data pick draw (set_onmessage (Joining 2 gamename) w)
  ∧ ∀ w n,
      (JS.endsWith_underscore n = true →
       n = JS.drop_last n +:+ "_"
       ∧ roster_token w n
         = onPlayerQuit (JS.drop_last n) (onPlayerJoin (JS.drop_last n) w))
      ∧ (JS.endsWith_underscore n = false →
         roster_token w n = onPlayerJoin n w).
Proof.
  intros Hstate Hbad Htaken. unfold receive. rewrite Hstate.
  cbn [onmessage set_onmessage]. unfold join_onmessage. cbn [Nat.eqb].
  rewrite !decide_False by done. cbn [Nat.eqb].
  split_and!; [done | by rewrite roster_set_onmessage |].
  intros w1 n. unfold roster_token. split; intros Hn; rewrite Hn; [|done].
  split; [by apply endsWith_underscore_drop_last | done].
Qed.

Lemma join_name_ack_runs_roster_witness :
  receive "alice bob_" 0 (fun _ => 0) joiner_named
  = Some (set_onmessage (Joining 3 "g1")
            (fold_left roster_token (JS.split_space "alice bob_") joiner_named))
  ∧ receive "alice bob_" 0 (fun _ => 0) joiner_named
    = receive "alice bob_" 0 (fun _ => 0)
        (set_onmessage (Joining 2 "g1") joiner_named)
  ∧ ∀ w n,
      (JS.endsWith_underscore n = true →
       n = JS.drop_last n +:+ "_"
       ∧ roster_token w n
         = onPlayerQuit (JS.drop_last n) (onPlayerJoin (JS.drop_last n) w))
      ∧ (JS.endsWith_underscore n = false →
         roster_token w n = onPlayerJoin n w).
Proof.
  apply (join_name_ack_runs_roster "g1" "alice bob_" 0 (fun _ => 0) joiner_named);
    [vm_compute; reflexivity | discriminate | discriminate].
Defined.

(** The two signals that keep the handler in state 1. *)
Remark join_name_ack_refused gamename pick draw w :
  onmessage w = Joining 1 gamename →
  receive ":badname" pick draw w = Some w
  ∧ receive ":taken" pick draw w = Some (call_ui UI.onNameTaken w).
Proof.
  intros Hstate. unfold receive. rewrite Hstate.
  destruct w; simpl in *; by subst.
Qed.

Example roster_alice_bob :
  onmessage joiner_named = Joining 1 "g1"
  ∧ onmessage joiner_after_roster = Joining 3 "g1"
  ∧ players joiner_after_roster = ["alice"]
  ∧ ui joiner_after_roster
    = [UI.onPlayerJoin "alice"; UI.onPlayerJoin "bob"; UI.onPlayerQuit "bob"].
Proof. vm_compute. done. Qed.

(** ** Joining players and the score board *)

(** C10. The claim fails in the code for a local player named
    ["__proto__"]: when [onPlayerJoin] runs for that name, the assignment
    [mp_scores[name] = score] stores nothing (the setter of [__proto__]
    ignores a number), so [mp_scores] has no entry for the player and
    [mp_scores["__proto__"]] still reads the prototype, although the UI is told
    the score.  It is so for a joiner who sent that name and for a host of
    that name on the reply that creates the lobby. *)
Theorem onPlayerJoin_own_name_proto :
  let w := sendName "__proto__" (onWordGuess "den" Local garden_game) in
  let w' := onPlayerJoin "__proto__" w in
  (getPlayername w = Some "__proto__" ∧ score w = Num 90)
  ∧ mp_scores w' = mp_scores w
  ∧ mp_scores w' !! "__proto__" = None
  ∧ mp_scores_get (mp_scores w') "__proto__" = Inherited "__proto__"
  ∧ last (ui w') = Some (UI.setPlayerScore (Primitive (Num 90)) "__proto__")
  ∧ ∃ w'', receive "7" 0 (fun _ => 0)
             (hostGame "__proto__" (onWordGuess "den" Local garden_game))
           = Some w''
           ∧ mp_scores w'' !! "__proto__" = None.
Proof.
  split_and!; try (vm_compute; reflexivity).
  eexists. split; [reflexivity|]. vm_compute. reflexivity.
Qed.

(** X30. When [onPlayerJoin] runs for the name of the local player, and the
    name is not ["__proto__"], the entry of [mp_scores] under that name is set
    to the current total score; for any other name [mp_scores] is left as it
    is.  The total is never changed.  A host reaches this with its own name
    on the reply that creates the lobby. *)
Theorem onPlayerJoin_seeds_own_score name w :
  let w' := onPlayerJoin name w in
  (getPlayername w = Some name → name ≠ "__proto__" →
   mp_scores w' = <[ name := score w ]> (mp_scores w)
   ∧ mp_scores w' !! name = Some (score w))
  ∧ (getPlayername w ≠ Some name → mp_scores w' = mp_scores w)
  ∧ score w' = score w
  ∧ (name ≠ "__proto__" →
     ∀ data pick draw,
       ∃ w'', receive data pick draw (hostGame name w) = Some w''
              ∧ mp_scores w'' = <[ name := score w ]> (mp_scores w)
              ∧ score w'' = score w).
Proof.
  intros w'. subst w'.
  unfold onPlayerJoin, cb_onPlayerJoin, getPlayername, mp_scores_put.
  split_and!.
  - intros Hname Hproto.
    destruct (decide (Some name = playername (call_ui (UI.onPlayerJoin name) w)))
      as [_|Hne]; [|by destruct Hne].
    rewrite decide_False by done.
    cbn. split; [done | by rewrite lookup_insert_eq].
  - intros Hname.
    destruct (decide (Some name = playername (call_ui (UI.onPlayerJoin name) w)))
      as [He|_]; [by destruct Hname | done].
  - by destruct (decide _).
  - intros Hproto data pick draw. eexists. split; [reflexivity|].
    unfold cb_onLobbyCreate, onPlayerJoin, cb_onPlayerJoin, getPlayername,
      hostGame, mp_scores_put.
    cbn [playername call_ui set_onmessage set_playername].
    destruct (decide (Some name = Some name)) as [_|Hne]; [|by destruct Hne].
    by rewrite decide_False by done.
Qed.

Lemma onPlayerJoin_seeds_own_score_witness :
  let w := sendName "alice" (onWordGuess "den" Local garden_game) in
  let w' := onPlayerJoin "alice" w in
  mp_scores w' = <[ "alice" := score w ]> (mp_scores w)
  ∧ mp_scores w' !! "alice" = Some (score w).
Proof.
  apply (proj1 (onPlayerJoin_seeds_own_score "alice"
                  (sendName "alice" (onWordGuess "den" Local garden_game)))).
  - vm_compute. reflexivity.
  - discriminate.
Defined.

Example solo_points_carry_over :
  let w := onWordGuess "den" Local garden_game in
  ∃ w', receive "7" 0 (fun _ => 0) (hostGame "alice" w) = Some w'
        ∧ mp_scores w' !! "alice" = Some (Num 90)
        ∧ players w' = ["alice"].
Proof. eexists. split; [reflexivity|]. vm_compute. done. Qed.

(** ** The joiner's word list *)

(** C2 (as the code has it). The joiner hands the space-separated tokens of
    the word list to [createGame] as its dictionary, so the ledger is derived
    again by the Word Set Generator: a token of six units is picked as base
    word and, for a list in which no token ends in an underscore, the group
    of each length 3 to 6 holds exactly the lower-cased tokens of that length
    that the letters of the base word can form, each with no claimant.  The
    handler then installs [onServerMsg] and records the lobby. *)
Theorem joiner_word_list_regenerated gamename data pick draw w :
  let tokens := JS.split_space data in
  onmessage w = Joining 3 gamename →
  Forall (fun t => JS.endsWith_underscore t = false) tokens →
  possibilities tokens ≠ [] →
  ∃ w' w1 chosen,
    receive data pick draw w = Some w'
    ∧ onmessage w' = onServerMsg_installed
    ∧ lobby w' = Some gamename
    ∧ createGame tokens pick draw w = Some w1
    ∧ answers w' = answers w1
    ∧ baseWord_of tokens pick = Some (JS.split_units chosen)
    ∧ chosen ∈ map JS.toLowerCase tokens
    ∧ String.length chosen = 6
    ∧ length (answers w') = 4
    ∧ ∀ k group, answers w' !! k = Some group →
        ∀ word claimant,
          (word, claimant) ∈ group
          ↔ claimant = None
            ∧ word ∈ map JS.toLowerCase tokens
            ∧ String.length word = 3 + k
            ∧ formable word chosen.
Proof.
  intros tokens Hstate _ Hne.
  destruct (proj1 (createGame_returns tokens pick draw w) Hne) as [w1 Hgame].
  destruct (createGame_answers _ _ _ _ _ Hgame)
    as (chosen & Hbase & Hin & Hlen & Hans & _).
  eexists _, w1, chosen. split.
  { unfold receive. rewrite Hstate. unfold join_onmessage, cb_makeGame.
    cbn [Nat.eqb]. fold tokens. rewrite Hgame. reflexivity. }
  cbn [answers onmessage lobby set_onmessage set_lobby call_ui].
  rewrite Hans. split_and!; [done..|].
  intros k group [Hk ->]%gamewords_of_lookup word claimant.
  rewrite unclaimed_elem, word_group_elem; [done | by destruct chosen | lia].
Qed.

Lemma joiner_word_list_regenerated_witness :
  let tokens := JS.split_space "den cat garden end" in
  ∃ w' w1 chosen,
    receive "den cat garden end" 0 (fun _ => 0) joiner_after_roster = Some w'
    ∧ onmessage w' = onServerMsg_installed
    ∧ lobby w' = Some "g1"
    ∧ createGame tokens 0 (fun _ => 0) joiner_after_roster = Some w1
    ∧ answers w' = answers w1
    ∧ baseWord_of tokens 0 = Some (JS.split_units chosen)
    ∧ chosen ∈ map JS.toLowerCase tokens
    ∧ String.length chosen = 6
    ∧ length (answers w') = 4
    ∧ ∀ k group, answers w' !! k = Some group →
        ∀ word claimant,
          (word, claimant) ∈ group
          ↔ claimant = None
            ∧ word ∈ map JS.toLowerCase tokens
            ∧ String.length word = 3 + k
            ∧ formable word chosen.
Proof.
  apply (joiner_word_list_regenerated "g1" "den cat garden end" 0 (fun _ => 0)
           joiner_after_roster).
  - vm_compute. reflexivity.
  - vm_compute. repeat constructor.
  - vm_compute. discriminate.
Defined.

(** Without a token of six units [createGame] raises its TypeError and the
    handler stays as it was. *)
Remark joiner_word_list_without_base gamename data pick draw w :
  onmessage w = Joining 3 gamename →
  possibilities (JS.split_space data) = [] →
  receive data pick draw w = None.
Proof.
  intros Hstate Hnone. unfold receive. rewrite Hstate.
  unfold join_onmessage, cb_makeGame. cbn [Nat.eqb].
  destruct (createGame _ pick draw w) eqn:Hgame; [|done].
  destruct (proj2 (createGame_returns (JS.split_space data) pick draw w));
    [by rewrite Hgame | done].
Qed.

Example plain_word_list_ledger :
  answers joiner_after_plain_words
  = [[("den", None); ("end", None)]; []; []; [("garden", None)]].
Proof. vm_compute. reflexivity. Qed.

(** C2, the claim as stated fails: the list ["den dare_ garden"] lists
    "dare" as claimed, and the ledger the joiner ends with holds neither
    "dare" nor "dare_", claimed or not; its groups are those the generator
    derives from the base word "garden". *)
Lemma joiner_word_list_counterexample :
  onmessage joiner_after_roster = Joining 3 "g1"
  ∧ JS.split_space "den dare_ garden" = ["den"; "dare_"; "garden"]
  ∧ receive "den dare_ garden" 0 (fun _ => 0) joiner_after_roster
    = Some joiner_after_words
  ∧ answers joiner_after_words
    = [[("den", None)]; []; []; [("garden", None)]]
  ∧ checkWord "dare_" joiner_after_words = None
  ∧ ¬ (∃ a0 a1 c, checkWord "dare" joiner_after_words = Some (a0, a1, c)).
Proof.
  split_and!; [vm_compute; reflexivity..|].
  intros (a0 & a1 & c & H). vm_compute in H. discriminate.
Qed.

(** ** A host's word list read back by a joiner *)

Lemma lower_unit_idemp c : JS.lower_unit (JS.lower_unit c) = JS.lower_unit c.
Proof. by destruct c as [[] [] [] [] [] [] [] []]. Qed.

Lemma toLowerCase_idemp s : JS.toLowerCase (JS.toLowerCase s) = JS.toLowerCase s.
Proof. induction s; simpl; by rewrite ?lower_unit_idemp, ?IHs. Qed.

Lemma append_cons c (s t : string) : String c s +:+ t = String c (s +:+ t).
Proof. reflexivity. Qed.

Lemma append_nil_l (t : string) : "" +:+ t = t.
Proof. reflexivity. Qed.

Lemma append_assoc (s1 s2 s3 : string) :
  (s1 +:+ s2) +:+ s3 = s1 +:+ (s2 +:+ s3).
Proof.
  induction s1 as [|c s1 IH]; [done|]. by rewrite !append_cons, IH.
Qed.

Lemma append_nil_r (s : string) : s +:+ "" = s.
Proof. induction s as [|c s IH]; [done|]. by rewrite append_cons, IH. Qed.

(** The string built by the two loops of [hostGame], as one pass over the
    words from the right. *)
Lemma snapshot_fold (es : list entry) acc :
  fold_left (fun words (e : entry) =>
               words +:+ e.1 +:+ (if claimed e.2 then "_ " else " ")) es acc
  = acc +:+ foldr (fun (e : entry) rest =>
                     e.1 +:+ (if claimed e.2 then "_ " else " ") +:+ rest)
              "" es.
Proof.
  revert acc. induction es as [|e es IH]; intros acc; simpl.
  - by rewrite append_nil_r.
  - by rewrite IH, !append_assoc.
Qed.

Lemma trim_end_app p s :
  trim_end s ≠ "" → trim_end (p +:+ s) = p +:+ trim_end s.
Proof.
  intros Hs. induction p as [|c p IH]; [done|].
  rewrite !append_cons. simpl. rewrite IH.
  destruct (p +:+ trim_end s) eqn:E; [|done].
  destruct p; [by rewrite append_nil_l in E | by rewrite append_cons in E].
Qed.

Lemma trim_end_word_space s :
  spaceless s = true → trim_end (s +:+ " ") = s.
Proof.
  induction s as [|c s IH]; [done|].
  intros [Hc Hs]%andb_true_iff. rewrite append_cons. simpl. rewrite IH by done.
  destruct s; [|done]. by destruct (is_space c).
Qed.

(** White-space-free, non-empty words come back from the snapshot string
    joined by single spaces. *)
Lemma snapshot_words (words : list string) :
  Forall (fun s => spaceless s = true ∧ s ≠ "") words →
  trim_end (trim_start (foldr (fun b rest => b +:+ " " +:+ rest) "" words))
  = JS.join " " words.
Proof.
  intros Hw.
  assert (Hstart : trim_start (foldr (fun b rest => b +:+ " " +:+ rest) "" words)
                   = foldr (fun b rest => b +:+ " " +:+ rest) "" words).
  { destruct Hw as [|b words [Hb Hne] _]; [done|]. simpl.
    destruct b as [|c b]; [done|]. rewrite append_cons. simpl in *.
    by destruct (is_space c). }
  rewrite Hstart. clear Hstart.
  induction Hw as [|b words [Hb Hne] Hw IH]; [done|].
  simpl. destruct words as [|b' words].
  - simpl. by apply trim_end_word_space.
  - assert (Hrest : JS.join " " (b' :: words) ≠ "").
    { apply Forall_cons in Hw as [[_ Hb'] _].
      unfold JS.join. simpl. destruct b'; [done|].
      destruct words; [done | by rewrite append_cons]. }
    rewrite <- append_assoc, trim_end_app by (by rewrite IH).
    rewrite IH. unfold JS.join. simpl.
    by rewrite append_assoc.
Qed.

Lemma spaceless_no_space c s :
  spaceless (String c s) = true → Ascii.eqb c " " = false.
Proof.
  simpl. intros [Hc _]%andb_true_iff.
  destruct (Ascii.eqb_spec c " ") as [->|]; [done|done].
Qed.

Lemma split_space_app_word b s :
  spaceless b = true →
  JS.split_space (b +:+ " " +:+ s) = b :: JS.split_space s.
Proof.
  induction b as [|c b IH]; [done|].
  intros Hb. pose proof (spaceless_no_space _ _ Hb) as Hc.
  apply andb_true_iff in Hb as [_ Hb].
  rewrite append_cons. cbn [JS.split_space]. rewrite Hc, IH by done. done.
Qed.

Lemma split_space_word b : spaceless b = true → JS.split_space b = [b].
Proof.
  induction b as [|c b IH]; [done|].
  intros Hb. pose proof (spaceless_no_space _ _ Hb) as Hc.
  apply andb_true_iff in Hb as [_ Hb].
  cbn [JS.split_space]. by rewrite Hc, IH.
Qed.

Lemma split_space_join (words : list string) :
  words ≠ [] → Forall (fun s => spaceless s = true) words →
  JS.split_space (JS.join " " words) = words.
Proof.
  intros Hne Hw. induction Hw as [|b words Hb Hw IH]; [done|].
  destruct words as [|b' words].
  - by apply split_space_word.
  - change (JS.join " " (b :: b' :: words))
      with (b +:+ " " +:+ JS.join " " (b' :: words)).
    rewrite split_space_app_word by done. by rewrite IH.
Qed.

Lemma host_snapshot_unclaimed (groups : list (list string)) :
  host_snapshot (map (map (fun b => (b, None))) groups)
  = trim_end (trim_start
      (foldr (fun b rest => b +:+ " " +:+ rest) "" (concat groups))).
Proof.
  unfold host_snapshot. rewrite snapshot_fold, append_nil_l.
  rewrite <- concat_map. do 2 f_equal.
  induction (concat groups) as [|b words IH]; [done|].
  simpl. by rewrite IH.
Qed.

Lemma ledger_words_unclaimed (groups : list (list string)) :
  ledger_words (map (map (fun b => (b, None))) groups) = concat groups.
Proof.
  unfold ledger_words. rewrite <- concat_map. apply fst_unclaimed.
Qed.

Lemma gamewords_of_elem dictionary baseWord x :
  x ∈ concat (gamewords_of dictionary baseWord)
  ↔ ∃ i, 3 ≤ i ≤ 6 ∧ x ∈ word_group dictionary baseWord i.
Proof.
  unfold gamewords_of. simpl. rewrite app_nil_r, !elem_of_app. split.
  - intros [H|[H|[H|H]]]; eexists; (split; [|exact H]); lia.
  - intros (i & Hi & Hx).
    assert (i = 3 ∨ i = 4 ∨ i = 5 ∨ i = 6) as [->|[->|[->| ->]]] by lia; auto.
Qed.

Lemma formable_self chosen : formable chosen chosen.
Proof. exists []. by rewrite app_nil_r. Qed.

(** A word of full length formed from the base word is an arrangement of
    it, and forms the same words. *)
Lemma formable_full word chosen :
  String.length word = String.length chosen → formable word chosen →
  JS.split_units word ≡ₚ JS.split_units chosen.
Proof.
  intros Hlen [rest Hrest].
  assert (rest = []) as ->; [|by rewrite app_nil_r in Hrest].
  apply Permutation_length in Hrest.
  rewrite length_app, !length_split_units in Hrest.
  apply nil_length_inv. lia.
Qed.

Lemma formable_Permutation x chosen chosen' :
  JS.split_units chosen' ≡ₚ JS.split_units chosen →
  formable x chosen ↔ formable x chosen'.
Proof. intros Hp. unfold formable. by setoid_rewrite Hp. Qed.

(** Two groups with the same words are the same array. *)
Lemma word_group_unique d1 c1 d2 c2 i :
  (∀ x, x ∈ word_group d1 (JS.split_units c1) i
        ↔ x ∈ word_group d2 (JS.split_units c2) i) →
  word_group d1 (JS.split_units c1) i = word_group d2 (JS.split_units c2) i.
Proof.
  intros Hsame.
  apply (StronglySorted_unique String.le); [apply word_group_sorted..|].
  apply NoDup_Permutation; [apply word_group_NoDup..|done].
Qed.

(** The design behind [makeGame]: the word list of a ledger in which nothing
    is claimed yet (and no word has white space in it) is a dictionary from
    which [createGame] derives that very ledger again, whichever word of six
    units it picks. *)
Proposition joiner_rebuilds_unclaimed_ledger
    dictionary pick draw w host gamename pick' draw' joiner :
  createGame dictionary pick draw w = Some host →
  Forall (fun s => spaceless s = true) (ledger_words (answers host)) →
  onmessage joiner = Joining 3 gamename →
  ∃ joiner',
    receive (host_snapshot (answers host)) pick' draw' joiner = Some joiner'
    ∧ answers joiner' = answers host.
Proof.
  intros Hhost Hspaceless Hstate.
  destruct (createGame_answers _ _ _ _ _ Hhost)
    as (chosen & _ & Hin & Hlen & Hans & _).
  set (dict := map JS.toLowerCase dictionary) in *.
  set (groups := gamewords_of dict (JS.split_units chosen)) in *.
  rewrite Hans in *. rewrite ledger_words_unclaimed in Hspaceless.
  assert (Hne : chosen ≠ "") by (by destruct chosen).
  (* the words of the list *)
  assert (Hword : ∀ x, x ∈ concat groups →
            x ∈ dict ∧ 3 ≤ String.length x ≤ 6 ∧ formable x chosen).
  { intros x (i & Hi & Hx)%gamewords_of_elem.
    apply word_group_elem in Hx as (? & ? & ?); [|done|lia].
    split_and!; [done | lia | lia | done]. }
  assert (Hchosen : chosen ∈ concat groups).
  { apply gamewords_of_elem. exists 6. split; [lia|].
    apply word_group_elem; [done | lia |].
    split_and!; [done | done | apply formable_self]. }
  (* the list, sent and split again *)
  assert (Hsplit : JS.split_space
                     (host_snapshot (map (map (fun b => (b, None))) groups))
                   = concat groups).
  { rewrite host_snapshot_unclaimed, snapshot_words.
    - apply split_space_join; [|done]. intros E. rewrite E in Hchosen.
      inversion Hchosen.
    - rewrite Forall_forall in Hspaceless. apply Forall_forall.
      intros x Hx. split; [by apply Hspaceless|].
      destruct (Hword x Hx) as (_ & Hl & _). destruct x; [simpl in Hl; lia | done]. }
  assert (Hlower : map JS.toLowerCase (concat groups) = concat groups).
  { rewrite <- (list_fmap_id (concat groups)) at 2.
    apply list_fmap_ext. intros _ x Hx%list_elem_of_lookup_2.
    destruct (Hword x Hx) as (Hd & _). unfold dict in Hd.
    apply list_elem_of_fmap in Hd as (y & -> & _).
    apply toLowerCase_idemp. }
  (* the joiner's game *)
  assert (Hposs : possibilities (concat groups) ≠ []).
  { intros E. assert (Hc : chosen ∈ possibilities (concat groups)).
    { unfold possibilities. rewrite Hlower. by apply list_elem_of_filter. }
    rewrite E in Hc. inversion Hc. }
  destruct (proj1 (createGame_returns (concat groups) pick' draw' joiner) Hposs)
    as [w1 Hgame].
  destruct (createGame_answers _ _ _ _ _ Hgame)
    as (chosen' & _ & Hin' & Hlen' & Hans' & _).
  rewrite Hlower in Hin', Hans'.
  eexists. split.
  { unfold receive. rewrite Hstate. unfold join_onmessage, cb_makeGame.
    cbn [Nat.eqb]. rewrite Hsplit, Hgame. reflexivity. }
  cbn [answers set_onmessage set_lobby call_ui]. rewrite Hans'.
  apply (f_equal (map (map (fun b => (b, @None player))))).
  destruct (Hword chosen' Hin') as (_ & _ & Hform).
  pose proof (formable_full chosen' chosen ltac:(congruence) Hform) as Hperm.
  assert (Hne' : chosen' ≠ "") by (by destruct chosen').
  assert (Hgroup : ∀ i, 3 ≤ i ≤ 6 →
            word_group (concat groups) (JS.split_units chosen') i
            = word_group dict (JS.split_units chosen) i).
  { intros i Hi. apply word_group_unique. intros x.
    rewrite !word_group_elem by (done || lia).
    rewrite <- (formable_Permutation x chosen chosen' Hperm). split.
    - intros (Hx & Hl & Hf). by destruct (Hword x Hx) as (? & _).
    - intros (Hx & Hl & Hf). split_and!; [|done..].
      apply gamewords_of_elem. exists i. split; [done|].
      apply word_group_elem; [done | lia | done]. }
  transitivity (gamewords_of dict (JS.split_units chosen)); [|done].
  unfold gamewords_of. cbn [map].
  by rewrite !Hgroup by lia.
Qed.

Example garden_word_list_round_trip :
  host_snapshot (answers garden_game) = "den end dare rang danger garden"
  ∧ ∃ joiner',
      receive "den end dare rang danger garden" 3 (fun _ => 1)
        joiner_after_roster = Some joiner'
      ∧ answers joiner' = answers garden_game.
Proof. split; [reflexivity|]. eexists. split; [reflexivity|]. vm_compute. done. Qed.

(** * Further properties of the two files *)

(** ** permute, uniq_fast, getUniqPermutations, shuffle *)

Lemma permute_main_nil {A} n (usedChars : list A) :
  permute_main n [] usedChars = [].
Proof. by destruct n. Qed.

Lemma length_flat_map_seq {B} (f : nat → list B) m c :
  (∀ i, i < m → length (f i) = c) →
  length (flat_map f (seq 0 m)) = m * c.
Proof.
  induction m as [|m IH]; intros Hf; [done|].
  rewrite seq_S, flat_map_app, length_app, IH by (intros; apply Hf; lia).
  simpl. rewrite app_nil_r, Hf by lia. lia.
Qed.

Lemma length_permute_main {A} n (input usedChars : list A) :
  length input ≤ n → input ≠ [] →
  length (permute_main n input usedChars) = fact (length input).
Proof.
  revert input usedChars.
  induction n as [|n IH]; intros input usedChars Hn Hne.
  - destruct input; [done | simpl in Hn; lia].
  - destruct input as [|a input]; [done|]. clear Hne.
    cbn [permute_main].
    rewrite (length_flat_map_seq _ _ (fact (length input))).
    { simpl. lia. }
    intros i Hi.
    destruct (lookup_lt_is_Some_2 (a :: input) i Hi) as [ch Hch].
    rewrite Hch.
    assert (Hlen : length (delete i (a :: input)) = length input).
    { rewrite length_delete by eauto. simpl. lia. }
    rewrite length_app, Hlen.
    destruct (delete i (a :: input)) as [|b rest] eqn:Hdel.
    + rewrite permute_main_nil. by rewrite <- Hlen.
    + rewrite IH; [| simpl in *; lia | done].
      rewrite Hlen. destruct (length input) eqn:E; [simpl in Hlen; lia | done].
Qed.

(** X1. [permute] returns exactly the arrangements of a non-empty array,
    [n!] arrays for [n] elements (so equal elements give equal arrays more
    than once), and no array at all for the empty array. *)
Theorem permute_arrangements {A} (input : list A) :
  (input ≠ [] →
   (∀ p, p ∈ permute input ↔ p ≡ₚ input)
   ∧ length (permute input) = fact (length input))
  ∧ (input = [] → permute input = []).
Proof.
  split.
  - intros Hne. split.
    + intros p. split; [apply permute_Permutation | by apply permute_complete].
    + by apply length_permute_main.
  - by intros ->.
Qed.

Lemma permute_arrangements_witness :
  (∀ p, p ∈ permute ["a"; "b"; "a"] ↔ p ≡ₚ ["a"; "b"; "a"])
  ∧ length (permute ["a"; "b"; "a"]) = fact (length ["a"; "b"; "a"]).
Proof. apply (proj1 (permute_arrangements ["a"; "b"; "a"])). discriminate. Defined.

Section UniqFastFacts.
Context {A : Type} (toString : A → string).
Implicit Types seen : gmap string Z.

Lemma seen_set_insert key k seen :
  seen_set key (<[ k := 1%Z ]> seen) = <[ k := 1%Z ]> (seen_set key seen).
Proof.
  unfold seen_set. destruct (decide (key = "__proto__")); [done|].
  destruct (decide (key = k)) as [->|Hne].
  - by rewrite insert_insert_eq.
  - by apply insert_insert_ne.
Qed.

Lemma uniq_fast_from_insert seen k a :
  uniq_fast_from toString (<[ k := 1%Z ]> seen) a
  = uniq_fast_from toString seen (filter (fun y => toString y ≠ k) a).
Proof.
  revert seen. induction a as [|item rest IH]; intros seen; [done|].
  rewrite filter_cons. simpl.
  destruct (decide (toString item = k)) as [<-|Hne].
  - rewrite lookup_insert_eq, decide_True by done.
    rewrite decide_False by (by intros ?). apply IH.
  - rewrite lookup_insert_ne by done. rewrite (decide_True _ _ Hne). simpl.
    destruct (decide (seen !! toString item = Some 1%Z)); [apply IH|].
    by rewrite seen_set_insert, IH.
Qed.

Lemma uniq_fast_from_sublist seen a :
  uniq_fast_from toString seen a `sublist_of` a.
Proof.
  revert seen. induction a as [|item rest IH]; intros seen; simpl.
  - constructor.
  - destruct (decide _); [apply sublist_cons | apply sublist_skip]; apply IH.
Qed.

(** X2. [uniq_fast] keeps an item and drops every later item with the same
    property key: the result is the first item followed by what [uniq_fast]
    keeps of the later items with another key.  So it keeps the order of the
    array, no two kept items have the same key, and every key of the array is
    kept once.  (Keys are compared as property names; the name [__proto__]
    cannot be recorded in an object and is left aside.) *)
Theorem uniq_fast_keeps_first (a : list A) :
  Forall (fun x => toString x ≠ "__proto__") a →
  uniq_fast toString a `sublist_of` a
  ∧ NoDup (toString <$> uniq_fast toString a)
  ∧ (∀ x, x ∈ a → ∃ y, y ∈ uniq_fast toString a ∧ toString y = toString x)
  ∧ match a with
    | [] => uniq_fast toString a = []
    | x :: rest =>
        uniq_fast toString a
        = x :: uniq_fast toString
                 (filter (fun y => toString y ≠ toString x) rest)
    end.
Proof.
  intros Hkeys. split_and!.
  - apply uniq_fast_from_sublist.
  - by apply uniq_fast_from_NoDup.
  - intros x Hx. apply uniq_fast_from_complete; [done|]. by rewrite lookup_empty.
  - destruct a as [|x rest]; [done|].
    apply Forall_cons in Hkeys as [Hx _].
    unfold uniq_fast. simpl. rewrite lookup_empty.
    rewrite decide_False by done. f_equal.
    unfold seen_set. rewrite decide_False by done.
    apply uniq_fast_from_insert.
Qed.
End UniqFastFacts.

Lemma uniq_fast_keeps_first_witness :
  let a := [["a"; "b"]; ["b"; "a"]; ["a"; "b"]; ["c"]; ["b"; "a"]] in
  uniq_fast array_toString a `sublist_of` a
  ∧ NoDup (array_toString <$> uniq_fast array_toString a)
  ∧ (∀ x, x ∈ a →
       ∃ y, y ∈ uniq_fast array_toString a ∧ array_toString y = array_toString x)
  ∧ uniq_fast array_toString a
    = ["a"; "b"]
        :: uniq_fast array_toString
             (filter (fun y => array_toString y ≠ array_toString ["a"; "b"])
                [["b"; "a"]; ["a"; "b"]; ["c"]; ["b"; "a"]]).
Proof.
  apply (uniq_fast_keeps_first array_toString
           [["a"; "b"]; ["b"; "a"]; ["a"; "b"]; ["c"]; ["b"; "a"]]).
  repeat constructor; discriminate.
Defined.

(** X3. For a non-empty array of one-unit strings and [maxLen] at most its
    length, [getUniqPermutations] returns, each exactly once, the arrays of
    [maxLen] of its letters in every order: the arrays [l] of that length that
    some remaining letters complete to an arrangement of the whole array. *)
Theorem getUniqPermutations_exact chars maxLen :
  Forall unit_string chars → chars ≠ [] → maxLen ≤ length chars →
  NoDup (getUniqPermutations chars maxLen)
  ∧ ∀ l, l ∈ getUniqPermutations chars maxLen
         ↔ length l = maxLen ∧ ∃ rest, l ++ rest ≡ₚ chars.
Proof.
  intros Hunit Hne Hlen. split; [by apply getUniqPermutations_NoDup|].
  intros l. split.
  - intros (p & Hp & ->)%getUniqPermutations_elem. split.
    + rewrite length_take, Hp. lia.
    + exists (drop maxLen p). by rewrite take_drop.
  - intros [Hl [rest Hrest]].
    assert (l = take maxLen (l ++ rest)) as ->.
    { rewrite take_app_le by lia. by rewrite take_ge by lia. }
    by apply getUniqPermutations_complete.
Qed.

Lemma getUniqPermutations_exact_witness :
  NoDup (getUniqPermutations ["e"; "e"; "l"] 2)
  ∧ ∀ l, l ∈ getUniqPermutations ["e"; "e"; "l"] 2
         ↔ length l = 2 ∧ ∃ rest, l ++ rest ≡ₚ ["e"; "e"; "l"].
Proof.
  apply (getUniqPermutations_exact ["e"; "e"; "l"] 2);
    [repeat constructor | discriminate | simpl; lia].
Defined.

Example getUniqPermutations_eel :
  getUniqPermutations ["e"; "e"; "l"] 2 = [["e"; "e"]; ["e"; "l"]; ["l"; "e"]]
  ∧ length (permute ["e"; "e"; "l"]) = 6.
Proof. vm_compute. done. Qed.

(** X4. [shuffle] only rearranges: whatever the random samples, the result
    has the elements of the array, each as often as before. *)
Theorem shuffle_rearranges {A} (draw : nat → nat) (array : list A) :
  shuffle draw array ≡ₚ array
  ∧ length (shuffle draw array) = length array.
Proof.
  pose proof (shuffle_Permutation draw array) as Hp.
  split; [done | by rewrite Hp].
Qed.

(** ** createGame *)

Lemma words_unclaimed (groups : list (list string)) :
  map (map fst) (map (map (fun b => (b, @None player))) groups) = groups.
Proof.
  induction groups as [|g gs IH]; [done|].
  simpl. f_equal; [apply fst_unclaimed | done].
Qed.

Lemma createGame_frame dictionary pick draw w w' :
  createGame dictionary pick draw w = Some w' →
  ∃ chosen,
    baseWord_of dictionary pick = Some (JS.split_units chosen)
    ∧ avail_letters w' = shuffle draw (JS.split_units chosen)
    ∧ avail_letters_neg1 w' = None
    ∧ input_box w' = [] ∧ gaveup w' = false
    ∧ score w' = score w ∧ mp_scores w' = mp_scores w
    ∧ playername w' = playername w ∧ players w' = players w
    ∧ sent w' = sent w
    ∧ ui w' = ui w ++ [UI.constructGame (map (map fst) (answers w'));
                       UI.initChoices (avail_letters w')].
Proof.
  unfold createGame, baseWord_of, possibilities.
  destruct (filter _ _ !! _) as [chosen|] eqn:Hpick; [|done].
  intros [= <-]. exists chosen.
  split_and!; try reflexivity.
  cbn [ui answers avail_letters set_gaveup set_input_box shuffleLetters call_ui
         set_avail_letters set_avail_letters_neg1 set_answers].
  rewrite <- app_assoc.
  rewrite <- (words_unclaimed (gamewords_of (map JS.toLowerCase dictionary)
                                 (JS.split_units chosen))) at 1.
  reflexivity.
Qed.

(** X5. A new game starts clean but keeps the scores: after [createGame] the
    letter pool is a rearrangement of the base word, the input box is empty,
    the give-up flag is off and no word of the ledger has a claimant, while
    the total score and the per-player scores are those from before the call
    (the score is not set back to 0).  The UI is told the groups and the
    shuffled letters, and nothing is sent on the socket. *)
Theorem createGame_fresh_game dictionary pick draw w w' baseWord :
  createGame dictionary pick draw w = Some w' →
  baseWord_of dictionary pick = Some baseWord →
  avail_letters w' ≡ₚ baseWord
  ∧ input_box w' = []
  ∧ gaveup w' = false
  ∧ (∀ group (e : entry), group ∈ answers w' → e ∈ group → e.2 = None)
  ∧ score w' = score w
  ∧ mp_scores w' = mp_scores w
  ∧ sent w' = sent w
  ∧ ui w' = ui w ++ [UI.constructGame (map (map fst) (answers w'));
                     UI.initChoices (avail_letters w')].
Proof.
  intros Hgame Hbase.
  destruct (createGame_frame _ _ _ _ _ Hgame)
    as (chosen & Hbase' & Hav & _ & Hbox & Hg & Hs & Hm & _ & _ & Hsent & Hui).
  rewrite Hbase in Hbase'. injection Hbase' as ->.
  destruct (createGame_answers _ _ _ _ _ Hgame) as (chosen' & _ & _ & _ & Hans & _).
  split_and!; try done.
  - rewrite Hav. apply shuffle_Permutation.
  - rewrite Hans. intros group e (g & -> & _)%list_elem_of_fmap He.
    by apply list_elem_of_fmap in He as (b & -> & _).
Qed.

Lemma createGame_fresh_game_witness :
  let w := onWordGuess "den" Local garden_game in
  let w' := default w (createGame ["silent"; "LISTEN"; "tin"] 1 (fun _ => 2) w) in
  avail_letters w' ≡ₚ JS.split_units "listen"
  ∧ input_box w' = []
  ∧ gaveup w' = false
  ∧ (∀ group (e : entry), group ∈ answers w' → e ∈ group → e.2 = None)
  ∧ score w' = score w
  ∧ mp_scores w' = mp_scores w
  ∧ sent w' = sent w
  ∧ ui w' = ui w ++ [UI.constructGame (map (map fst) (answers w'));
                     UI.initChoices (avail_letters w')].
Proof.
  apply (createGame_fresh_game ["silent"; "LISTEN"; "tin"] 1 (fun _ => 2)
           (onWordGuess "den" Local garden_game));
    vm_compute; reflexivity.
Defined.

Example second_game_keeps_score :
  let w := onWordGuess "den" Local garden_game in
  score w = Num 90
  ∧ (score <$> createGame ["silent"; "LISTEN"; "tin"] 1 (fun _ => 2) w)
    = Some (Num 90).
Proof. vm_compute. done. Qed.

Lemma group_length_elem n : 3 ≤ n ≤ 6 → n ∈ [3; 4; 5; 6].
Proof.
  intros Hn.
  do 7 (destruct n as [|n];
        [first [lia | apply list_elem_of_In; simpl; tauto]|]).
  lia.
Qed.

(** A word of the ledger of a created game, and where it is. *)
Lemma createGame_checkWord_found dictionary pick draw w w' chosen word a0 a1 b :
  createGame dictionary pick draw w = Some w' →
  baseWord_of dictionary pick = Some (JS.split_units chosen) →
  checkWord word w' = Some (a0, a1, b) →
  b = None ∧ a0 = String.length word - 3
  ∧ word ∈ map JS.toLowerCase dictionary
  ∧ 3 ≤ String.length word ≤ 6
  ∧ formable word chosen.
Proof.
  intros Hgame Hbase (group & Hg & He)%checkWord_found.
  destruct (createGame_answers _ _ _ _ _ Hgame)
    as (chosen' & Hbase' & Hin & Hlen & Hans & _).
  rewrite Hbase in Hbase'. injection Hbase' as Hsplit.
  assert (chosen' = chosen) as ->.
  { by rewrite <- (join_split_units chosen'), <- Hsplit, join_split_units. }
  rewrite Hans in Hg. apply gamewords_of_lookup in Hg as [Ha0 ->].
  apply list_elem_of_lookup_2, unclaimed_elem in He as [-> He].
  apply word_group_elem in He as (? & ? & ?); [| by destruct chosen | lia].
  split_and!; [done | lia | done | lia | lia | done].
Qed.

Lemma createGame_checkWord dictionary pick draw w w' chosen word :
  createGame dictionary pick draw w = Some w' →
  baseWord_of dictionary pick = Some (JS.split_units chosen) →
  (∃ a1, checkWord word w' = Some (String.length word - 3, a1, None))
  ↔ word ∈ map JS.toLowerCase dictionary
    ∧ 3 ≤ String.length word ≤ 6
    ∧ formable word chosen.
Proof.
  intros Hgame Hbase. split.
  - intros [a1 Ha1].
    by destruct (createGame_checkWord_found _ _ _ _ _ _ _ _ _ _ Hgame Hbase Ha1)
      as (_ & _ & ?).
  - intros (Hd & Hl & Hf).
    destruct (checkWord word w') as [[[a0 a1] b]|] eqn:Hcheck.
    + destruct (createGame_checkWord_found _ _ _ _ _ _ _ _ _ _ Hgame Hbase Hcheck)
        as (-> & -> & _).
      by exists a1.
    + exfalso. unfold checkWord in Hcheck.
      rewrite checkWord_from_None in Hcheck.
      destruct (createGame_answers _ _ _ _ _ Hgame)
        as (chosen' & Hbase' & Hin & Hlen & Hans & _).
      rewrite Hbase in Hbase'. injection Hbase' as Hsplit.
      assert (chosen' = chosen) as ->.
      { by rewrite <- (join_split_units chosen'), <- Hsplit, join_split_units. }
      assert (Hgroup : map (fun b => (b, @None player))
                         (word_group (map JS.toLowerCase dictionary)
                            (JS.split_units chosen) (String.length word))
                       ∈ answers w').
      { rewrite Hans. apply list_elem_of_fmap. eexists. split; [done|].
        unfold gamewords_of. apply list_elem_of_fmap.
        exists (String.length word). split; [done|].
        by apply group_length_elem. }
      apply Hcheck in Hgroup. rewrite checkWord_group_None in Hgroup.
      apply (Hgroup (word, None)); [|done].
      apply unclaimed_elem. split; [done|].
      apply word_group_elem; [by destruct chosen | lia | done].
Qed.

(** X6. The ledger of a new game misses no word: a string is found by
    [checkWord], in the group of its length and with no claimant, exactly
    when it is a word of the lower-cased dictionary of length 3 to 6 that the
    letters of the base word can form; any other string is not found. *)
Theorem createGame_ledger_complete dictionary pick draw w :
  possibilities dictionary ≠ [] →
  ∃ w' chosen,
    createGame dictionary pick draw w = Some w'
    ∧ baseWord_of dictionary pick = Some (JS.split_units chosen)
    ∧ ∀ word,
        ((∃ a1, checkWord word w' = Some (String.length word - 3, a1, None))
         ↔ word ∈ map JS.toLowerCase dictionary
           ∧ 3 ≤ String.length word ≤ 6
           ∧ formable word chosen)
        ∧ (checkWord word w' = None
           ↔ ¬ (word ∈ map JS.toLowerCase dictionary
                ∧ 3 ≤ String.length word ≤ 6
                ∧ formable word chosen)).
Proof.
  intros Hne.
  destruct (proj1 (createGame_returns dictionary pick draw w) Hne) as [w' Hw'].
  destruct (createGame_answers _ _ _ _ _ Hw') as (chosen & Hbase & _).
  exists w', chosen. split_and!; [done..|].
  intros word.
  pose proof (createGame_checkWord _ _ _ _ _ _ word Hw' Hbase) as Hiff.
  split; [done|]. rewrite <- Hiff. split.
  - intros Hnone [a1 Ha1]. congruence.
  - intros Hno. destruct (checkWord word w') as [[[a0 a1] b]|] eqn:Hcheck; [|done].
    destruct Hno.
    destruct (createGame_checkWord_found _ _ _ _ _ _ _ _ _ _ Hw' Hbase Hcheck)
      as (-> & -> & _).
    by exists a1.
Qed.

Lemma createGame_ledger_complete_witness :
  ∃ w' chosen,
    createGame garden_dictionary 0 (fun _ => 0) initial_world = Some w'
    ∧ baseWord_of garden_dictionary 0 = Some (JS.split_units chosen)
    ∧ ∀ word,
        ((∃ a1, checkWord word w' = Some (String.length word - 3, a1, None))
         ↔ word ∈ map JS.toLowerCase garden_dictionary
           ∧ 3 ≤ String.length word ≤ 6
           ∧ formable word chosen)
        ∧ (checkWord word w' = None
           ↔ ¬ (word ∈ map JS.toLowerCase garden_dictionary
                ∧ 3 ≤ String.length word ≤ 6
                ∧ formable word chosen)).
Proof.
  apply (createGame_ledger_complete garden_dictionary 0 (fun _ => 0)
           initial_world).
  vm_compute. discriminate.
Defined.

(** X7. The ledger of a new game is determined by the set of lower-cased
    dictionary words and by the letters of the base word: the order, the
    letter case and the repetitions of the dictionary, which of several
    anagrams is picked as base word, the shuffle and the state before the
    call make no difference. *)
Theorem createGame_ledger_determined
    d1 d2 pick1 pick2 draw1 draw2 w1 w2 w1' w2' b1 b2 :
  createGame d1 pick1 draw1 w1 = Some w1' →
  createGame d2 pick2 draw2 w2 = Some w2' →
  baseWord_of d1 pick1 = Some b1 →
  baseWord_of d2 pick2 = Some b2 →
  (∀ x, x ∈ map JS.toLowerCase d1 ↔ x ∈ map JS.toLowerCase d2) →
  b1 ≡ₚ b2 →
  answers w1' = answers w2'.
Proof.
  intros Hg1 Hg2 Hb1 Hb2 Hsame Hperm.
  destruct (createGame_answers _ _ _ _ _ Hg1)
    as (c1 & Hb1' & _ & Hlen1 & -> & _).
  destruct (createGame_answers _ _ _ _ _ Hg2)
    as (c2 & Hb2' & _ & Hlen2 & -> & _).
  rewrite Hb1 in Hb1'. injection Hb1' as ->.
  rewrite Hb2 in Hb2'. injection Hb2' as ->.
  f_equal. unfold gamewords_of. cbn [map].
  assert (Hgroup : ∀ i, 3 ≤ i ≤ 6 →
            word_group (map JS.toLowerCase d1) (JS.split_units c1) i
            = word_group (map JS.toLowerCase d2) (JS.split_units c2) i).
  { intros i Hi. apply word_group_unique. intros x.
    rewrite !word_group_elem by ((by destruct c1) || (by destruct c2) || lia).
    rewrite Hsame. by rewrite (formable_Permutation x c2 c1 Hperm). }
  by rewrite !Hgroup by lia.
Qed.

Lemma createGame_ledger_determined_witness :
  let d1 := ["den"; "Garden"; "danger"] in
  let d2 := ["DANGER"; "den"; "garden"; "Den"] in
  let w2 := onWordGuess "den" Local garden_game in
  answers (default initial_world (createGame d1 0 (fun _ => 0) initial_world))
  = answers (default initial_world (createGame d2 0 (fun _ => 3) w2)).
Proof.
  apply (createGame_ledger_determined
           ["den"; "Garden"; "danger"] ["DANGER"; "den"; "garden"; "Den"]
           0 0 (fun _ => 0) (fun _ => 3)
           initial_world (onWordGuess "den" Local garden_game) _ _
           (JS.split_units "garden") (JS.split_units "danger")).
  - vm_compute. reflexivity.
  - vm_compute. reflexivity.
  - vm_compute. reflexivity.
  - vm_compute. reflexivity.
  - intros x. simpl. rewrite !elem_of_cons, !elem_of_nil. tauto.
  - apply (bool_decide_unpack
             (JS.split_units "garden" ≡ₚ JS.split_units "danger")).
    vm_compute. exact I.
Defined.

(** ** enterChar, backspaceChar, indexOfLetter, submitWord *)

Lemma enterChar_slot index w c :
  (0 ≤ index)%Z →
  avail_letters w !! Z.to_nat index = Some c → c ≠ "" →
  enterChar index w
  = (true,
     call_ui (UI.removeLetterAtIndex index)
       (set_avail_letters (<[ Z.to_nat index := "" ]> (avail_letters w))
          (call_ui (UI.enterChar c)
             (set_input_box (input_box w ++ [c]) w)))).
Proof.
  intros Hidx Hc Hne. unfold enterChar, avail_at.
  destruct (Z.eqb_spec index (-1)) as [?|_]; [lia|].
  destruct (Z.ltb_spec index 0) as [?|_]; [lia|].
  rewrite Hc. destruct c; [done|]. simpl.
  destruct (Z.eqb_spec index (-1)) as [?|_]; [lia|]. done.
Qed.

Lemma enterChar_no_letter index w :
  (index ≠ -1)%Z →
  (∀ c, (0 ≤ index)%Z → avail_letters w !! Z.to_nat index = Some c → c = "") →
  enterChar index w = (false, w).
Proof.
  intros Hm1 Hslot. unfold enterChar, avail_at.
  destruct (Z.eqb_spec index (-1)) as [?|_]; [done|].
  destruct (Z.ltb_spec index 0) as [?|Hge]; [done|].
  destruct (avail_letters w !! Z.to_nat index) as [c|] eqn:Hc; [|done].
  by rewrite (Hslot c Hge eq_refl).
Qed.

(** X8. [enterChar(index)], for an index that is not -1, returns [true]
    exactly when [index] is a slot of the pool that holds a letter; it then
    appends that letter to the input box, writes the empty string into the
    slot and tells the UI.  An index outside the array, a negative one or an
    emptied slot gives [false] and no change at all. *)
Theorem enterChar_moves_letter index w :
  (index ≠ -1)%Z →
  let w' := (enterChar index w).2 in
  ((enterChar index w).1 = true
   ↔ (0 ≤ index)%Z
     ∧ ∃ c, avail_letters w !! Z.to_nat index = Some c ∧ c ≠ "")
  ∧ (∀ c, (0 ≤ index)%Z →
          avail_letters w !! Z.to_nat index = Some c → c ≠ "" →
          input_box w' = input_box w ++ [c]
          ∧ avail_letters w' = <[ Z.to_nat index := "" ]> (avail_letters w)
          ∧ ui w' = ui w ++ [UI.enterChar c; UI.removeLetterAtIndex index])
  ∧ ((enterChar index w).1 = false → w' = w).
Proof.
  intros Hm1 w'.
  assert (Hcases :
            ((0 ≤ index)%Z
             ∧ ∃ c, avail_letters w !! Z.to_nat index = Some c ∧ c ≠ "")
            ∨ enterChar index w = (false, w)).
  { destruct (Z.le_gt_cases 0 index) as [Hge|Hlt].
    - destruct (avail_letters w !! Z.to_nat index) as [c|] eqn:Hc.
      + destruct (decide (c = "")) as [->|Hne]; [|left; eauto].
        right. apply enterChar_no_letter; [done|]. intros c' _. congruence.
      + right. apply enterChar_no_letter; [done|]. intros c' _. congruence.
    - right. apply enterChar_no_letter; [done|]. intros c' ?. lia. }
  split_and!.
  - split.
    + intros Hr. destruct Hcases as [?|Hf]; [done|]. by rewrite Hf in Hr.
    + intros [Hge (c & Hc & Hne)]. by rewrite (enterChar_slot _ _ _ Hge Hc Hne).
  - intros c Hge Hc Hne. subst w'. rewrite (enterChar_slot _ _ _ Hge Hc Hne).
    cbn. by rewrite <- app_assoc.
  - intros Hr. subst w'. destruct Hcases as [[Hge (c & Hc & Hne)]|Hf].
    + by rewrite (enterChar_slot _ _ _ Hge Hc Hne) in Hr.
    + by rewrite Hf.
Qed.

Lemma enterChar_moves_letter_witness :
  let w' := (enterChar 2 garden_game).2 in
  input_box w' = input_box garden_game ++ ["d"]
  ∧ avail_letters w' = <[ Z.to_nat 2 := "" ]> (avail_letters garden_game)
  ∧ ui w' = ui garden_game ++ [UI.enterChar "d"; UI.removeLetterAtIndex 2].
Proof.
  apply (proj1 (proj2 (enterChar_moves_letter 2 garden_game ltac:(discriminate)))
           "d"); [lia | vm_compute; reflexivity | discriminate].
Defined.

(** X9. A letter entered and taken back at once: [backspaceChar()] right
    after a successful [enterChar(index)] succeeds, leaves the input box as
    it was before the two calls and the pool with the same letters.  The pool
    is exactly as before when no slot above [index] was empty; otherwise the
    letter comes back in the highest empty slot. *)
Theorem enterChar_then_backspaceChar index w c :
  (0 ≤ index)%Z →
  avail_letters w !! Z.to_nat index = Some c → c ≠ "" →
  let w1 := (enterChar index w).2 in
  let w2 := (backspaceChar None w1).2 in
  (backspaceChar None w1).1 = true
  ∧ input_box w2 = input_box w
  ∧ avail_letters w2 ≡ₚ avail_letters w
  ∧ ((∀ k, Z.to_nat index < k → avail_letters w !! k ≠ Some "") →
     avail_letters w2 = avail_letters w).
Proof.
  intros Hge Hc Hne w1 w2. subst w2 w1.
  rewrite (enterChar_slot _ _ _ Hge Hc Hne). cbn [snd].
  set (i := Z.to_nat index) in *.
  set (w1 := call_ui _ _).
  assert (Hbox1 : input_box w1 = input_box w ++ [c]) by done.
  assert (Hav1 : avail_letters w1 = <[ i := "" ]> (avail_letters w)) by done.
  clearbody w1.
  destruct (backspaceChar_succeeds None w1) as (c' & Hbox & ->);
    [by rewrite Hbox1; destruct (input_box w) | by left |].
  rewrite Hbox1 in Hbox. rewrite removelast_last in Hbox.
  apply app_inj_tail in Hbox as [_ <-].
  assert (Hi : i < length (avail_letters w)) by (by eapply lookup_lt_Some).
  destruct (lastIndexOf "" (avail_letters w1)) as [k|] eqn:Hlast.
  2: { apply lastIndexOf_None in Hlast. destruct Hlast.
       rewrite Hav1. apply list_elem_of_lookup. exists i.
       by apply list_lookup_insert_eq. }
  apply lastIndexOf_Some in Hlast as [Hk Hlater].
  cbn. rewrite Hbox1, removelast_last, Hav1.
  rewrite Hav1 in Hk, Hlater.
  destruct (decide (k = i)) as [->|Hki].
  - rewrite list_insert_insert_eq, list_insert_id by done. done.
  - rewrite list_lookup_insert_ne in Hk by done.
    assert (Hswap : <[k:=c]> (<[i:=""]> (avail_letters w))
                    = swap_at i k (avail_letters w)).
    { unfold swap_at. by rewrite Hc, Hk. }
    split_and!; [done | done | rewrite Hswap; apply swap_at_Permutation |].
    intros Hnone. exfalso.
    destruct (Nat.lt_trichotomy i k) as [Hlt|[->|Hgt]]; [|done|].
    + by apply (Hnone k).
    + apply (Hlater i Hgt). by apply list_lookup_insert_eq.
Qed.

Lemma enterChar_then_backspaceChar_witness :
  let w1 := (enterChar 2 garden_two_entered).2 in
  let w2 := (backspaceChar None w1).2 in
  (backspaceChar None w1).1 = true
  ∧ input_box w2 = input_box garden_two_entered
  ∧ avail_letters w2 ≡ₚ avail_letters garden_two_entered
  ∧ ((∀ k, Z.to_nat 2 < k → avail_letters garden_two_entered !! k ≠ Some "") →
     avail_letters w2 = avail_letters garden_two_entered).
Proof.
  apply (enterChar_then_backspaceChar 2 garden_two_entered "d");
    [lia | vm_compute; reflexivity | discriminate].
Defined.

Lemma filter_insert_Permutation {A} (P : A → Prop) `{∀ x, Decision (P x)}
    (l : list A) i x old :
  l !! i = Some old →
  (if decide (P old) then [old] else []) ++ filter P (<[ i := x ]> l)
  ≡ₚ (if decide (P x) then [x] else []) ++ filter P l.
Proof.
  revert i. induction l as [|y l IH]; intros i Hi; [done|].
  destruct i as [|i]; simpl in Hi.
  - injection Hi as ->. simpl. rewrite !filter_cons.
    destruct (decide (P old)), (decide (P x)); simpl; try done.
    apply perm_swap.
  - specialize (IH i Hi). simpl. rewrite !filter_cons.
    destruct (decide (P y)); [|done].
    rewrite <- !Permutation_middle. by rewrite IH.
Qed.

Lemma filter_truthy_all (slots : list string) :
  "" ∉ slots → filter (fun c => JS.truthy c = true) slots = slots.
Proof.
  induction slots as [|y slots IH]; [done|].
  intros Hn. rewrite filter_cons.
  destruct (decide (JS.truthy y = true)) as [_|Hy].
  - f_equal. apply IH. intros ?. apply Hn. by right.
  - destruct Hn. destruct y; [left | done].
Qed.

Lemma enterChar_letters n index w :
  pool_invariant n w →
  letters_in_play (enterChar index w).2 ≡ₚ letters_in_play w.
Proof.
  intros (_ & _ & _ & Hneg). unfold enterChar, avail_at. rewrite Hneg.
  destruct (index =? -1)%Z eqn:Hm1; [done|].
  destruct (index <? 0)%Z; [done|].
  destruct (avail_letters w !! Z.to_nat index) as [c|] eqn:Hc; [|done].
  destruct (JS.truthy c) eqn:Htruthy; [|done].
  unfold letters_in_play. cbn.
  pose proof (filter_insert_Permutation (fun c => JS.truthy c = true)
                _ _ "" _ Hc) as Hp.
  rewrite decide_True in Hp by done. rewrite decide_False in Hp by done.
  rewrite <- app_assoc. simpl in *. by rewrite Hp.
Qed.

Lemma backspaceChar_letters n index w :
  pool_invariant n w →
  letters_in_play (backspaceChar index w).2 ≡ₚ letters_in_play w.
Proof.
  intros Hinv.
  destruct (decide (input_box w ≠ []
                    ∧ (index = None
                       ∨ index = Some (Z.of_nat (length (input_box w)) - 1)%Z)))
    as [[Hne Hidx]|Hno].
  2: { by rewrite backspaceChar_fails. }
  destruct (backspaceChar_succeeds index w Hne Hidx) as (c & Hbox & ->).
  destruct Hinv as (Hlen & Hsum & Hall & Hneg).
  assert (Hc : JS.truthy c = true).
  { rewrite Hbox in Hall. apply Forall_app in Hall as [_ Hc]. by inversion Hc. }
  assert (Hboxlen : length (input_box w) = S (length (removelast (input_box w)))).
  { rewrite Hbox at 1. rewrite length_app. simpl. lia. }
  unfold letters_in_play at 2. rewrite Hbox.
  destruct (lastIndexOf "" (avail_letters w)) as [k|] eqn:Hlast.
  - apply lastIndexOf_Some in Hlast as [Hk _].
    pose proof (filter_insert_Permutation (fun c => JS.truthy c = true)
                  _ _ c _ Hk) as Hp.
    rewrite decide_False in Hp by done. rewrite decide_True in Hp by done.
    unfold letters_in_play. cbn. simpl in Hp. rewrite Hp.
    rewrite removelast_last, <- app_assoc. done.
  - apply lastIndexOf_None, occupied_all in Hlast. lia.
Qed.

Lemma backspace_while_letters n k w :
  pool_invariant n w →
  letters_in_play (backspace_while k w) ≡ₚ letters_in_play w.
Proof.
  revert w. induction k as [|k IH]; intros w Hinv; [done|]. simpl.
  pose proof (backspaceChar_pool n None w Hinv) as Hpool.
  pose proof (backspaceChar_letters n None w Hinv) as Hlet.
  destruct (backspaceChar None w) as [[] w1]; simpl in *; [|done].
  by rewrite IH.
Qed.

Lemma perform_letters n w a :
  pool_invariant n w →
  letters_in_play (perform w a) ≡ₚ letters_in_play w.
Proof.
  intros Hinv. destruct a as [word who|index|index| |on|draw]; simpl.
  - pose proof (onWordGuess_keeps word who w) as (_ & _ & _ & Ha & Hb & _).
    unfold letters_in_play. by rewrite Ha, Hb.
  - by apply enterChar_letters with n.
  - by apply backspaceChar_letters with n.
  - unfold submitWord. cbv zeta.
    match goal with |- context [onWordGuess ?word ?who w] =>
      pose proof (onWordGuess_keeps word who w) as (_ & _ & _ & Ha & Hb & Hn & _);
      set (w1 := onWordGuess word who w) in *
    end.
    assert (Hw2 : pool_invariant n (announceWordGuess (JS.join "" (input_box w)) w1)
                  ∧ letters_in_play (announceWordGuess (JS.join "" (input_box w)) w1)
                    = letters_in_play w).
    { unfold announceWordGuess, pool_invariant, letters_in_play.
      destruct (_ && _); cbn; by rewrite Ha, Hb, Hn. }
    destruct Hw2 as [Hinv2 <-]. by apply backspace_while_letters with n.
  - unfold giveUp, getPlayername, voteGiveUp, revealAll.
    destruct (playername w), on; cbn; rewrite ?fold_call_ui;
      try destruct (has_sock w); done.
  - unfold shuffleLetters, letters_in_play. cbn -[shuffle].
    by rewrite (shuffle_Permutation draw (avail_letters w)).
Qed.

Lemma perform_all_letters n actions w :
  pool_invariant n w →
  letters_in_play (perform_all w actions) ≡ₚ letters_in_play w.
Proof.
  revert w. induction actions as [|a actions IH]; intros w Hinv; [done|].
  simpl. rewrite IH by (by apply perform_pool). by apply perform_letters with n.
Qed.

Lemma play_letters dictionary pick draw w0 w baseWord actions :
  createGame dictionary pick draw w0 = Some w →
  baseWord_of dictionary pick = Some baseWord →
  letters_in_play (perform_all w actions) ≡ₚ baseWord.
Proof.
  intros Hgame Hbase.
  destruct (createGame_pool _ _ _ _ _ _ Hgame Hbase) as [_ Hinv].
  rewrite (perform_all_letters _ actions _ Hinv).
  destruct (createGame_frame _ _ _ _ _ Hgame)
    as (chosen & Hbase' & Hav & _ & Hbox & _).
  rewrite Hbase in Hbase'. injection Hbase' as ->.
  unfold letters_in_play. rewrite Hbox, Hav. simpl.
  rewrite filter_truthy_all; [apply shuffle_Permutation|].
  rewrite (shuffle_Permutation draw). intros Hin.
  pose proof (split_units_unit chosen) as Hu. rewrite Forall_forall in Hu.
  by specialize (Hu _ Hin).
Qed.

(** X10. No letter is lost or made up: from a game just created, after any
    sequence of calls to [enterChar], [backspaceChar], [submitWord],
    [shuffleLetters], [onWordGuess] and [giveUp], the letters in the input box
    together with the letters left in the pool are the letters of the base
    word, each as often as it occurs there. *)
Theorem letters_are_conserved dictionary pick draw w0 w baseWord actions :
  createGame dictionary pick draw w0 = Some w →
  baseWord_of dictionary pick = Some baseWord →
  letters_in_play (perform_all w actions) ≡ₚ baseWord.
Proof.
  intros Hgame Hbase. by apply play_letters with dictionary pick draw w0.
Qed.

Lemma letters_are_conserved_witness :
  let actions := [Enter 0; Enter 5; Shuffle (fun i => i); Enter 1;
                  Backspace None; Guess "den" Local; Enter 3] in
  letters_in_play (perform_all garden_game actions)
  ≡ₚ JS.split_units "garden".
Proof.
  apply (letters_are_conserved garden_dictionary 0 (fun _ => 0)
           initial_world garden_game);
    vm_compute; reflexivity.
Defined.

(** X11. [submitWord] puts every letter back: called at any point of a game,
    it leaves the input box empty and the pool full, the pool holding the
    letters of the base word again (in some order). *)
Theorem submitWord_returns_letters dictionary pick draw w0 w baseWord actions :
  createGame dictionary pick draw w0 = Some w →
  baseWord_of dictionary pick = Some baseWord →
  let w' := submitWord (perform_all w actions) in
  input_box w' = []
  ∧ ("" ∉ avail_letters w')
  ∧ avail_letters w' ≡ₚ baseWord.
Proof.
  intros Hgame Hbase w'.
  destruct (createGame_pool _ _ _ _ _ _ Hgame Hbase) as [_ Hinv].
  pose proof (perform_all_pool _ (actions ++ [Submit]) _ Hinv) as Hpool.
  pose proof (play_letters _ _ _ _ _ _ (actions ++ [Submit]) Hgame Hbase)
    as Hlet.
  unfold perform_all in Hpool, Hlet. rewrite fold_left_app in Hpool, Hlet.
  simpl in Hpool, Hlet. fold (perform_all w actions) in Hpool, Hlet.
  fold w' in Hpool, Hlet.
  assert (Hempty : input_box w' = []).
  { unfold w', submitWord. cbv zeta. apply backspace_while_empties. lia. }
  destruct Hpool as (Hlen & Hsum & _).
  rewrite Hempty in Hsum. simpl in Hsum.
  assert (Hfull : "" ∉ avail_letters w') by (apply occupied_all; lia).
  split_and!; [done | done |].
  unfold letters_in_play in Hlet. rewrite Hempty in Hlet. simpl in Hlet.
  by rewrite filter_truthy_all in Hlet.
Qed.

Lemma submitWord_returns_letters_witness :
  let w' := submitWord (perform_all garden_game [Enter 2; Enter 3; Enter 4]) in
  input_box w' = []
  ∧ ("" ∉ avail_letters w')
  ∧ avail_letters w' ≡ₚ JS.split_units "garden".
Proof.
  apply (submitWord_returns_letters garden_dictionary 0 (fun _ => 0)
           initial_world garden_game);
    vm_compute; reflexivity.
Defined.

Example typing_den :
  let w := perform_all garden_game [Enter 2; Enter 3; Enter 4] in
  input_box w = ["d"; "e"; "n"]
  ∧ score (submitWord w) = Num 90
  ∧ checkWord "den" (submitWord w) = Some (0, 0, Some Local)
  ∧ avail_letters (submitWord w) = ["a"; "r"; "d"; "e"; "n"; "g"].
Proof. vm_compute. done. Qed.

Lemma backspaceChar_sent index w :
  sent (backspaceChar index w).2 = sent w
  ∧ onmessage (backspaceChar index w).2 = onmessage w.
Proof.
  unfold backspaceChar. destruct (_ && _); [|done].
  destruct (last _); [|done]. cbn. by destruct (lastIndexOf _ _).
Qed.

Lemma backspace_while_sent k w : sent (backspace_while k w) = sent w.
Proof.
  revert w. induction k as [|k IH]; intros w; [done|]. simpl.
  pose proof (backspaceChar_sent None w) as [Hs _].
  destruct (backspaceChar None w) as [[] w1]; simpl in *; [|done].
  by rewrite IH.
Qed.

Lemma onWordGuess_sent word who w : sent (onWordGuess word who w) = sent w.
Proof.
  destruct (checkWord word w) as [[[a0 a1] b]|] eqn:Hfound.
  2: { by rewrite onWordGuess_unknown. }
  destruct (claimed b) eqn:Hb.
  { by rewrite (onWordGuess_claimed _ _ _ _ _ _ Hfound Hb). }
  rewrite (onWordGuess_reveals _ _ _ _ _ _ Hfound Hb). cbv zeta.
  destruct (gaveup w); [done|]. destruct who; [done..|].
  unfold addPlayerScore. by destruct (property_truthy _).
Qed.

(** [submitWord] as the guess it makes. *)
Lemma submitWord_as_guess w :
  let word := JS.join "" (input_box w) in
  let who := match getPlayername w with
             | Some name => if JS.truthy name then Named name else Local
             | None => Local
             end in
  claimed (Some who) = true
  ∧ answers (submitWord w) = answers (onWordGuess word who w)
  ∧ score (submitWord w) = score (onWordGuess word who w)
  ∧ mp_scores (submitWord w) = mp_scores (onWordGuess word who w)
  ∧ gaveup (submitWord w) = gaveup w.
Proof.
  intros word who. unfold submitWord. cbv zeta. fold word. fold who.
  set (w1 := onWordGuess word who w).
  pose proof (backspace_while_keeps
                (S (length (input_box (announceWordGuess word w1))))
                (announceWordGuess word w1)) as (-> & -> & -> & -> & _).
  pose proof (onWordGuess_keeps word who w) as (Hg & _).
  split.
  { unfold who. destruct (getPlayername w) as [name|]; [|done].
    by destruct (JS.truthy name) eqn:E. }
  unfold announceWordGuess. by destruct (_ && _).
Qed.

(** X12. [submitWord] guesses the typed word for the local identity (the
    multiplayer name when one is set, the solo player otherwise) and
    announces it whether or not it is a word of the game: ledger and scores
    are those [onWordGuess] gives, and exactly one message, [":attempt "]
    followed by the lower-cased word, is sent when a socket exists and the
    input box is not empty; otherwise nothing is sent. *)
Theorem submitWord_guesses_and_announces w :
  let word := JS.join "" (input_box w) in
  let who := match getPlayername w with
             | Some name => if JS.truthy name then Named name else Local
             | None => Local
             end in
  let w' := submitWord w in
  answers w' = answers (onWordGuess word who w)
  ∧ score w' = score (onWordGuess word who w)
  ∧ mp_scores w' = mp_scores (onWordGuess word who w)
  ∧ sent w'
    = sent w ++ (if has_sock w && JS.truthy word
                 then [":attempt " +:+ JS.toLowerCase word] else []).
Proof.
  intros word who w'.
  destruct (submitWord_as_guess w) as (_ & Ha & Hs & Hm & _).
  split_and!; [done..|].
  subst w'. unfold submitWord. cbv zeta. fold word. fold who.
  pose proof (onWordGuess_keeps word who w) as (_ & _ & Hmsg & _).
  pose proof (onWordGuess_sent word who w) as Hsent.
  set (w1 := onWordGuess word who w) in *.
  rewrite backspace_while_sent.
  unfold announceWordGuess, has_sock. rewrite Hmsg.
  destruct (_ && _); cbn; rewrite ?Hsent, ?app_nil_r; done.
Qed.

Example submitWord_announces_nonsense :
  let w := perform_all (hostGame "alice" garden_game) [Enter 4; Enter 5] in
  input_box w = ["n"; "g"]
  ∧ answers (submitWord w) = answers garden_game
  ∧ sent (submitWord w) = [":attempt ng"].
Proof. vm_compute. done. Qed.

Lemma indexOf_Some x a i :
  indexOf x a = Some i ↔ a !! i = Some x ∧ ∀ j, j < i → a !! j ≠ Some x.
Proof.
  revert i. induction a as [|y a IH]; intros i; simpl.
  - split; [done | by intros [? _]].
  - destruct (decide (y = x)) as [->|Hne].
    + split.
      * intros [= <-]. split; [done | lia].
      * intros [Hi Hfirst]. destruct i as [|i]; [done|].
        destruct (Hfirst 0); [lia | done].
    + destruct (indexOf x a) as [k|] eqn:Hk; simpl.
      * pose proof (proj1 (IH k) eq_refl) as [Hk1 Hk2]. split.
        -- intros [= <-]. split; [done|].
           intros [|j] ?; simpl; [congruence | apply Hk2; lia].
        -- intros [Hi Hfirst]. destruct i as [|i]; [simpl in Hi; congruence|].
           assert (Some k = Some i) as [= ->]; [|done].
           apply IH. split; [done|].
           intros j ?. apply (Hfirst (S j)). lia.
      * split; [done|]. intros [Hi Hfirst].
        destruct i as [|i]; [simpl in Hi; congruence|].
        assert (None = Some i); [|done]. apply IH. split; [done|].
        intros j ?. apply (Hfirst (S j)). lia.
Qed.

Lemma indexOf_None x a : indexOf x a = None ↔ x ∉ a.
Proof.
  induction a as [|y a IH]; simpl.
  - split; [|done]. intros _ H. inversion H.
  - destruct (decide (y = x)) as [->|Hne].
    + split; [done|]. intros Hn. destruct Hn. left.
    + destruct (indexOf x a) eqn:E; simpl.
      * split; [done|]. intros Hn.
        assert (Ha : x ∉ a) by (intros ?; apply Hn; by right).
        by apply IH in Ha.
      * split; [|done]. intros _ [->|Hin]%elem_of_cons; [done|].
        by apply (proj1 IH).
Qed.

Lemma length_toLowerCase s : String.length (JS.toLowerCase s) = String.length s.
Proof. induction s; simpl; congruence. Qed.

(** X13. A typed letter finds its tile whatever its case: for a one-unit
    string [c], [indexOfLetter(c)] is the first slot of the pool that holds
    the lower-cased [c], and -1 exactly when no slot holds it; [enterChar] on
    the index found succeeds and appends the lower-cased letter to the input
    box. *)
Theorem indexOfLetter_finds_tile c w :
  unit_string c →
  (indexOfLetter c w = None ↔ JS.toLowerCase c ∉ avail_letters w)
  ∧ ∀ i, indexOfLetter c w = Some i →
      avail_letters w !! i = Some (JS.toLowerCase c)
      ∧ (∀ j, j < i → avail_letters w !! j ≠ Some (JS.toLowerCase c))
      ∧ (enterChar (Z.of_nat i) w).1 = true
      ∧ input_box (enterChar (Z.of_nat i) w).2
        = input_box w ++ [JS.toLowerCase c].
Proof.
  intros Hc. unfold indexOfLetter. split; [apply indexOf_None|].
  intros i [Hi Hfirst]%indexOf_Some.
  assert (Hne : JS.toLowerCase c ≠ "").
  { intros E. pose proof (length_toLowerCase c) as Hl.
    rewrite E, Hc in Hl. done. }
  assert (Hi' : avail_letters w !! Z.to_nat (Z.of_nat i)
                = Some (JS.toLowerCase c)) by (by rewrite Nat2Z.id).
  split_and!; [done | done | |].
  - by rewrite (enterChar_slot _ _ _ (Zle_0_nat i) Hi' Hne).
  - by rewrite (enterChar_slot _ _ _ (Zle_0_nat i) Hi' Hne).
Qed.

Lemma indexOfLetter_finds_tile_witness :
  (indexOfLetter "G" garden_game = None
   ↔ JS.toLowerCase "G" ∉ avail_letters garden_game)
  ∧ ∀ i, indexOfLetter "G" garden_game = Some i →
      avail_letters garden_game !! i = Some (JS.toLowerCase "G")
      ∧ (∀ j, j < i → avail_letters garden_game !! j ≠ Some (JS.toLowerCase "G"))
      ∧ (enterChar (Z.of_nat i) garden_game).1 = true
      ∧ input_box (enterChar (Z.of_nat i) garden_game).2
        = input_box garden_game ++ [JS.toLowerCase "G"].
Proof. apply (indexOfLetter_finds_tile "G" garden_game). reflexivity. Defined.

Example indexOfLetter_G :
  indexOfLetter "G" garden_game = Some 5
  ∧ indexOfLetter "x" garden_game = None
  ∧ indexOfLetter "" garden_two_entered = Some 0.
Proof. vm_compute. done. Qed.

(** ** What no call does to the ledger *)

Lemma fst_alter_claim (group : list entry) who a1 :
  map fst (alter (fun e : entry => (e.1, Some who)) a1 group) = map fst group.
Proof.
  change (fst <$> alter (fun e : entry => (e.1, Some who)) a1 group
          = fst <$> group).
  apply list_eq. intros i. rewrite !list_lookup_fmap.
  destruct (decide (a1 = i)) as [->|Hne].
  - rewrite list_lookup_alter_eq. by destruct (group !! i).
  - by rewrite list_lookup_alter_ne.
Qed.

Lemma words_alter_claim (groups : list (list entry)) who a0 a1 :
  map (map fst)
    (alter (alter (fun e : entry => (e.1, Some who)) a1) a0 groups)
  = map (map fst) groups.
Proof.
  change (map fst <$> alter (alter (fun e : entry => (e.1, Some who)) a1) a0 groups
          = map fst <$> groups).
  apply list_eq. intros i. rewrite !list_lookup_fmap.
  destruct (decide (a0 = i)) as [->|Hne].
  - rewrite list_lookup_alter_eq. destruct (groups !! i); [|done].
    simpl. f_equal. apply fst_alter_claim.
  - by rewrite list_lookup_alter_ne.
Qed.

Lemma onWordGuess_words word who w :
  map (map fst) (answers (onWordGuess word who w)) = map (map fst) (answers w).
Proof.
  destruct (checkWord word w) as [[[a0 a1] b]|] eqn:Hfound.
  2: { by rewrite onWordGuess_unknown. }
  destruct (claimed b) eqn:Hb.
  { by rewrite (onWordGuess_claimed _ _ _ _ _ _ Hfound Hb). }
  rewrite (onWordGuess_answers _ _ _ _ _ _ Hfound Hb).
  apply words_alter_claim.
Qed.

Lemma perform_answers w a :
  (∀ word who, a ≠ Guess word who) → a ≠ Submit →
  answers (perform w a) = answers w.
Proof.
  intros Hguess Hsubmit.
  destruct a as [word who|index|index| |on|draw]; simpl.
  - by destruct (Hguess word who).
  - by pose proof (enterChar_keeps index w) as (_ & _ & _ & -> & _).
  - by pose proof (backspaceChar_keeps index w) as (_ & _ & _ & -> & _).
  - done.
  - by pose proof (giveUp_keeps on w) as (_ & _ & -> & _).
  - done.
Qed.

Lemma perform_shape w a : ledger_shape (perform w a) = ledger_shape w.
Proof.
  unfold ledger_shape.
  destruct a as [word who|index|index| |on|draw]; simpl.
  - apply onWordGuess_words.
  - by pose proof (enterChar_keeps index w) as (_ & _ & _ & -> & _).
  - by pose proof (backspaceChar_keeps index w) as (_ & _ & _ & -> & _).
  - destruct (submitWord_as_guess w) as (_ & -> & _). apply onWordGuess_words.
  - by pose proof (giveUp_keeps on w) as (_ & _ & -> & _).
  - done.
Qed.

Lemma onServerMsg_shape data w :
  ledger_shape (onServerMsg data w) = ledger_shape w.
Proof.
  unfold onServerMsg, ledger_shape.
  destruct (String.prefix _ _); [apply onWordGuess_words|].
  destruct (decide (data = ":allgiveup")).
  { unfold revealAll. by rewrite fold_call_ui. }
  repeat case_decide; try done.
  - unfold onPlayerJoin, cb_onPlayerJoin. cbn. by destruct (decide _).
  - unfold onPlayerQuit. cbn. by destruct (indexOf _ _).
Qed.

(** X14. Outside [createGame] the ledger only ever gains claimants: no call
    of a session ([onWordGuess], [enterChar], [backspaceChar], [submitWord],
    [giveUp], [shuffleLetters]) and no message handled by [onServerMsg] adds,
    removes, moves or changes a word of the ledger. *)
Theorem ledger_words_are_fixed :
  (∀ w actions, ledger_shape (perform_all w actions) = ledger_shape w)
  ∧ (∀ w data, ledger_shape (onServerMsg data w) = ledger_shape w).
Proof.
  split.
  - intros w actions. revert w.
    induction actions as [|a actions IH]; intros w; [done|].
    simpl. by rewrite IH, perform_shape.
  - intros w data. apply onServerMsg_shape.
Qed.

(** ** The score and the ledger *)

Lemma sum_alter {A} (val : A → Z) (f : A → A) (l : list A) i x :
  l !! i = Some x →
  foldr (fun e acc => (val e + acc)%Z) 0%Z (alter f i l)
  = (foldr (fun e acc => (val e + acc)%Z) 0%Z l - val x + val (f x))%Z.
Proof.
  revert i. induction l as [|y l IH]; intros i Hi; [done|].
  destruct i as [|i]; simpl in Hi.
  - injection Hi as ->. simpl. lia.
  - cbn [alter list_alter foldr]. rewrite (IH i Hi). lia.
Qed.

Lemma ledger_points_claim (groups : list (list entry)) a0 a1 group word b who :
  groups !! a0 = Some group → group !! a1 = Some (word, b) →
  ledger_points (alter (alter (fun e : entry => (e.1, Some who)) a1) a0 groups)
  = (ledger_points groups - credited (word, b) + credited (word, Some who))%Z.
Proof.
  intros Hg He. unfold ledger_points.
  rewrite (sum_alter group_points _ _ _ _ Hg).
  unfold group_points at 3.
  rewrite (sum_alter credited _ _ _ _ He). simpl. unfold group_points. lia.
Qed.

Lemma credited_unclaimed (e : entry) : claimed e.2 = false → credited e = 0%Z.
Proof.
  destruct e as [a [[| |name]|]]; unfold credited; simpl; intros H;
    try done; by rewrite H.
Qed.

Lemma ledger_points_unclaimed (groups : list (list string)) :
  ledger_points (map (map (fun b => (b, None))) groups) = 0%Z.
Proof.
  induction groups as [|g groups IH]; [done|].
  simpl. rewrite IH.
  assert (group_points (map (fun b => (b, @None player)) g) = 0%Z) as ->; [|done].
  induction g as [|b g IHg]; [done|]. simpl. by rewrite IHg.
Qed.

Lemma scorable_points w a0 a1 group word b :
  scorable w → answers w !! a0 = Some group → group !! a1 = Some (word, b) →
  pointvalues (String.length word) = Num (points_of (String.length word)).
Proof.
  intros Hs Hg He.
  assert (3 ≤ String.length word ≤ 6) as Hlen.
  { unfold scorable, ledger_shape in Hs.
    rewrite Forall_forall in Hs.
    assert (map fst group ∈ map (map fst) (answers w)) as Hin.
    { apply list_elem_of_In, in_map, list_elem_of_In.
      by apply list_elem_of_lookup_2 with a0. }
    specialize (Hs _ Hin). rewrite Forall_forall in Hs.
    apply (Hs word).
    change word with (fst (word, b)).
    apply list_elem_of_In, in_map, list_elem_of_In.
    by apply list_elem_of_lookup_2 with a1. }
  unfold points_of.
  destruct (String.length word) as [|[|[|[|[|[|[|n]]]]]]]; try lia; done.
Qed.

Lemma onWordGuess_score word who w s0 :
  gaveup w = false → claimed (Some who) = true → scorable w →
  score w = Num (s0 + ledger_points (answers w)) →
  score (onWordGuess word who w)
  = Num (s0 + ledger_points (answers (onWordGuess word who w))).
Proof.
  intros Hgave Hwho Hs Hscore.
  destruct (checkWord word w) as [[[a0 a1] b]|] eqn:Hc;
    [|by rewrite (onWordGuess_unknown _ _ _ Hc)].
  destruct (claimed b) eqn:Hb; [by rewrite (onWordGuess_claimed _ _ _ _ _ _ Hc Hb)|].
  destruct (checkWord_found _ _ _ _ _ Hc) as (group & Hg & He).
  rewrite (onWordGuess_answers _ _ _ _ _ _ Hc Hb).
  rewrite (ledger_points_claim _ _ _ _ _ _ who Hg He).
  rewrite (credited_unclaimed (word, b) Hb).
  rewrite (onWordGuess_reveals _ _ _ _ _ _ Hc Hb).
  pose proof (scorable_points _ _ _ _ _ _ Hs Hg He) as Hpts.
  cbn zeta. rewrite Hgave.
  destruct who as [| |name].
  - unfold credited. cbn. rewrite Hscore, Hpts. cbn. f_equal. lia.
  - unfold credited. cbn. rewrite Hscore. f_equal. lia.
  - unfold credited. cbn [snd fst]. rewrite Hwho.
    unfold addPlayerScore, addScore, revealed.
    destruct (property_truthy _); cbn; rewrite Hscore, Hpts; cbn; f_equal; lia.
Qed.

Lemma perform_score w a s0 :
  gaveup w = false → recordable a → scorable w →
  score w = Num (s0 + ledger_points (answers w)) →
  score (perform w a) = Num (s0 + ledger_points (answers (perform w a))).
Proof.
  intros Hgave Hrec Hs Hscore.
  destruct a as [word who|index|index| |on|draw]; simpl.
  - by apply onWordGuess_score.
  - by pose proof (enterChar_keeps index w) as (_ & -> & _ & -> & _).
  - by pose proof (backspaceChar_keeps index w) as (_ & -> & _ & -> & _).
  - destruct (submitWord_as_guess w) as (Hwho & -> & -> & _).
    by apply onWordGuess_score.
  - by pose proof (giveUp_keeps on w) as (-> & _ & -> & _).
  - done.
Qed.

Lemma createGame_scorable dictionary pick draw w0 w :
  createGame dictionary pick draw w0 = Some w →
  scorable w ∧ ledger_points (answers w) = 0%Z.
Proof.
  intros Hgame.
  destruct (createGame_answers _ _ _ _ _ Hgame)
    as (chosen & _ & _ & Hlen & Hans & _).
  split; [|rewrite Hans; apply ledger_points_unclaimed].
  unfold scorable, ledger_shape. rewrite Hans, words_unclaimed.
  apply Forall_forall. intros group Hgroup.
  apply Forall_forall. intros word Hword.
  assert (word ∈ concat (gamewords_of (map JS.toLowerCase dictionary)
                           (JS.split_units chosen))) as Hin.
  { apply list_elem_of_In, in_concat. exists group.
    split; by apply list_elem_of_In. }
  apply gamewords_of_elem in Hin as (i & Hi & Hin).
  apply word_group_elem in Hin as (_ & -> & _); [done| |lia].
  intros ->. simpl in Hlen. lia.
Qed.

Lemma play_score dictionary pick draw w0 w s0 actions :
  createGame dictionary pick draw w0 = Some w →
  score w0 = Num s0 →
  Forall recordable actions →
  gaveup (perform_all w actions) = false →
  scorable (perform_all w actions)
  ∧ score (perform_all w actions)
    = Num (s0 + ledger_points (answers (perform_all w actions))).
Proof.
  intros Hgame Hs0 Hrec.
  destruct (createGame_scorable _ _ _ _ _ Hgame) as (Hs & Hzero).
  assert (score w = Num (s0 + ledger_points (answers w))) as Hscore.
  { destruct (createGame_frame _ _ _ _ _ Hgame)
      as (chosen & _ & _ & _ & _ & _ & -> & _).
    rewrite Hzero, Hs0. f_equal. lia. }
  clear Hgame Hzero Hs0. revert w Hs Hscore.
  induction Hrec as [|a actions Ha Hrec IH]; intros w Hs Hscore Hgave; [done|].
  simpl in *.
  assert (gaveup (perform w a) = false) as Hgave1.
  { destruct (gaveup (perform w a)) eqn:E; [|done].
    destruct (perform_all_keeps_gaveup actions _ E) as (Hg & _). congruence. }
  assert (gaveup w = false) as Hgave0.
  { destruct (gaveup w) eqn:E; [|done].
    destruct (perform_keeps_gaveup w a E) as (Hg & _). congruence. }
  apply IH; [|by apply perform_score|done].
  unfold scorable. by rewrite perform_shape.
Qed.

(** X15. The aggregate score is the sum of the points standing in the ledger.
    From a game created when the score was [s0], after any sequence of calls
    in which no guess is made under the empty name, and as long as the player
    has not given up, [score] is the number [s0] plus [pointvalues] of the
    length of every word the ledger holds under the local player or a named
    player; words held by the system count for nothing, and the score is never
    [NaN]. *)
Theorem score_is_ledger_points dictionary pick draw w0 w s0 actions :
  createGame dictionary pick draw w0 = Some w →
  score w0 = Num s0 →
  Forall recordable actions →
  gaveup (perform_all w actions) = false →
  score (perform_all w actions)
  = Num (s0 + ledger_points (answers (perform_all w actions))).
Proof.
  intros Hgame Hs0 Hrec Hgave.
  by destruct (play_score _ _ _ _ _ _ _ Hgame Hs0 Hrec Hgave).
Qed.

Lemma score_is_ledger_points_witness :
  let actions := [Guess "den" Local; Guess "garden" (Named "bob");
                  Guess "end" System; Guess "den" (Named "bob");
                  Enter 1; Enter 0; Enter 4; Enter 5; Submit; GiveUp false] in
  score (perform_all garden_game actions) = Num 610
  ∧ score (perform_all garden_game actions)
    = Num (0 + ledger_points (answers (perform_all garden_game actions))).
Proof.
  split; [vm_compute; reflexivity|].
  apply (score_is_ledger_points garden_dictionary 0 (fun _ => 0)
           initial_world garden_game);
    [vm_compute; reflexivity | vm_compute; reflexivity
    | repeat constructor | vm_compute; reflexivity].
Defined.

(** ** The helper [split] of dist/multiplayer.js *)

Lemma split_space_not_nil s : JS.split_space s ≠ [].
Proof.
  destruct s as [|c s]; [done|]. simpl.
  destruct (Ascii.eqb c " "); [done|]. by destruct (JS.split_space s).
Qed.

Lemma join_cons sep x y ys :
  JS.join sep (x :: y :: ys) = x +:+ sep +:+ JS.join sep (y :: ys).
Proof. reflexivity. Qed.

Lemma join_split_space s : JS.join " " (JS.split_space s) = s.
Proof.
  induction s as [|c s IH]; [done|]. simpl.
  destruct (Ascii.eqb_spec c " ") as [-> | Hc].
  - destruct (JS.split_space s) as [|piece pieces] eqn:E;
      [by apply split_space_not_nil in E|].
    rewrite join_cons, IH. reflexivity.
  - destruct (JS.split_space s) as [|piece pieces] eqn:E;
      [by apply split_space_not_nil in E|].
    destruct pieces as [|piece' pieces].
    + simpl in *. by rewrite IH.
    + rewrite join_cons in *. rewrite append_cons. by rewrite IH.
Qed.

Lemma join_app sep (xs ys : list string) :
  xs ≠ [] → ys ≠ [] →
  JS.join sep (xs ++ ys) = JS.join sep xs +:+ sep +:+ JS.join sep ys.
Proof.
  intros Hxs Hys. induction xs as [|x xs IH]; [done|].
  destruct xs as [|x' xs].
  - destruct ys as [|y ys]; [done|]. reflexivity.
  - change ((x :: x' :: xs) ++ ys) with (x :: x' :: (xs ++ ys)).
    rewrite !join_cons.
    change (x' :: xs ++ ys) with ((x' :: xs) ++ ys).
    rewrite IH by done. by rewrite !append_assoc.
Qed.

Lemma substring_from_app p r :
  substring_from (String.length p) (p +:+ r) = r.
Proof. induction p as [|c p IH]; [by destruct r|]. by rewrite append_cons. Qed.

Lemma substring_from_past n s :
  String.length s ≤ n → substring_from n s = "".
Proof.
  revert n. induction s as [|c s IH]; intros n Hn; [by destruct n|].
  destruct n as [|n]; simpl in *; [lia|]. apply IH. lia.
Qed.

Lemma length_append p r :
  String.length (p +:+ r) = String.length p + String.length r.
Proof. induction p as [|c p IH]; [done|]. rewrite append_cons. simpl. lia. Qed.

Lemma split_limit_rest s limit :
  1 ≤ limit → limit < length (JS.split_space s) →
  split_limit s limit
  = take limit (JS.split_space s)
    ++ [JS.join " " (drop limit (JS.split_space s))].
Proof.
  intros Hlimit Hlen. unfold split_limit. f_equal. f_equal.
  rewrite <- (join_split_space s) at 2.
  rewrite <- (take_drop limit (JS.split_space s)) at 2.
  rewrite join_app.
  - replace (String.length (JS.join " " (take limit (JS.split_space s))) + 1)
      with (String.length (JS.join " " (take limit (JS.split_space s)) +:+ " ")).
    + rewrite <- append_assoc. apply substring_from_app.
    + rewrite length_append. reflexivity.
  - intros E. apply (f_equal length) in E. rewrite length_take in E.
    simpl in E. lia.
  - intros E. apply (f_equal length) in E. rewrite length_drop in E.
    simpl in E. lia.
Qed.

Lemma split_limit_short s limit :
  length (JS.split_space s) ≤ limit →
  split_limit s limit = JS.split_space s ++ [""].
Proof.
  intros Hlen. unfold split_limit.
  rewrite take_ge by done. rewrite join_split_space.
  f_equal. f_equal. apply substring_from_past. lia.
Qed.

(** X16. The helper [split(s, " ", limit)] cuts [s] at its first [limit]
    spaces only.  For a limit of at least 1: when [s] has more than [limit]
    pieces, the result is the first [limit] pieces followed by the rest of [s]
    with its spaces kept, and joining the result with spaces gives [s] back;
    when [s] has at most [limit] pieces, the result is all the pieces followed
    by the empty string.  In both cases the result is one longer than
    the number of pieces taken. *)
Theorem split_limit_cuts_first_spaces s limit :
  1 ≤ limit →
  let pieces := JS.split_space s in
  (limit < length pieces →
     split_limit s limit
     = take limit pieces ++ [JS.join " " (drop limit pieces)]
     ∧ JS.join " " (split_limit s limit) = s)
  ∧ (length pieces ≤ limit → split_limit s limit = pieces ++ [""])
  ∧ length (split_limit s limit) = limit `min` length pieces + 1.
Proof.
  intros Hlimit pieces. split; [|split].
  - intros Hlen. subst pieces. rewrite split_limit_rest by done.
    split; [done|].
    assert (take limit (JS.split_space s) ≠ []) as Htake.
    { intros E. apply (f_equal length) in E. rewrite length_take in E.
      simpl in E. lia. }
    assert (drop limit (JS.split_space s) ≠ []) as Hdrop.
    { intros E. apply (f_equal length) in E. rewrite length_drop in E.
      simpl in E. lia. }
    transitivity (JS.join " " (take limit (JS.split_space s)
                               ++ drop limit (JS.split_space s))).
    + by rewrite !join_app.
    + by rewrite take_drop, join_split_space.
  - apply split_limit_short.
  - unfold split_limit. fold pieces.
    rewrite length_app, length_take. simpl. lia.
Qed.

Lemma split_limit_cuts_first_spaces_witness :
  split_limit ":join ann lee" 1 = [":join"; "ann lee"]
  ∧ split_limit ":quit" 1 = [":quit"; ""]
  ∧ length (split_limit ":attempt den bob" 2) = 3.
Proof.
  destruct (split_limit_cuts_first_spaces ":join ann lee" 1 (le_n 1))
    as (H1 & _ & _).
  destruct (split_limit_cuts_first_spaces ":quit" 1 (le_n 1))
    as (_ & H2 & _).
  destruct (split_limit_cuts_first_spaces ":attempt den bob" 2
              (le_S 1 1 (le_n 1))) as (_ & _ & H3).
  split; [|split].
  - destruct H1 as (H1 & _); [vm_compute; lia|]. exact H1.
  - apply H2. vm_compute. lia.
  - exact H3.
Defined.

(** ** The messages [onServerMsg] handles *)

Lemma split_limit_command cmd arg :
  spaceless cmd = true → split_limit (cmd +:+ " " +:+ arg) 1 = [cmd; arg].
Proof.
  intros Hcmd.
  pose proof (split_space_not_nil arg) as Harg.
  rewrite split_limit_rest; rewrite ?split_space_app_word by done.
  - simpl. by rewrite ?take_0, ?drop_0, join_split_space.
  - done.
  - destruct (JS.split_space arg); [done|]. simpl. lia.
Qed.

Lemma split_limit_attempt word who :
  spaceless word = true →
  split_limit (":attempt " +:+ word +:+ " " +:+ who) 2 = [":attempt"; word; who].
Proof.
  intros Hword.
  change (":attempt " +:+ word +:+ " " +:+ who)
    with (":attempt" +:+ " " +:+ word +:+ " " +:+ who).
  rewrite split_limit_rest; rewrite ?split_space_app_word by done.
  - simpl. by rewrite ?take_0, ?drop_0, join_split_space.
  - auto.
  - pose proof (split_space_not_nil who).
    destruct (JS.split_space who); [done|]. simpl. lia.
Qed.

Lemma split_limit_attempt_bare word :
  spaceless word = true →
  split_limit (":attempt " +:+ word) 2 = [":attempt"; word; ""].
Proof.
  intros Hword.
  change (":attempt " +:+ word) with (":attempt" +:+ " " +:+ word).
  rewrite split_limit_short;
    rewrite split_space_app_word, split_space_word by done; done.
Qed.

Lemma prefix_append p s : String.prefix p (p +:+ s) = true.
Proof.
  induction p as [|c p IH]; [by destruct s|].
  simpl. destruct (ascii_dec c c); [apply IH|done].
Qed.

Lemma onServerMsg_command cmd name w :
  spaceless cmd = true →
  String.prefix ":attempt " (cmd +:+ " " +:+ name) = false →
  cmd +:+ " " +:+ name ≠ ":allgiveup" →
  onServerMsg (cmd +:+ " " +:+ name) w
  = if decide (cmd = ":join") then onPlayerJoin name w
    else if decide (cmd = ":quit") then onPlayerQuit name w
    else if decide (cmd = ":giveup")
         then call_ui (UI.onGiveUpVote true (Some name)) w
    else if decide (cmd = ":ungiveup")
         then call_ui (UI.onGiveUpVote false (Some name)) w
    else w.
Proof.
  intros Hcmd Hprefix Hall. unfold onServerMsg.
  rewrite Hprefix, (split_limit_command cmd name Hcmd).
  by destruct (decide (_ = ":allgiveup")).
Qed.

(** X17. What [onServerMsg] makes of the server's messages.  An attempt
    [":attempt <word> <who>"] is the guess of [word] by the player [who], the
    name ["_"] standing for the system; everything after the second space is
    the name.  An attempt without a name is a guess under the empty name.
    [":join <name>"], [":quit <name>"], [":giveup <name>"] and
    [":ungiveup <name>"] take everything after the first space as the name,
    spaces included. *)
Theorem onServerMsg_decodes w :
  (∀ word who, spaceless word = true →
     onServerMsg (":attempt " +:+ word +:+ " " +:+ who) w
     = onWordGuess word (if decide (who = "_") then System else Named who) w)
  ∧ (∀ word, spaceless word = true →
       onServerMsg (":attempt " +:+ word) w = onWordGuess word (Named "") w)
  ∧ (∀ name, onServerMsg (":join " +:+ name) w = onPlayerJoin name w)
  ∧ (∀ name, onServerMsg (":quit " +:+ name) w = onPlayerQuit name w)
  ∧ (∀ name, onServerMsg (":giveup " +:+ name) w
             = call_ui (UI.onGiveUpVote true (Some name)) w)
  ∧ (∀ name, onServerMsg (":ungiveup " +:+ name) w
             = call_ui (UI.onGiveUpVote false (Some name)) w).
Proof.
  split_and!.
  - intros word who Hword. unfold onServerMsg.
    by rewrite prefix_append, (split_limit_attempt word who Hword).
  - intros word Hword. unfold onServerMsg.
    by rewrite prefix_append, (split_limit_attempt_bare word Hword).
  - intros name. by apply (onServerMsg_command ":join" name w).
  - intros name. by apply (onServerMsg_command ":quit" name w).
  - intros name. by apply (onServerMsg_command ":giveup" name w).
  - intros name. by apply (onServerMsg_command ":ungiveup" name w).
Qed.

Lemma onServerMsg_decodes_witness :
  onServerMsg ":attempt den bob" garden_game
  = onWordGuess "den" (Named "bob") garden_game
  ∧ onServerMsg ":attempt garden _" garden_game
    = onWordGuess "garden" System garden_game
  ∧ onServerMsg ":attempt den" garden_game
    = onWordGuess "den" (Named "") garden_game.
Proof.
  destruct (onServerMsg_decodes garden_game) as (Hwho & Hbare & _).
  split_and!.
  - exact (Hwho "den" "bob" eq_refl).
  - exact (Hwho "garden" "_" eq_refl).
  - exact (Hbare "den" eq_refl).
Defined.

Lemma onServerMsg_frame data w :
  let w' := onServerMsg data w in
  gaveup w' = gaveup w ∧ avail_letters w' = avail_letters w
  ∧ avail_letters_neg1 w' = avail_letters_neg1 w
  ∧ input_box w' = input_box w ∧ playername w' = playername w
  ∧ lobby w' = lobby w ∧ sent w' = sent w.
Proof.
  cbv zeta.
  unfold onServerMsg.
  destruct (String.prefix _ _).
  { pose proof (onWordGuess_keeps (nth 1 (split_limit data 2) "")
                  (if decide (nth 2 (split_limit data 2) "" = "_")
                   then System else Named (nth 2 (split_limit data 2) "")) w)
      as (-> & -> & _ & -> & -> & -> & _).
    rewrite onWordGuess_sent. split_and!; try done.
    unfold onWordGuess. destruct (checkWord _ w) as [[[a0 a1] a2]|]; [|done].
    destruct (claimed a2); [done|]. cbn.
    destruct (gaveup w); cbn; [done|].
    destruct (decide _); [|done].
    destruct (if decide _ then _ else _); try done.
    unfold addPlayerScore. by destruct (property_truthy _). }
  destruct (decide (data = ":allgiveup")).
  { unfold revealAll. by rewrite fold_call_ui. }
  repeat case_decide; try done.
  - unfold onPlayerJoin, cb_onPlayerJoin. cbn. by destruct (decide _).
  - unfold onPlayerQuit. cbn. by destruct (indexOf _ _).
Qed.

(** X18. No message from the server ends the scoring or touches what the
    player is typing: whatever [onServerMsg] is given, the flag [gaveup], the
    letter pool, the input box, the name of the local player, the lobby and
    the messages sent so far are left as they were.  In particular
    [":allgiveup"] only makes the reveal calls: ledger, scores and [gaveup]
    are unchanged by it. *)
Theorem onServerMsg_leaves_play_alone data w :
  let w' := onServerMsg data w in
  (gaveup w' = gaveup w ∧ avail_letters w' = avail_letters w
   ∧ avail_letters_neg1 w' = avail_letters_neg1 w
   ∧ input_box w' = input_box w ∧ playername w' = playername w
   ∧ lobby w' = lobby w ∧ sent w' = sent w)
  ∧ (data = ":allgiveup" →
     answers w' = answers w ∧ score w' = score w ∧ mp_scores w' = mp_scores w
     ∧ ui w' = ui w ++ reveal_calls (answers w)).
Proof.
  intros w'. subst w'. split; [apply onServerMsg_frame|].
  intros ->. unfold onServerMsg. simpl.
  unfold revealAll. by rewrite fold_call_ui.
Qed.

Lemma onServerMsg_leaves_play_alone_witness :
  let w' := onServerMsg ":allgiveup" garden_two_entered in
  gaveup w' = false ∧ input_box w' = ["a"; "r"]
  ∧ answers w' = answers garden_two_entered
  ∧ score (onWordGuess "den" Local w') = Num 90.
Proof.
  destruct (onServerMsg_leaves_play_alone ":allgiveup" garden_two_entered)
    as ((Hgave & _ & _ & Hbox & _) & Hall).
  destruct (Hall eq_refl) as (Hans & _).
  split_and!; [by rewrite Hgave | by rewrite Hbox | exact Hans |].
  vm_compute. reflexivity.
Defined.

(** ** The list of players *)

Lemma onPlayerJoin_players name w :
  players (onPlayerJoin name w) = players w ++ [name].
Proof. unfold onPlayerJoin, cb_onPlayerJoin. cbn. by destruct (decide _). Qed.

Lemma indexOf_middle name (before after : list string) :
  name ∉ before → indexOf name (before ++ name :: after) = Some (length before).
Proof.
  intros Hbefore. apply indexOf_Some. split; [by apply list_lookup_middle|].
  intros j Hj E. rewrite lookup_app_l in E by done.
  apply Hbefore. by apply list_elem_of_lookup_2 with j.
Qed.

Lemma join_quit_players name w :
  players (onPlayerQuit name (onPlayerJoin name w)) ≡ₚ players w
  ∧ (name ∉ players w →
     players (onPlayerQuit name (onPlayerJoin name w)) = players w).
Proof.
  unfold onPlayerQuit. cbn [players call_ui].
  rewrite onPlayerJoin_players. split.
  - destruct (indexOf name (players w ++ [name])) as [k|] eqn:E.
    + cbn. apply indexOf_Some in E as (Hk & _).
      apply (Permutation_cons_inv (a := name)).
      rewrite <- (delete_Permutation _ _ _ Hk).
      by rewrite Permutation_app_comm.
    + apply indexOf_None in E. destruct E. set_solver.
  - intros Hname. rewrite (indexOf_middle name (players w) [] Hname).
    cbn. rewrite delete_middle. by rewrite app_nil_r.
Qed.

(** X19. [onPlayerQuit] removes one player from the list whoever quits: when
    the name is in the list its first occurrence goes; when it is not (the
    index is -1), the last player of the list goes instead.  A join followed
    at once by a quit of the same name leaves the list with the same players,
    and exactly as it was when the name was not in it before.  Ledger and
    scores, the quitter's individual score included, are kept. *)
Theorem onPlayerQuit_removes_one name w :
  let w' := onPlayerQuit name w in
  (∀ before after, players w = before ++ name :: after → name ∉ before →
     players w' = before ++ after)
  ∧ (name ∉ players w → players w' = removelast (players w))
  ∧ players (onPlayerQuit name (onPlayerJoin name w)) ≡ₚ players w
  ∧ (name ∉ players w →
     players (onPlayerQuit name (onPlayerJoin name w)) = players w)
  ∧ answers w' = answers w ∧ score w' = score w ∧ mp_scores w' = mp_scores w.
Proof.
  intros w'. subst w'. split_and!.
  - intros before after Hplayers Hbefore. unfold onPlayerQuit.
    cbn [players call_ui]. rewrite Hplayers, (indexOf_middle _ _ _ Hbefore).
    cbn. by rewrite delete_middle.
  - intros Hname. unfold onPlayerQuit. cbn [players call_ui].
    apply indexOf_None in Hname. by rewrite Hname.
  - apply join_quit_players.
  - apply join_quit_players.
  - unfold onPlayerQuit. cbn. by destruct (indexOf _ _).
  - unfold onPlayerQuit. cbn. by destruct (indexOf _ _).
  - unfold onPlayerQuit. cbn. by destruct (indexOf _ _).
Qed.

Lemma onPlayerQuit_removes_one_witness :
  let w := set_players ["ann"; "bob"; "ann"; "cy"] initial_world in
  players (onPlayerQuit "ann" w) = ["bob"; "ann"; "cy"]
  ∧ players (onPlayerQuit "dee" w) = ["ann"; "bob"; "ann"]
  ∧ players (onPlayerQuit "dee" (onPlayerJoin "dee" w)) = players w.
Proof.
  intros w.
  destruct (onPlayerQuit_removes_one "ann" w) as (Hfirst & _).
  destruct (onPlayerQuit_removes_one "dee" w) as (_ & Hlast & _ & Hboth & _).
  split_and!.
  - apply (Hfirst [] ["bob"; "ann"; "cy"]); [reflexivity | apply not_elem_of_nil].
  - apply Hlast. intros Hin%list_elem_of_In. vm_compute in Hin.
    intuition discriminate.
  - apply Hboth. intros Hin%list_elem_of_In. vm_compute in Hin.
    intuition discriminate.
Defined.

Lemma fold_roster_players tokens w :
  players (fold_left roster_token tokens w)
  ≡ₚ players w ++ filter (fun n => JS.endsWith_underscore n = false) tokens.
Proof.
  revert w. induction tokens as [|n tokens IH]; intros w.
  - simpl. by rewrite app_nil_r.
  - cbn [fold_left]. rewrite IH. unfold roster_token.
    rewrite filter_cons.
    destruct (JS.endsWith_underscore n) eqn:E.
    + rewrite decide_False by done.
      destruct (join_quit_players (JS.drop_last n) w) as (Hperm & _).
      by rewrite Hperm.
    + rewrite decide_True by done.
      rewrite onPlayerJoin_players, <- app_assoc. done.
Qed.

(** X20. The roster a joiner reads: after the loop over the tokens of the
    roster message, the list of players holds the players it held before and
    the tokens that do not end in an underscore, each as often as it occurs;
    a token ending in an underscore adds no one and removes no one. *)
Theorem roster_players tokens w :
  players (fold_left roster_token tokens w)
  ≡ₚ players w ++ filter (fun n => JS.endsWith_underscore n = false) tokens.
Proof. apply fold_roster_players. Qed.

(** ** The word list of a host *)

Lemma spaceless_app a b :
  spaceless (a +:+ b) = spaceless a && spaceless b.
Proof.
  induction a as [|c a IH]; [done|].
  rewrite append_cons. simpl. rewrite IH. by rewrite andb_assoc.
Qed.

Lemma snapshot_token_fold (es : list entry) :
  foldr (fun (e : entry) rest =>
           e.1 +:+ (if claimed e.2 then "_ " else " ") +:+ rest) "" es
  = foldr (fun b rest => b +:+ " " +:+ rest) "" (map snapshot_token es).
Proof.
  induction es as [|e es IH]; [done|].
  simpl. rewrite IH. unfold snapshot_token.
  destruct (claimed e.2); [by rewrite append_assoc | done].
Qed.

(** X21. The word list a host sends.  For a ledger that has a word and whose
    words are non-empty and free of white space, the message built by the
    loops of [hostGame] and trimmed is the tokens of all pairs, group after
    group, separated by single spaces, where the token of a pair is its word,
    with an underscore appended when the pair holds a claimant; splitting
    the message at spaces, as the joiner does, gives these tokens back. *)
Theorem host_snapshot_tokens (groups : list (list entry)) :
  concat groups ≠ [] →
  Forall (fun e : entry => spaceless e.1 = true ∧ e.1 ≠ "") (concat groups) →
  host_snapshot groups = JS.join " " (map snapshot_token (concat groups))
  ∧ JS.split_space (host_snapshot groups)
    = map snapshot_token (concat groups).
Proof.
  intros Hne Hwords.
  assert (Forall (fun s => spaceless s = true ∧ s ≠ "")
            (map snapshot_token (concat groups))) as Htokens.
  { apply Forall_forall. intros s Hs.
    apply list_elem_of_In, in_map_iff in Hs as (e & <- & He).
    rewrite Forall_forall in Hwords.
    destruct (Hwords e) as (Hsp & Hnon); [by apply list_elem_of_In|].
    unfold snapshot_token. destruct (claimed e.2); [|done].
    split; [by rewrite spaceless_app, Hsp|].
    destruct e.1; [done | by rewrite append_cons]. }
  assert (host_snapshot groups
          = JS.join " " (map snapshot_token (concat groups))) as Hjoin.
  { unfold host_snapshot.
    rewrite snapshot_fold, append_nil_l, snapshot_token_fold.
    by apply snapshot_words. }
  split; [done|]. rewrite Hjoin. apply split_space_join.
  - intros E. apply Hne. by apply map_eq_nil in E.
  - eapply Forall_impl; [exact Htokens|]. by intros s (Hs & _).
Qed.

Lemma host_snapshot_tokens_witness :
  let groups := answers (onWordGuess "rang" (Named "bob")
                           (onWordGuess "den" Local garden_game)) in
  host_snapshot groups = "den_ end dare rang_ danger garden"
  ∧ JS.split_space (host_snapshot groups)
    = ["den_"; "end"; "dare"; "rang_"; "danger"; "garden"].
Proof.
  apply (host_snapshot_tokens
           (answers (onWordGuess "rang" (Named "bob")
                       (onWordGuess "den" Local garden_game)))).
  - vm_compute. discriminate.
  - vm_compute. repeat constructor; discriminate.
Defined.

(** ** Joining a game, from the first message to the last *)

Lemma roster_token_frame w n :
  let w' := roster_token w n in
  playername w' = playername w ∧ sent w' = sent w ∧ score w' = score w
  ∧ onmessage w' = onmessage w.
Proof.
  unfold roster_token, onPlayerQuit, onPlayerJoin, cb_onPlayerJoin.
  destruct (JS.endsWith_underscore n); cbn.
  - destruct (decide _); cbn; by destruct (indexOf _ _).
  - by destruct (decide _).
Qed.

Lemma roster_frame tokens w :
  let w' := fold_left roster_token tokens w in
  playername w' = playername w ∧ sent w' = sent w ∧ score w' = score w
  ∧ onmessage w' = onmessage w.
Proof.
  revert w. induction tokens as [|n tokens IH]; intros w; [done|].
  cbn [fold_left].
  destruct (IH (roster_token w n)) as (-> & -> & -> & ->).
  apply roster_token_frame.
Qed.

(** X22. Joining a game from the first message to the last.  A page calls
    [joinGame], the server answers [":ok"], the page calls [sendName], the
    server answers with the roster and then with the word list of a host whose
    game has just been created (the words free of white space).  No step
    fails, and at the end the handler is [onServerMsg], the lobby and the name
    are recorded, the name is the only message sent, the ledger is the host's
    ledger, the game is a fresh one (input box empty, [gaveup] false), the
    score is the one the page had, and the players are those of the roster. *)
Theorem joining_a_fresh_game
    dictionary pick draw w host gamename name roster pick' draw' w0 :
  createGame dictionary pick draw w = Some host →
  Forall (fun s => spaceless s = true) (ledger_words (answers host)) →
  roster ≠ ":badname" → roster ≠ ":taken" →
  ∃ w1 w2 w3,
    receive ":ok" pick' draw' (joinGame gamename w0) = Some w1
    ∧ receive roster pick' draw' (sendName name w1) = Some w2
    ∧ receive (host_snapshot (answers host)) pick' draw' w2 = Some w3
    ∧ onmessage w3 = onServerMsg_installed
    ∧ lobby w3 = Some gamename
    ∧ playername w3 = Some name
    ∧ sent w3 = sent w0 ++ [name]
    ∧ answers w3 = answers host
    ∧ input_box w3 = [] ∧ gaveup w3 = false
    ∧ score w3 = score w0
    ∧ players w3
      ≡ₚ players w0
         ++ filter (fun n => JS.endsWith_underscore n = false)
              (JS.split_space roster).
Proof.
  intros Hhost Hspaceless Hbad Htaken.
  set (w1 := set_onmessage (Joining 1 gamename) (joinGame gamename w0)).
  set (w2 := set_onmessage (Joining 3 gamename)
               (fold_left roster_token (JS.split_space roster)
                  (sendName name w1))).
  assert (onmessage w2 = Joining 3 gamename) as Hstate by done.
  destruct (joiner_rebuilds_unclaimed_ledger dictionary pick draw w host
              gamename pick' draw' w2 Hhost Hspaceless Hstate)
    as (w3 & Hw3 & Hans).
  pose proof Hw3 as Hrec. unfold receive in Hrec. rewrite Hstate in Hrec.
  unfold join_onmessage, cb_makeGame in Hrec. cbn [Nat.eqb] in Hrec.
  destruct (createGame _ pick' draw' w2) as [wg|] eqn:Hgame; [|done].
  injection Hrec as <-.
  destruct (createGame_frame _ _ _ _ _ Hgame)
    as (chosen & _ & _ & _ & Hbox & Hgave & Hscore & _ & Hname & Hplayers
        & Hsent & _).
  destruct (roster_frame (JS.split_space roster) (sendName name w1))
    as (Hn & Hs & Hsc & _).
  eexists w1, w2, _. split_and!; [done | | exact Hw3 | ..]; try done;
    cbn [onmessage lobby playername sent input_box gaveup score players
         set_onmessage set_lobby call_ui]; try done.
  - unfold receive, join_onmessage, sendName.
    cbn [onmessage sock_send set_playername w1 set_onmessage].
    cbn [Nat.eqb]. rewrite !decide_False by done. cbn [Nat.eqb].
    reflexivity.
  - rewrite Hname. unfold w2. cbn [playername set_onmessage]. by rewrite Hn.
  - rewrite Hsent. unfold w2. cbn [sent set_onmessage]. by rewrite Hs.
  - rewrite Hscore. unfold w2. cbn [score set_onmessage]. by rewrite Hsc.
  - rewrite Hplayers. unfold w2. cbn [players set_onmessage].
    by rewrite fold_roster_players.
Qed.

Lemma joining_a_fresh_game_witness :
  ∃ w1 w2 w3,
    receive ":ok" 3 (fun _ => 1) (joinGame "g1" initial_world) = Some w1
    ∧ receive "alice bob_" 3 (fun _ => 1) (sendName "carol" w1) = Some w2
    ∧ receive (host_snapshot (answers garden_game)) 3 (fun _ => 1) w2 = Some w3
    ∧ onmessage w3 = onServerMsg_installed
    ∧ lobby w3 = Some "g1"
    ∧ playername w3 = Some "carol"
    ∧ sent w3 = sent initial_world ++ ["carol"]
    ∧ answers w3 = answers garden_game
    ∧ input_box w3 = [] ∧ gaveup w3 = false
    ∧ score w3 = score initial_world
    ∧ players w3
      ≡ₚ players initial_world
         ++ filter (fun n => JS.endsWith_underscore n = false)
              (JS.split_space "alice bob_").
Proof.
  apply (joining_a_fresh_game garden_dictionary 0 (fun _ => 0) initial_world
           garden_game "g1" "carol" "alice bob_" 3 (fun _ => 1) initial_world).
  - vm_compute. reflexivity.
  - vm_compute. repeat constructor.
  - discriminate.
  - discriminate.
Defined.

(** ** The individual scores and the ledger *)

Lemma player_points_claim name (groups : list (list entry)) a0 a1 group word b who :
  groups !! a0 = Some group → group !! a1 = Some (word, b) →
  player_points name
    (alter (alter (fun e : entry => (e.1, Some who)) a1) a0 groups)
  = (player_points name groups - credited_to name (word, b)
     + credited_to name (word, Some who))%Z.
Proof.
  intros Hg He. unfold player_points.
  rewrite (sum_alter
             (fun group => foldr (fun e acc => (credited_to name e + acc)%Z)
                             0%Z group) _ _ _ _ Hg).
  rewrite (sum_alter (credited_to name) _ _ _ _ He). simpl. lia.
Qed.

Lemma credited_to_unclaimed name (e : entry) :
  name ≠ "" → claimed e.2 = false → credited_to name e = 0%Z.
Proof.
  intros Hname. destruct e as [a [[| |n]|]]; unfold credited_to; simpl; try done.
  destruct n; [|done]. intros _. by rewrite decide_False.
Qed.

Lemma player_points_unclaimed name (groups : list (list string)) :
  player_points name (map (map (fun b => (b, None))) groups) = 0%Z.
Proof.
  induction groups as [|g groups IH]; [done|].
  simpl. rewrite IH.
  assert (foldr (fun e acc => (credited_to name e + acc)%Z) 0%Z
            (map (fun b => (b, @None player)) g) = 0%Z) as ->; [|done].
  induction g as [|b g IHg]; [done|]. simpl. by rewrite IHg.
Qed.

Lemma addPlayerScore_other points n name w :
  n ≠ name →
  mp_scores (addPlayerScore points n w) !! name = mp_scores w !! name.
Proof.
  intros Hne. unfold addPlayerScore, mp_scores_put.
  destruct (property_truthy _); cbn [mp_scores call_ui set_mp_scores];
    destruct (decide (n = "__proto__")); by rewrite ?lookup_insert_ne.
Qed.

Lemma onWordGuess_individual name word who w :
  name ≠ "" → numeric_entry name (mp_scores w) →
  gaveup w = false → claimed (Some who) = true → scorable w →
  numeric_entry name (mp_scores (onWordGuess word who w))
  ∧ (individual_score name (onWordGuess word who w)
     - player_points name (answers (onWordGuess word who w))
     = individual_score name w - player_points name (answers w))%Z.
Proof.
  intros Hname Hentry Hgave Hwho Hs.
  destruct (checkWord word w) as [[[a0 a1] b]|] eqn:Hc;
    [|by rewrite (onWordGuess_unknown _ _ _ Hc)].
  destruct (claimed b) eqn:Hb; [by rewrite (onWordGuess_claimed _ _ _ _ _ _ Hc Hb)|].
  destruct (checkWord_found _ _ _ _ _ Hc) as (group & Hg & He).
  rewrite (onWordGuess_answers _ _ _ _ _ _ Hc Hb).
  rewrite (player_points_claim name _ _ _ _ _ _ who Hg He).
  rewrite (credited_to_unclaimed name (word, b) Hname Hb).
  rewrite (onWordGuess_reveals _ _ _ _ _ _ Hc Hb).
  pose proof (scorable_points _ _ _ _ _ _ Hs Hg He) as Hpts.
  cbn zeta. rewrite Hgave, Hpts.
  destruct who as [| |n].
  - split; [done|]. unfold credited_to, individual_score. cbn. lia.
  - split; [done|]. unfold credited_to, individual_score. cbn. lia.
  - set (w1 := addScore (Num (points_of (String.length word)))
                 (revealed word (Named n) a0 a1 w)).
    assert (mp_scores w1 = mp_scores w) as Hw1 by done.
    unfold credited_to. cbn [snd fst].
    destruct (decide (n = name)) as [->|Hne].
    + assert (Hmp : mp_scores
                      (addPlayerScore (Num (points_of (String.length word)))
                         name w1)
                    = <[name := Num (individual_score name w
                                     + points_of (String.length word))]>
                        (mp_scores w)).
      { rewrite addPlayerScore_numeric by (by rewrite Hw1).
        unfold individual_score. by rewrite Hw1. }
      split.
      * destruct Hentry as (Hproto & _). split; [done|].
        intros pieces. by rewrite Hmp, lookup_insert_eq.
      * unfold individual_score at 1. rewrite Hmp, lookup_insert_eq. lia.
    + pose proof (addPlayerScore_other
                    (Num (points_of (String.length word))) n name w1 Hne)
        as Hother.
      rewrite Hw1 in Hother. split.
      * destruct Hentry as (Hproto & Hstr). split; [done|].
        intros pieces. rewrite Hother. apply Hstr.
      * unfold individual_score. rewrite Hother. lia.
Qed.

Lemma perform_individual name w a :
  name ≠ "" → numeric_entry name (mp_scores w) →
  gaveup w = false → recordable a → scorable w →
  numeric_entry name (mp_scores (perform w a))
  ∧ (individual_score name (perform w a)
     - player_points name (answers (perform w a))
     = individual_score name w - player_points name (answers w))%Z.
Proof.
  intros Hname Hentry Hgave Hrec Hs. unfold individual_score at 1 2.
  destruct a as [word who|index|index| |on|draw]; simpl.
  - by apply onWordGuess_individual.
  - by pose proof (enterChar_keeps index w) as (_ & _ & -> & -> & _).
  - by pose proof (backspaceChar_keeps index w) as (_ & _ & -> & -> & _).
  - destruct (submitWord_as_guess w) as (Hwho & -> & _ & -> & _).
    by apply onWordGuess_individual.
  - by pose proof (giveUp_keeps on w) as (_ & -> & -> & _).
  - done.
Qed.

(** X23. Each player's own score is the sum of the points the ledger holds
    under that player's name.  Take a name that is not empty and not a member
    of [Object.prototype], whose entry in [mp_scores], if any, is not a
    string.  From a game just created, after any sequence of calls in which
    no guess is made under the empty name, and as long as the player has not
    given up, the individual score of that name is the one it had before the
    game plus [pointvalues] of the length of every word the ledger holds
    under that name. *)
Theorem individual_score_is_player_points
    dictionary pick draw w0 w name actions :
  createGame dictionary pick draw w0 = Some w →
  name ≠ "" →
  numeric_entry name (mp_scores w0) →
  Forall recordable actions →
  gaveup (perform_all w actions) = false →
  individual_score name (perform_all w actions)
  = (individual_score name w0
     + player_points name (answers (perform_all w actions)))%Z.
Proof.
  intros Hgame Hname Hentry0 Hrec Hgave.
  destruct (createGame_scorable _ _ _ _ _ Hgame) as (Hs & _).
  destruct (createGame_frame _ _ _ _ _ Hgame)
    as (chosen' & _ & _ & _ & _ & _ & _ & Hmp & _).
  assert (numeric_entry name (mp_scores w)) as Hentry by by rewrite Hmp.
  assert (individual_score name w - player_points name (answers w)
          = individual_score name w0)%Z as Hstart.
  { destruct (createGame_answers _ _ _ _ _ Hgame)
      as (chosen & _ & _ & _ & -> & _).
    rewrite player_points_unclaimed.
    unfold individual_score. rewrite Hmp. lia. }
  enough (individual_score name (perform_all w actions)
          - player_points name (answers (perform_all w actions))
          = individual_score name w - player_points name (answers w))%Z by lia.
  clear Hgame Hstart Hmp Hentry0. revert w Hs Hentry Hgave.
  induction Hrec as [|a actions Ha Hrec IH]; intros w Hs Hentry Hgave; [done|].
  simpl in *.
  assert (gaveup (perform w a) = false) as Hgave1.
  { destruct (gaveup (perform w a)) eqn:E; [|done].
    destruct (perform_all_keeps_gaveup actions _ E) as (Hg & _). congruence. }
  assert (gaveup w = false) as Hgave0.
  { destruct (gaveup w) eqn:E; [|done].
    destruct (perform_keeps_gaveup w a E) as (Hg & _). congruence. }
  destruct (perform_individual name w a Hname Hentry Hgave0 Ha Hs)
    as (Hentry1 & Hstep).
  rewrite IH; [done | | done | done].
  unfold scorable. by rewrite perform_shape.
Qed.

Lemma individual_score_is_player_points_witness :
  let actions := [Guess "den" (Named "bob"); Guess "garden" (Named "ann");
                  Guess "end" System; Guess "den" (Named "ann");
                  Guess "rang" (Named "bob"); Enter 1; Submit] in
  individual_score "bob" (perform_all garden_game actions) = 250%Z
  ∧ individual_score "bob" (perform_all garden_game actions)
    = (individual_score "bob" initial_world
       + player_points "bob" (answers (perform_all garden_game actions)))%Z.
Proof.
  split; [vm_compute; reflexivity|].
  apply (individual_score_is_player_points garden_dictionary 0 (fun _ => 0)
           initial_world garden_game);
    [vm_compute; reflexivity | discriminate | | repeat constructor
    | vm_compute; reflexivity].
  split.
  - intros Hin%list_elem_of_In. vm_compute in Hin. intuition discriminate.
  - intros pieces. vm_compute. discriminate.
Defined.

(** ** A multiplayer session *)

Lemma submitWord_playername w : playername (submitWord w) = playername w.
Proof.
  unfold submitWord. cbv zeta.
  set (word := JS.join "" (input_box w)).
  set (who := match getPlayername w with
              | Some name => if JS.truthy name then Named name else Local
              | None => Local
              end).
  pose proof (onWordGuess_keeps word who w) as (_ & Hname & _).
  set (w1 := onWordGuess word who w) in *.
  assert (Ha : playername (announceWordGuess word w1) = playername w1).
  { unfold announceWordGuess. by destruct (_ && _). }
  set (w2 := announceWordGuess word w1) in *.
  pose proof (backspace_while_keeps (S (length (input_box w2))) w2)
    as (_ & _ & _ & _ & -> & _).
  by rewrite Ha.
Qed.

Lemma giveUp_vote name on w :
  playername w = Some name →
  playername (giveUp on w) = Some name ∧ gaveup (giveUp on w) = gaveup w.
Proof.
  intros Hname. unfold giveUp, getPlayername, voteGiveUp. rewrite Hname.
  destruct on; cbn; destruct (has_sock w); by cbn.
Qed.

Lemma perform_named name w a :
  playername w = Some name →
  playername (perform w a) = Some name ∧ gaveup (perform w a) = gaveup w.
Proof.
  intros Hname. destruct a as [word who|index|index| |on|draw]; simpl.
  - by pose proof (onWordGuess_keeps word who w) as (-> & -> & _).
  - by pose proof (enterChar_keeps index w) as (-> & _ & _ & _ & -> & _).
  - by pose proof (backspaceChar_keeps index w) as (-> & _ & _ & _ & -> & _).
  - rewrite submitWord_playername.
    by pose proof (submitWord_keeps w) as (-> & _).
  - by apply giveUp_vote.
  - done.
Qed.

(** X24. A player with a name never gives up alone.  Once a name is set
    ([hostGame], [sendName]), no call of the page ([giveUp] included, which
    then only votes) and no message of the server ([":allgiveup"] included)
    changes [gaveup] or the name: whatever happens, scoring goes on as it was
    until [createGame] runs again. *)
Theorem named_player_never_gives_up name w events :
  playername w = Some name →
  playername (handle_all w events) = Some name
  ∧ gaveup (handle_all w events) = gaveup w.
Proof.
  revert w. induction events as [|e events IH]; intros w Hname; [done|].
  cbn [handle_all fold_left]. fold (handle_all (handle w e) events).
  assert (playername (handle w e) = Some name ∧ gaveup (handle w e) = gaveup w)
    as (Hname' & <-).
  { destruct e as [a|data]; simpl; [by apply perform_named|].
    by pose proof (onServerMsg_frame data w) as (-> & _ & _ & _ & -> & _). }
  by apply IH.
Qed.

Lemma named_player_never_gives_up_witness :
  let w := default initial_world
             (receive "7" 0 (fun _ => 0) (hostGame "ann" garden_game)) in
  let events := [Call (GiveUp true); Message ":giveup bob";
                 Message ":allgiveup"; Call (Guess "den" (Named "ann"))] in
  (playername (handle_all w events) = Some "ann"
   ∧ gaveup (handle_all w events) = gaveup w)
  ∧ score (handle_all w events) = Num 90.
Proof.
  split; [|vm_compute; reflexivity].
  apply (named_player_never_gives_up "ann"). vm_compute. reflexivity.
Defined.

(** X25. Hosting keeps the game.  [hostGame], the word list sent when the
    socket opens and the reply of the server that creates the lobby leave the
    ledger as it is (a word guessed before hosting stays credited to the
    local player, and goes out with an underscore), and leave the score, the
    letters and [gaveup] alone.  Afterwards the handler is [onServerMsg], the
    name is set, the host is the last of the players, the score has been
    assigned to [mp_scores] under the name (which stores it, unless the name
    is ["__proto__"], for which nothing is stored), and the word list is the
    only message sent.  The variable [lobby] is not set on a host. *)
Theorem hosting_keeps_the_game name data pick draw w :
  ∃ w', receive data pick draw (host_onopen (hostGame name w)) = Some w'
    ∧ onmessage w' = onServerMsg_installed
    ∧ playername w' = Some name
    ∧ players w' = players w ++ [name]
    ∧ mp_scores w' = mp_scores_put name (score w) (mp_scores w)
    ∧ (name ≠ "__proto__" →
       mp_scores w' = <[ name := score w ]> (mp_scores w))
    ∧ (name = "__proto__" → mp_scores w' = mp_scores w)
    ∧ sent w' = sent w ++ [host_snapshot (answers w)]
    ∧ lobby w' = lobby w
    ∧ answers w' = answers w ∧ score w' = score w ∧ gaveup w' = gaveup w
    ∧ avail_letters w' = avail_letters w ∧ input_box w' = input_box w
    ∧ ui w' = ui w ++ [UI.display_gamename ("c" +:+ data); UI.show_mp_menu 2;
                       UI.onPlayerJoin name;
                       UI.setPlayerScore (Primitive (score w)) name].
Proof.
  eexists. split; [reflexivity|].
  unfold cb_onLobbyCreate, onPlayerJoin, cb_onPlayerJoin, getPlayername,
    host_onopen, hostGame.
  cbn [playername call_ui set_onmessage set_playername sock_send].
  destruct (decide (Some name = Some name)) as [_|Hne]; [|by destruct Hne].
  cbn. rewrite <- !app_assoc. split_and!; try done.
  - intros Hproto. unfold mp_scores_put. by rewrite decide_False.
  - intros ->. unfold mp_scores_put. by rewrite decide_True.
Qed.

(** ** Every arrangement can come out of [shuffle] *)

Lemma shuffle_from_ext {A} (d1 d2 : nat → nat) i (array : list A) :
  (∀ k, k ≤ i → d1 k = d2 k) →
  shuffle_from d1 i array = shuffle_from d2 i array.
Proof.
  revert array. induction i as [|i IH]; intros array Hd; [done|].
  simpl. rewrite (Hd (S i)) by lia. apply IH. intros k Hk. apply Hd. lia.
Qed.

Lemma swap_at_brings {A} (array : list A) i j y :
  i < length array → j ≤ i → array !! j = Some y →
  swap_at i j array !! i = Some y
  ∧ drop (S i) (swap_at i j array) = drop (S i) array.
Proof.
  intros Hi Hj Hy. unfold swap_at. rewrite Hy.
  destruct (array !! i) as [temp|] eqn:Htemp;
    [|apply lookup_ge_None in Htemp; lia].
  split.
  - destruct (decide (j = i)) as [->|Hne].
    + rewrite list_lookup_insert_eq by (rewrite length_insert; lia). congruence.
    + rewrite list_lookup_insert_ne by done.
      by rewrite list_lookup_insert_eq.
  - by rewrite !drop_insert_lt by lia.
Qed.

Lemma shuffle_from_reaches {A} i (array target : list A) :
  i < length array → target ≡ₚ array →
  drop (S i) target = drop (S i) array →
  ∃ draw, shuffle_from draw i array = target.
Proof.
  revert array. induction i as [|i IH]; intros array Hi Hperm Hdrop.
  - exists (fun _ => 0). simpl.
    assert (length target = length array) as Hlen by by rewrite Hperm.
    destruct array as [|x array]; [simpl in Hi; lia|].
    destruct target as [|y target]; [done|].
    simpl in Hdrop. rewrite ?drop_0 in Hdrop. subst target.
    apply (Permutation_app_inv_r array [y] [x]) in Hperm.
    apply Permutation_length_1 in Hperm. by subst.
  - assert (length target = length array) as Hlen by by rewrite Hperm.
    destruct (lookup_lt_is_Some_2 target (S i)) as [y Hy]; [lia|].
    assert (take (S (S i)) target ≡ₚ take (S (S i)) array) as Htake.
    { apply (Permutation_app_inv_r (drop (S (S i)) target)).
      rewrite take_drop. rewrite Hdrop at 1. by rewrite take_drop. }
    assert (y ∈ take (S (S i)) array) as Hin.
    { rewrite <- Htake. apply list_elem_of_lookup. exists (S i).
      rewrite lookup_take_lt by lia. done. }
    apply list_elem_of_lookup in Hin as [j Hj].
    assert (j < S (S i)) as Hjlt.
    { apply lookup_lt_Some in Hj. rewrite length_take in Hj. lia. }
    rewrite lookup_take_lt in Hj by done.
    destruct (swap_at_brings array (S i) j y) as (Hat & Hrest); [lia | lia | done |].
    destruct (IH (swap_at (S i) j array)) as [draw Hdraw].
    + rewrite (swap_at_Permutation (S i) j array). lia.
    + by rewrite (swap_at_Permutation (S i) j array).
    + rewrite (drop_S _ _ _ Hy), (drop_S _ _ _ Hat). by rewrite Hrest, Hdrop.
    + exists (fun k => if decide (k = S i) then j else draw k).
      cbn [shuffle_from]. rewrite decide_True by done.
      assert (random_below j (S i + 1) = j) as ->.
      { unfold random_below. replace (S i + 1) with (S (S i)) by lia.
        apply Nat.mod_small. lia. }
      rewrite <- Hdraw. apply shuffle_from_ext.
      intros k Hk. rewrite decide_False by lia. done.
Qed.

(** X26. [shuffle] can produce every arrangement: for each rearrangement of
    the array there are samples of [Math.random] with which [shuffle] returns
    it. *)
Theorem shuffle_reaches_every_arrangement {A} (array target : list A) :
  target ≡ₚ array → ∃ draw, shuffle draw array = target.
Proof.
  intros Hperm. unfold shuffle.
  destruct array as [|x array].
  - apply Permutation_nil_r in Hperm. subst. by exists (fun _ => 0).
  - apply shuffle_from_reaches; [simpl; lia | done |].
    assert (length target = length (x :: array)) as Hlen by by rewrite Hperm.
    rewrite !drop_ge; [done | simpl; lia | simpl in *; lia].
Qed.

Lemma shuffle_reaches_every_arrangement_witness :
  ∃ draw, shuffle draw (JS.split_units "garden") = JS.split_units "danger".
Proof.
  apply shuffle_reaches_every_arrangement.
  apply (bool_decide_unpack
           (JS.split_units "danger" ≡ₚ JS.split_units "garden")).
  vm_compute. exact I.
Defined.

(** ** What a page sends during a game *)

Lemma submitWord_sent w :
  onmessage (submitWord w) = onmessage w
  ∧ sent (submitWord w)
    = sent w ++ (if has_sock w && JS.truthy (JS.join "" (input_box w))
                 then [":attempt " +:+ JS.toLowerCase (JS.join "" (input_box w))]
                 else []).
Proof.
  unfold submitWord. cbv zeta.
  set (word := JS.join "" (input_box w)).
  set (who := match getPlayername w with
              | Some name => if JS.truthy name then Named name else Local
              | None => Local
              end).
  pose proof (onWordGuess_keeps word who w) as (_ & _ & Hmsg & _).
  pose proof (onWordGuess_sent word who w) as Hsent.
  set (w1 := onWordGuess word who w) in *.
  rewrite backspace_while_sent.
  pose proof (backspace_while_keeps
                (S (length (input_box (announceWordGuess word w1))))
                (announceWordGuess word w1)) as (_ & _ & _ & _ & _ & ->).
  unfold announceWordGuess, has_sock. rewrite Hmsg.
  destruct (_ && _); cbn; rewrite ?Hsent, ?app_nil_r; done.
Qed.

Lemma enterChar_sent index w : sent (enterChar index w).2 = sent w.
Proof.
  unfold enterChar. destruct (avail_at index w) as [c|]; [|done].
  destruct (JS.truthy c); [|done]. by destruct (index =? -1)%Z.
Qed.

Lemma giveUp_sent on w :
  onmessage (giveUp on w) = onmessage w
  ∧ ∃ msgs, sent (giveUp on w) = sent w ++ msgs
      ∧ length msgs ≤ 1 ∧ Forall game_message msgs
      ∧ (has_sock w = false → msgs = []).
Proof.
  assert (∀ w' : world, onmessage w' = onmessage w → sent w' = sent w →
            onmessage w' = onmessage w
            ∧ ∃ msgs, sent w' = sent w ++ msgs
                ∧ length msgs ≤ 1 ∧ Forall game_message msgs
                ∧ (has_sock w = false → msgs = [])) as Hsame.
  { intros w' Hm Hs. split; [done|]. exists [].
    rewrite app_nil_r. split_and!; [done | simpl; lia | done | done]. }
  assert (∀ (c : UI.call) m, game_message m → has_sock w = true →
            onmessage (call_ui c (sock_send m w)) = onmessage w
            ∧ ∃ msgs, sent (call_ui c (sock_send m w)) = sent w ++ msgs
                ∧ length msgs ≤ 1 ∧ Forall game_message msgs
                ∧ (has_sock w = false → msgs = [])) as Hone.
  { intros c m Hm Hsock. split; [done|]. exists (m :: []).
    split_and!; [done | simpl; lia | by apply Forall_singleton | congruence]. }
  unfold giveUp, getPlayername, voteGiveUp, revealAll.
  destruct (playername w), on, (has_sock w) eqn:E;
    first [ apply Hone; [unfold game_message; by auto | done]
          | apply Hsame; cbn; rewrite ?fold_call_ui; done ].
Qed.

Lemma perform_sent w a :
  onmessage (perform w a) = onmessage w
  ∧ ∃ msgs, sent (perform w a) = sent w ++ msgs
      ∧ length msgs ≤ 1 ∧ Forall game_message msgs
      ∧ (has_sock w = false → msgs = []).
Proof.
  assert (∀ w' : world, onmessage w' = onmessage w → sent w' = sent w →
            onmessage w' = onmessage w
            ∧ ∃ msgs, sent w' = sent w ++ msgs
                ∧ length msgs ≤ 1 ∧ Forall game_message msgs
                ∧ (has_sock w = false → msgs = [])) as Hsame.
  { intros w' Hm Hs. split; [done|]. exists [].
    rewrite app_nil_r. split_and!; [done | simpl; lia | done | done]. }
  destruct a as [word who|index|index| |on|draw]; simpl.
  - apply Hsame; [|apply onWordGuess_sent].
    by pose proof (onWordGuess_keeps word who w) as (_ & _ & -> & _).
  - apply Hsame; [|apply enterChar_sent].
    by pose proof (enterChar_keeps index w) as (_ & _ & _ & _ & _ & ->).
  - by apply Hsame; apply backspaceChar_sent.
  - destruct (submitWord_sent w) as (Hm & Hs). split; [done|].
    eexists. split; [exact Hs|].
    destruct (has_sock w); cbn;
      [|split_and!; [simpl; lia | done | done]].
    destruct (JS.truthy _) eqn:E; [|split_and!; [simpl; lia | done | done]].
    split_and!; [done | | done].
    apply Forall_singleton. right. right.
    exists (JS.join "" (input_box w)). split; [|done].
    intros E'. by rewrite E' in E.
  - apply giveUp_sent.
  - by apply Hsame.
Qed.

(** X27. What a page sends during a game.  Over any sequence of calls, each
    call sends at most one message, and every message sent is [":giveup"],
    [":ungiveup"] or [":attempt "] followed by a non-empty lower-cased word.
    A page that has neither hosted nor joined a game sends nothing. *)
Theorem page_sends_game_messages w actions :
  ∃ msgs, sent (perform_all w actions) = sent w ++ msgs
    ∧ length msgs ≤ length actions
    ∧ Forall game_message msgs
    ∧ (has_sock w = false → msgs = []).
Proof.
  revert w. induction actions as [|a actions IH]; intros w.
  - exists []. rewrite app_nil_r. split_and!; [done | simpl; lia | done | done].
  - cbn [perform_all fold_left]. fold (perform_all (perform w a) actions).
    destruct (perform_sent w a) as (Hm & m1 & Hs1 & Hl1 & Hf1 & Hn1).
    destruct (IH (perform w a)) as (m2 & Hs2 & Hl2 & Hf2 & Hn2).
    exists (m1 ++ m2). split_and!.
    + by rewrite Hs2, Hs1, app_assoc.
    + rewrite length_app. simpl. lia.
    + by apply Forall_app.
    + intros Hsock. rewrite Hn1 by done. rewrite Hn2; [done|].
      unfold has_sock in *. by rewrite Hm.
Qed.

Example host_sends_attempts_and_votes :
  sent (perform_all (hostGame "ann" garden_game)
          [Enter 2; Enter 3; Enter 4; Submit; GiveUp true; Submit;
           Guess "end" (Named "ann"); GiveUp false])
  = [":attempt den"; ":giveup"; ":ungiveup"].
Proof. vm_compute. reflexivity. Qed.
